(** * IgorExt::StaticVector: a fixed-capacity vector over inline storage

    A shallow embedding of [src/external/Igor-StaticVector.hpp].

    - [size_t] and [ssize_t] values are integers in [Z]; the wrap-around of
      the 64-bit arithmetic the code performs is written out
      ([size_t_wrap], [ssize_t_wrap]).
    - The storage [UninitializedArray<Element, CAPACITY>] is a list of
      [CAPACITY] slots.  A slot either holds a constructed object or is
      raw memory in which no object has been constructed.
    - A pointer into the storage ([iterator], [const_iterator], the
      [m_ptr] of a reverse iterator) is its offset from [data()].
    - [assert] is the macro of <cassert>: with [NDEBUG] it expands to
      nothing, otherwise it evaluates its condition and aborts when the
      condition is false.  Every evaluated assertion is recorded in a log,
      so that "which checks does this operation perform" is a statement
      about the model.
    - Behaviour that C++ leaves undefined (access outside the storage,
      using raw memory as an object) is the outcome [Undefined].
    - A value parameter that the code takes by reference and reads after
      it has changed the storage is a [reference]: it names an object
      outside the container or one of the slots of the container. *)

From stdpp Require Import base option numbers list strings gmap.

Local Open Scope Z_scope.

(** ** The monad of the embedding: assertion log and outcome *)

Inductive outcome (A : Type) : Type :=
| Done (a : A)
| AssertionFailed (msg : string)
| Undefined.
Arguments Done {A} a.
Arguments AssertionFailed {A} msg.
Arguments Undefined {A}.

(** One evaluated [assert(cond && "msg")]. *)
Record check : Type := Check { check_msg : string; check_holds : bool }.

Record M (A : Type) : Type := Run { log : list check; out : outcome A }.
Arguments Run {A} log out.
Arguments log {A} m.
Arguments out {A} m.

#[global] Instance M_ret : MRet M := λ A a, Run [] (Done a).

#[global] Instance M_bind : MBind M := λ A B f m,
  match out m with
  | Done a => Run (log m ++ log (f a)) (out (f a))
  | AssertionFailed msg => Run (log m) (AssertionFailed msg)
  | Undefined => Run (log m) Undefined
  end.

#[global] Instance M_fmap : FMap M := λ A B f m, a ← m; mret (f a).

Definition undefined {A : Type} : M A := Run [] Undefined.

(** Total correctness of a computation: it completes, and its result
    satisfies [Q]. *)
Definition returns {A : Type} (m : M A) (Q : A → Prop) : Prop :=
  match out m with
  | Done a => Q a
  | _ => False
  end.

(** Partial correctness: if the computation completes, its result
    satisfies [Q]. *)
Definition ensures {A : Type} (m : M A) (Q : A → Prop) : Prop :=
  match out m with
  | Done a => Q a
  | _ => True
  end.

(** The computation fails no assertion: it completes with a result that
    satisfies [Q], or it has no defined behaviour and [U] holds. *)
Definition completes_or_undefined {A : Type} (m : M A) (Q : A → Prop)
    (U : Prop) : Prop :=
  match out m with
  | Done a => Q a
  | AssertionFailed _ => False
  | Undefined => U
  end.

(** The only assertion failures a computation can end in are those whose
    message satisfies [P]. *)
Definition may_abort_only {A : Type} (P : string → Prop) (m : M A) : Prop :=
  ∀ msg, out m = AssertionFailed msg → P msg.

(** A bounded [for] loop: [n] iterations, the counter starts at [i] and
    moves by [next]. *)
Fixpoint for_loop {S : Type} (n : nat) (i : Z) (next : Z → Z)
    (body : Z → S → M S) (s : S) : M S :=
  match n with
  | O => mret s
  | Datatypes.S n' => s' ← body i s; for_loop n' (next i) next body s'
  end.

(** ** Machine integers *)

Definition SIZE_MAX : Z := 2 ^ 64 - 1.
Definition PTRDIFF_MAX : Z := 2 ^ 63 - 1.

(** Arithmetic on [size_t] is modulo 2^64. *)
Definition size_t_wrap (z : Z) : Z := z mod 2 ^ 64.

(** [static_cast<ssize_t>] of a 64-bit value. *)
Definition ssize_t_wrap (z : Z) : Z := (z + 2 ^ 63) mod 2 ^ 64 - 2 ^ 63.

(** [CAPACITY] is a template argument of type [size_t]. *)
Definition valid_capacity (CAPACITY : Z) : Prop := 0 ≤ CAPACITY ≤ SIZE_MAX.

(** ** What the container needs to know about its element type *)

Class ElementType (Element : Type) : Type := {
  (** [Element{}] *)
  Element_default : Element;
  (** the value an object is left with after it was the source of a move
      construction or a move assignment *)
  moved_from : Element → Element;
  (** [std::is_trivially_default_constructible_v<Element>] *)
  is_trivially_default_constructible : bool;
  (** [std::is_trivially_destructible_v<Element>] *)
  is_trivially_destructible : bool;
}.

(** The assertion messages of the source. *)
Definition msg_size_le_capacity : string :=
  "Size of vector must be less than or equal to the capacity.".
Definition msg_size_lt_capacity : string := "Size may not exceed capacity.".
Definition msg_at_least_one : string :=
  "Vector must contain at least one element.".
Definition msg_not_empty : string := "Vector cannot be empty.".
Definition msg_count : string :=
  "Count exceeds maximum capacity of static vector.".
Definition msg_reserve : string :=
  "Reserved capacity must be less than CAPACITY.".
Definition msg_invalid_iterator : string := "Invalid iterator".
Definition msg_invalid_iterator_pair : string := "Invalid iterator pair".
Definition msg_nullptr : string := "ReverseIterator cannot point to nullptr.".

Section StaticVector.

Context {Element : Type} `{ElementType Element}.

(** [true] when the translation unit is compiled with [-DNDEBUG]. *)
Variable NDEBUG : bool.

Definition assert (cond : bool) (msg : string) : M unit :=
  if NDEBUG then mret ()
  else Run [Check msg cond] (if cond then Done () else AssertionFailed msg).

(** ** detail::UninitializedArray *)

Inductive slot : Type :=
| Raw                (* storage in which no object lives *)
| Obj (e : Element). (* a constructed object holding [e] *)

Definition constructor_and_destructor_are_cheap : bool :=
  is_trivially_default_constructible && is_trivially_destructible.

(** [m_storage{}]: an array of value-initialised elements when the element
    type is cheap, an array of bytes otherwise. *)
Definition UninitializedArray (CAPACITY : Z) : list slot :=
  replicate (Z.to_nat CAPACITY)
    (if constructor_and_destructor_are_cheap then Obj Element_default else Raw).

(** The slot at [data() + i], if that address is inside the storage. *)
Definition slot_at (st : list slot) (i : Z) : option slot :=
  if 0 <=? i then st !! Z.to_nat i else None.

Definition set_slot (st : list slot) (i : Z) (s : slot) : list slot :=
  <[Z.to_nat i := s]> st.

(** Reading the object at [data() + i]. *)
Definition load (st : list slot) (i : Z) : M Element :=
  match slot_at st i with
  | Some (Obj e) => mret e
  | _ => undefined
  end.

(** [new (data() + i) Element(e)] *)
Definition construct_at (st : list slot) (i : Z) (e : Element) : M (list slot) :=
  match slot_at st i with
  | Some _ => mret (set_slot st i (Obj e))
  | None => undefined
  end.

(** [std::destroy_at(data() + i)]: runs the destructor, which for a
    trivially destructible type does nothing. *)
Definition destroy_at (st : list slot) (i : Z) : M (list slot) :=
  match slot_at st i with
  | Some (Obj _) =>
      mret (if is_trivially_destructible then st else set_slot st i Raw)
  | Some Raw => if is_trivially_destructible then mret st else undefined
  | None => undefined
  end.

(** [data()[i] = e]: assignment to an object that must exist. *)
Definition assign_at (st : list slot) (i : Z) (e : Element) : M (list slot) :=
  match slot_at st i with
  | Some (Obj _) => mret (set_slot st i (Obj e))
  | _ => undefined
  end.

(** [std::move(data()[i])] consumed by a move constructor or a move
    assignment: yields the value and leaves the moved-from object. *)
Definition move_from (st : list slot) (i : Z) : M (Element * list slot) :=
  match slot_at st i with
  | Some (Obj e) => mret (e, set_slot st i (Obj (moved_from e)))
  | _ => undefined
  end.

(** [data()[dst] = std::move(data()[src])], for two different slots *)
Definition move_assign_at (st : list slot) (dst src : Z) : M (list slot) :=
  '(e, st1) ← move_from st src;
  assign_at st1 dst e.

(** ** StaticVector *)

Record StaticVector : Type := {
  m_storage : list slot;
  m_size : Z;
}.

(** [constexpr StaticVector() noexcept = default;] *)
Definition StaticVector_default (CAPACITY : Z) : StaticVector :=
  {| m_storage := UninitializedArray CAPACITY; m_size := 0 |}.

Definition size (v : StaticVector) : Z := m_size v.
Definition empty (v : StaticVector) : bool := m_size v =? 0.
Definition max_size (CAPACITY : Z) (v : StaticVector) : Z := CAPACITY.
Definition capacity (CAPACITY : Z) (v : StaticVector) : Z := CAPACITY.

Definition reserve (CAPACITY : Z) (reserve_capacity : Z) (v : StaticVector)
    : M StaticVector :=
  _ ← assert (reserve_capacity <=? CAPACITY) msg_reserve;
  mret v.

Definition shrink_to_fit (v : StaticVector) : M StaticVector := mret v.

(** [operator[]] used as an rvalue. *)
Definition index (v : StaticVector) (idx : Z) : M Element :=
  load (m_storage v) idx.

(** [operator[](idx) = e] *)
Definition index_assign (v : StaticVector) (idx : Z) (e : Element)
    : M StaticVector :=
  st ← assign_at (m_storage v) idx e;
  mret {| m_storage := st; m_size := m_size v |}.

(** *** Reference parameters

    [insert] and [assign] receive their value by reference and read it
    only after they have changed the storage.  The object a reference
    parameter names is either an object outside the storage of this
    container, of which only the value matters, or the object in the slot
    [data() + i] of this container (as in [v.insert(v.begin(), v[1])]). *)
Inductive reference : Type :=
| outside (e : Element)
| inside (i : Z).

(** [operator[](idx) = value] for a [const Element& value]: the copy
    assignment reads the object [value] names at this point. *)
Definition index_assign_from (v : StaticVector) (idx : Z) (value : reference)
    : M StaticVector :=
  match value with
  | outside e => index_assign v idx e
  | inside i => e ← index v i; index_assign v idx e
  end.

(** [operator[](idx) = std::move(value)] for an [Element&& value]: the move
    assignment leaves the object [value] names moved-from.  When that
    object is the one at [idx] itself the assignment is a self-move, after
    which the object is a moved-from one (an [int] keeps its value, a
    [std::string] is left empty). *)
Definition index_move_assign_from (v : StaticVector) (idx : Z)
    (value : reference) : M StaticVector :=
  match value with
  | outside e => index_assign v idx e
  | inside i =>
      st ← (if decide (i = idx) then snd <$> move_from (m_storage v) i
            else move_assign_at (m_storage v) idx i);
      mret {| m_storage := st; m_size := m_size v |}
  end.

(** Iterators are offsets from [data()]. *)
Definition data (v : StaticVector) : Z := 0.
Definition begin_ (v : StaticVector) : Z := 0.
Definition cbegin (v : StaticVector) : Z := 0.
Definition end_ (v : StaticVector) : Z := m_size v.
Definition cend (v : StaticVector) : Z := m_size v.

Definition front (v : StaticVector) : M Element :=
  _ ← assert (0 <? m_size v) msg_at_least_one;
  index v 0.

Definition back (v : StaticVector) : M Element :=
  _ ← assert (0 <? m_size v) msg_at_least_one;
  index v (size_t_wrap (m_size v - 1)).

Definition clear (v : StaticVector) : M StaticVector :=
  st ← (if negb is_trivially_destructible then
          for_loop (Z.to_nat (m_size v)) 0 Z.succ
            (λ i st, destroy_at st i) (m_storage v)
        else mret (m_storage v));
  mret {| m_storage := st; m_size := 0 |}.

(** [~StaticVector()]: the storage as the destructor leaves it. *)
Definition StaticVector_destructor (v : StaticVector) : M (list slot) :=
  if negb is_trivially_destructible then
    for_loop (Z.to_nat (m_size v)) 0 Z.succ
      (λ i st, destroy_at st i) (m_storage v)
  else mret (m_storage v).

Definition push_back (CAPACITY : Z) (e : Element) (v : StaticVector)
    : M StaticVector :=
  _ ← assert (m_size v <? CAPACITY) msg_size_lt_capacity;
  st ← construct_at (m_storage v) (m_size v) e;
  mret {| m_storage := st; m_size := size_t_wrap (m_size v + 1) |}.

(** [emplace_back(args...)] has the body of [push_back]; [e] is the value
    of [Element(args...)]. *)
Definition emplace_back (CAPACITY : Z) (e : Element) (v : StaticVector)
    : M StaticVector :=
  push_back CAPACITY e v.

(** [push_back(value)] called with the reference parameter [value] of the
    caller.  The new object is created in the slot at the length; when
    [value] names the object in that very slot, the new-expression reuses
    the storage of that object before its initialiser [Element(value)]
    reads it ([basic.life]), which is a read of an object whose lifetime
    has ended. *)
Definition push_back_from (CAPACITY : Z) (value : reference) (v : StaticVector)
    : M StaticVector :=
  match value with
  | outside e => push_back CAPACITY e v
  | inside i =>
      _ ← assert (m_size v <? CAPACITY) msg_size_lt_capacity;
      e ← (if decide (i = m_size v) then undefined else load (m_storage v) i);
      st ← construct_at (m_storage v) (m_size v) e;
      mret {| m_storage := st; m_size := size_t_wrap (m_size v + 1) |}
  end.

Definition pop_back (v : StaticVector) : M (Element * StaticVector) :=
  _ ← assert (0 <? m_size v) msg_not_empty;
  let n := size_t_wrap (m_size v - 1) in
  '(tmp, st1) ← move_from (m_storage v) n;
  st2 ← destroy_at st1 n;
  mret (tmp, {| m_storage := st2; m_size := n |}).

Definition resize (CAPACITY : Z) (count : Z) (v : StaticVector)
    : M StaticVector :=
  _ ← assert (count <=? CAPACITY) msg_count;
  if m_size v <? count then
    let old_size := m_size v in
    for_loop (Z.to_nat (count - old_size)) old_size Z.succ
      (λ i w, index_assign w i Element_default)
      {| m_storage := m_storage v; m_size := count |}
  else mret {| m_storage := m_storage v; m_size := count |}.

(** The shifting loop of [insert]:
    [for (size_t i = m_size; i > idx; --i) data()[i] = std::move(data()[i - 1]);] *)
Definition shift_right (idx : Z) (v : StaticVector) : M StaticVector :=
  for_loop (Z.to_nat (m_size v - idx)) (m_size v) Z.pred
    (λ i w,
       st ← move_assign_at (m_storage w) i (size_t_wrap (i - 1));
       mret {| m_storage := st; m_size := m_size w |})
    v.

(** [insert(const_iterator pos, const Element& value)]: [value] is read
    after the shift. *)
Definition insert (CAPACITY : Z) (pos : Z) (value : reference)
    (v : StaticVector) : M (Z * StaticVector) :=
  _ ← assert (m_size v <? CAPACITY) msg_size_lt_capacity;
  let idx := pos - cbegin v in
  _ ← assert (0 <=? idx) msg_invalid_iterator;
  w ← shift_right (size_t_wrap idx) v;
  w' ← index_assign_from w (size_t_wrap idx) value;
  mret (pos, {| m_storage := m_storage w';
                m_size := size_t_wrap (m_size w' + 1) |}).

(** [insert(const_iterator pos, Element&& value)]: the same statements with
    a move assignment from [value] after the shift. *)
Definition insert_rvalue (CAPACITY : Z) (pos : Z) (value : reference)
    (v : StaticVector) : M (Z * StaticVector) :=
  _ ← assert (m_size v <? CAPACITY) msg_size_lt_capacity;
  let idx := pos - cbegin v in
  _ ← assert (0 <=? idx) msg_invalid_iterator;
  w ← shift_right (size_t_wrap idx) v;
  w' ← index_move_assign_from w (size_t_wrap idx) value;
  mret (pos, {| m_storage := m_storage w';
                m_size := size_t_wrap (m_size w' + 1) |}).

(** [std::move(first, last, d_first)] of <algorithm>, on offsets into one
    storage.  The algorithm requires that [first, last) is a valid range
    and that [d_first] is not in it; otherwise its behaviour is undefined. *)
Definition std_move (st : list slot) (first last d_first : Z) : M (list slot) :=
  if (last <? first) || ((first <=? d_first) && (d_first <? last)) then
    undefined
  else
    for_loop (Z.to_nat (last - first)) first Z.succ
      (λ i st, move_assign_at st (d_first + (i - first)) i) st.

(** [data()[dst] = data()[src]]: copy assignment between two slots *)
Definition copy_assign_at (st : list slot) (dst src : Z) : M (list slot) :=
  e ← load st src;
  assign_at st dst e.

(** [std::move(first, last, d_first)] with [first] and [last] of type
    [const Element*]: [std::move] of a const object is a const rvalue, for
    which the assignment to the destination element is the copy
    assignment; the source objects are left as they are. *)
Definition std_move_const (st : list slot) (first last d_first : Z)
    : M (list slot) :=
  if (last <? first) || ((first <=? d_first) && (d_first <? last)) then
    undefined
  else
    for_loop (Z.to_nat (last - first)) first Z.succ
      (λ i st, copy_assign_at st (d_first + (i - first)) i) st.

(** [erase(iterator first, iterator last)] *)
Definition erase (first last : Z) (v : StaticVector) : M (Z * StaticVector) :=
  st ← std_move (m_storage v) last (end_ v) first;
  let num_elems_removed := last - first in
  _ ← assert ((0 <=? num_elems_removed) &&
              (size_t_wrap num_elems_removed <=? m_size v))
        msg_invalid_iterator_pair;
  mret (first, {| m_storage := st;
                  m_size := size_t_wrap
                              (m_size v - size_t_wrap num_elems_removed) |}).

(** [erase(const_iterator first, const_iterator last)]: [non_const_first]
    is [begin() + (first - cbegin())]; the source range [last, cend()) of
    [std::move] is one of pointers to const. *)
Definition erase_const (first last : Z) (v : StaticVector)
    : M (Z * StaticVector) :=
  let non_const_first := begin_ v + (first - cbegin v) in
  st ← std_move_const (m_storage v) last (cend v) non_const_first;
  let num_elems_removed := last - first in
  _ ← assert ((0 <=? num_elems_removed) &&
              (size_t_wrap num_elems_removed <=? m_size v))
        msg_invalid_iterator_pair;
  mret (first, {| m_storage := st;
                  m_size := size_t_wrap
                              (m_size v - size_t_wrap num_elems_removed) |}).

(** [erase(iterator pos)] and [erase(const_iterator pos)] *)
Definition erase_at (pos : Z) (v : StaticVector) : M (Z * StaticVector) :=
  erase pos (pos + 1) v.
Definition erase_const_at (pos : Z) (v : StaticVector) : M (Z * StaticVector) :=
  erase_const pos (pos + 1) v.

(** [count] times [push_back(value)] *)
Definition push_back_n (CAPACITY : Z) (count : Z) (value : Element)
    (v : StaticVector) : M StaticVector :=
  for_loop (Z.to_nat count) 0 Z.succ (λ _ w, push_back CAPACITY value w) v.

(** [push_back] of every element of a sequence, in order *)
Fixpoint push_back_all (CAPACITY : Z) (values : list Element) (v : StaticVector)
    : M StaticVector :=
  match values with
  | [] => mret v
  | e :: values' => w ← push_back CAPACITY e v; push_back_all CAPACITY values' w
  end.

(** [assign(size_t count, const Element& value)]: [value] is read by every
    [push_back], after [clear()]. *)
Definition assign (CAPACITY : Z) (count : Z) (value : reference)
    (v : StaticVector) : M StaticVector :=
  _ ← assert (count <=? CAPACITY) msg_size_le_capacity;
  w ← clear v;
  for_loop (Z.to_nat count) 0 Z.succ
    (λ _ w, push_back_from CAPACITY value w) w.

(** [StaticVector(size_t size, const Element& init)] *)
Definition StaticVector_fill (CAPACITY : Z) (size : Z) (init : Element)
    : M StaticVector :=
  push_back_n CAPACITY size init (StaticVector_default CAPACITY).

(** [StaticVector(std::initializer_list<Element> values)]; the elements of
    an initializer list are const, so [std::move(v)] copies. *)
Definition StaticVector_init_list (CAPACITY : Z) (values : list Element)
    : M StaticVector :=
  push_back_all CAPACITY values (StaticVector_default CAPACITY).

(** [for (const auto& e : other) push_back(e);] *)
Definition copy_elements (CAPACITY : Z) (other this : StaticVector)
    : M StaticVector :=
  for_loop (Z.to_nat (end_ other - begin_ other)) (begin_ other) Z.succ
    (λ i this, e ← load (m_storage other) i; push_back CAPACITY e this) this.

(** [for (auto& e : other) push_back(std::move(e));] yields the source as
    the loop leaves it, and the destination. *)
Definition move_elements (CAPACITY : Z) (other this : StaticVector)
    : M (StaticVector * StaticVector) :=
  for_loop (Z.to_nat (end_ other - begin_ other)) (begin_ other) Z.succ
    (λ i '(other, this),
       '(e, st) ← move_from (m_storage other) i;
       this' ← push_back CAPACITY e this;
       mret ({| m_storage := st; m_size := m_size other |}, this'))
    (other, this).

(** [StaticVector(const StaticVector& other)] *)
Definition StaticVector_copy (CAPACITY : Z) (other : StaticVector)
    : M StaticVector :=
  copy_elements CAPACITY other (StaticVector_default CAPACITY).

(** [if constexpr (OTHER_CAPACITY > CAPACITY) assert(other.size() <= CAPACITY ...)] *)
Definition cross_capacity_guard (CAPACITY OTHER_CAPACITY : Z)
    (other : StaticVector) : M unit :=
  if CAPACITY <? OTHER_CAPACITY then
    assert (size other <=? CAPACITY) msg_size_le_capacity
  else mret ().

(** The record of an evaluated [assert(other.size() <= CAPACITY && ...)]. *)
Definition size_check (CAPACITY : Z) (other : StaticVector) : check :=
  Check msg_size_le_capacity (size other <=? CAPACITY).

(** [StaticVector(const StaticVector<OtherElement, OTHER_CAPACITY>& other)],
    with [OtherElement] taken to be [Element]: [Element{e}] is a copy. *)
Definition StaticVector_copy_cross (CAPACITY OTHER_CAPACITY : Z)
    (other : StaticVector) : M StaticVector :=
  _ ← cross_capacity_guard CAPACITY OTHER_CAPACITY other;
  copy_elements CAPACITY other (StaticVector_default CAPACITY).

(** [StaticVector(StaticVector&& other)]: the source after the move, and
    the new container. *)
Definition StaticVector_move (CAPACITY : Z) (other : StaticVector)
    : M (StaticVector * StaticVector) :=
  move_elements CAPACITY other (StaticVector_default CAPACITY).

(** [StaticVector(StaticVector<OtherElement, OTHER_CAPACITY>&& other)] *)
Definition StaticVector_move_cross (CAPACITY OTHER_CAPACITY : Z)
    (other : StaticVector) : M (StaticVector * StaticVector) :=
  _ ← cross_capacity_guard CAPACITY OTHER_CAPACITY other;
  move_elements CAPACITY other (StaticVector_default CAPACITY).

(** [operator=(const StaticVector<OtherElement, OTHER_CAPACITY>& other)]:
    the two operands have different types and cannot be one object. *)
Definition copy_assign_cross (CAPACITY OTHER_CAPACITY : Z)
    (other this : StaticVector) : M StaticVector :=
  _ ← cross_capacity_guard CAPACITY OTHER_CAPACITY other;
  this1 ← clear this;
  copy_elements CAPACITY other this1.

(** [operator=(StaticVector<OtherElement, OTHER_CAPACITY>&& other)] *)
Definition move_assign_cross (CAPACITY OTHER_CAPACITY : Z)
    (other this : StaticVector) : M (StaticVector * StaticVector) :=
  _ ← cross_capacity_guard CAPACITY OTHER_CAPACITY other;
  this1 ← clear this;
  move_elements CAPACITY other this1.

(** *** Assignment between containers of one type

    [this] and [&other] are addresses of objects in a store, so that
    [this != &other] is a comparison of addresses. *)

Definition with_objects {A : Type} (σ : gmap nat StaticVector) (a b : nat)
    (k : StaticVector → StaticVector → M A) : M A :=
  match σ !! a, σ !! b with
  | Some x, Some y => k x y
  | _, _ => undefined
  end.

(** [operator=(const StaticVector& other)] *)
Definition copy_assign (CAPACITY : Z) (this other : nat)
    (σ : gmap nat StaticVector) : M (gmap nat StaticVector) :=
  if decide (this ≠ other) then
    with_objects σ this other (λ t o,
      t1 ← clear t;
      t2 ← copy_elements CAPACITY o t1;
      mret (<[this := t2]> σ))
  else mret σ.

(** [operator=(StaticVector&& other)] *)
Definition move_assign (CAPACITY : Z) (this other : nat)
    (σ : gmap nat StaticVector) : M (gmap nat StaticVector) :=
  if decide (this ≠ other) then
    with_objects σ this other (λ t o,
      t1 ← clear t;
      '(o', t2) ← move_elements CAPACITY o t1;
      mret (<[this := t2]> (<[other := o']> σ)))
  else mret σ.

(** ** detail::ReverseIterator and detail::ConstReverseIterator

    The two classes have the same members up to constness of the element;
    one model serves both.  (The [operator+(difference_type)] and
    [operator-(difference_type)] of [ConstReverseIterator] are written
    with [ReverseIterator] in their return statement; what is modelled is
    the version of [ReverseIterator].) *)

Inductive pointer : Type :=
| nullptr
| at_offset (off : Z). (* data() + off *)

#[global] Instance pointer_eq_dec : EqDecision pointer.
Proof. solve_decision. Defined.

Record ReverseIterator : Type := { m_ptr : pointer }.

(** Pointer arithmetic; there is none on a null pointer. *)
Definition ptr_add (p : pointer) (k : Z) : M pointer :=
  match p with
  | at_offset z => mret (at_offset (z + k))
  | nullptr => undefined
  end.

(** [p - q] on two pointers into one array. *)
Definition ptr_diff (p q : pointer) : M Z :=
  match p, q with
  | at_offset x, at_offset y => mret (x - y)
  | _, _ => undefined
  end.

(** The relational operators on two pointers into one array. *)
Definition ptr_compare (cmp : Z → Z → bool) (p q : pointer) : M bool :=
  match p, q with
  | at_offset x, at_offset y => mret (cmp x y)
  | _, _ => undefined
  end.

Definition rev_eq (a b : ReverseIterator) : bool :=
  bool_decide (m_ptr a = m_ptr b).
Definition rev_lt (a b : ReverseIterator) : M bool :=
  ptr_compare Z.ltb (m_ptr a) (m_ptr b).
Definition rev_le (a b : ReverseIterator) : M bool :=
  ptr_compare Z.leb (m_ptr a) (m_ptr b).
Definition rev_gt (a b : ReverseIterator) : M bool :=
  ptr_compare Z.gtb (m_ptr a) (m_ptr b).
Definition rev_ge (a b : ReverseIterator) : M bool :=
  ptr_compare Z.geb (m_ptr a) (m_ptr b).

(** [operator*] on an iterator into the storage of [v] *)
Definition rev_deref (v : StaticVector) (it : ReverseIterator) : M Element :=
  _ ← assert (bool_decide (m_ptr it ≠ nullptr)) msg_nullptr;
  match m_ptr it with
  | at_offset z => load (m_storage v) z
  | nullptr => undefined
  end.

(** [operator++] *)
Definition rev_incr (it : ReverseIterator) : M ReverseIterator :=
  p ← ptr_add (m_ptr it) (-1); mret {| m_ptr := p |}.
(** [operator--] *)
Definition rev_decr (it : ReverseIterator) : M ReverseIterator :=
  p ← ptr_add (m_ptr it) 1; mret {| m_ptr := p |}.
(** [operator+(difference_type)] and [operator-(difference_type)] *)
Definition rev_plus (it : ReverseIterator) (offset : Z) : M ReverseIterator :=
  p ← ptr_add (m_ptr it) (- offset); mret {| m_ptr := p |}.
Definition rev_minus (it : ReverseIterator) (offset : Z) : M ReverseIterator :=
  p ← ptr_add (m_ptr it) offset; mret {| m_ptr := p |}.
(** [operator+=(difference_type)] and [operator-=(difference_type)] *)
Definition rev_plus_assign (it : ReverseIterator) (offset : Z)
    : M ReverseIterator :=
  p ← ptr_add (m_ptr it) (- offset); mret {| m_ptr := p |}.
Definition rev_minus_assign (it : ReverseIterator) (offset : Z)
    : M ReverseIterator :=
  p ← ptr_add (m_ptr it) offset; mret {| m_ptr := p |}.
(** [operator+(difference_type offset, ReverseIterator iter)] *)
Definition rev_plus_left (offset : Z) (iter : ReverseIterator)
    : M ReverseIterator :=
  p ← ptr_add (m_ptr iter) (- offset); mret {| m_ptr := p |}.
(** [operator++(int)] and [operator--(int)]: the old value and the new one *)
Definition rev_post_incr (it : ReverseIterator)
    : M (ReverseIterator * ReverseIterator) :=
  p ← ptr_add (m_ptr it) (-1); mret (it, {| m_ptr := p |}).
Definition rev_post_decr (it : ReverseIterator)
    : M (ReverseIterator * ReverseIterator) :=
  p ← ptr_add (m_ptr it) 1; mret (it, {| m_ptr := p |}).
(** [operator-(const ReverseIterator& other)]: [other.m_ptr - m_ptr] *)
Definition rev_distance (it other : ReverseIterator) : M Z :=
  ptr_diff (m_ptr other) (m_ptr it).
(** [operator[](difference_type offset)] *)
Definition rev_index (v : StaticVector) (it : ReverseIterator) (offset : Z)
    : M Element :=
  p ← ptr_add (m_ptr it) (- offset);
  match p with
  | at_offset z => load (m_storage v) z
  | nullptr => undefined
  end.

Definition rbegin (v : StaticVector) : ReverseIterator :=
  {| m_ptr := at_offset (0 + ssize_t_wrap (m_size v) - 1) |}.
Definition crbegin (v : StaticVector) : ReverseIterator := rbegin v.
Definition rend (v : StaticVector) : ReverseIterator :=
  {| m_ptr := at_offset (0 - 1) |}.
Definition crend (v : StaticVector) : ReverseIterator := rend v.

(** The traversal
    [for (auto it = v.rbegin(); it != v.rend(); ++it)] over the elements the
    iterator refers to, collecting them; [None] when [fuel] iterations did
    not reach [rend()]. *)
Fixpoint reverse_walk (fuel : nat) (v : StaticVector) (it : ReverseIterator)
    : M (option (list Element)) :=
  if rev_eq it (rend v) then mret (Some [])
  else
    match fuel with
    | O => mret None
    | S fuel' =>
        e ← rev_deref v it;
        it' ← rev_incr it;
        rest ← reverse_walk fuel' v it';
        mret (option_map (cons e) rest)
    end.

Definition reverse_iteration (fuel : nat) (v : StaticVector)
    : M (option (list Element)) :=
  reverse_walk fuel v (rbegin v).

(** ** The data model of the container

    [represents v es]: the length is the length of [es] and slot [i] holds a
    constructed object with value [es !! i], for every [i] below the
    length. *)
Definition represents (v : StaticVector) (es : list Element) : Prop :=
  m_size v = Z.of_nat (length es) ∧
  ∀ (i : nat) e,
    es !! i = Some e → slot_at (m_storage v) (Z.of_nat i) = Some (Obj e).

(** The invariant of a container of capacity [CAPACITY]: the storage has
    exactly [CAPACITY] slots, the length is at most the capacity, and the
    slots below the length hold constructed objects. *)
Record wf (CAPACITY : Z) (v : StaticVector) : Prop := {
  wf_storage : Z.of_nat (length (m_storage v)) = CAPACITY;
  wf_size : 0 ≤ m_size v ≤ CAPACITY;
  wf_live : ∃ es, represents v es;
}.

Definition is_Obj (s : slot) : Prop := ∃ e, s = Obj e.

(** ** The mutating operations, as one type

    The value arguments are objects outside the storage of the container
    the operation is called on. *)

Inductive operation : Type :=
| PushBack (e : Element)
| EmplaceBack (e : Element)
| PopBack
| Resize (count : Z)
| Insert (pos : Z) (value : Element)
| InsertRvalue (pos : Z) (value : Element)
| Erase (first last : Z)
| EraseConst (first last : Z)
| EraseAt (pos : Z)
| EraseConstAt (pos : Z)
| Clear
| Assign (count : Z) (value : Element)
| Reserve (reserve_capacity : Z)
| ShrinkToFit
| CopyAssignCross (OTHER_CAPACITY : Z) (other : StaticVector)
| MoveAssignCross (OTHER_CAPACITY : Z) (other : StaticVector).

Definition run (CAPACITY : Z) (op : operation) (v : StaticVector)
    : M StaticVector :=
  match op with
  | PushBack e => push_back CAPACITY e v
  | EmplaceBack e => emplace_back CAPACITY e v
  | PopBack => snd <$> pop_back v
  | Resize count => resize CAPACITY count v
  | Insert pos value => snd <$> insert CAPACITY pos (outside value) v
  | InsertRvalue pos value =>
      snd <$> insert_rvalue CAPACITY pos (outside value) v
  | Erase first last => snd <$> erase first last v
  | EraseConst first last => snd <$> erase_const first last v
  | EraseAt pos => snd <$> erase_at pos v
  | EraseConstAt pos => snd <$> erase_const_at pos v
  | Clear => clear v
  | Assign count value => assign CAPACITY count (outside value) v
  | Reserve n => reserve CAPACITY n v
  | ShrinkToFit => shrink_to_fit v
  | CopyAssignCross OC other => copy_assign_cross CAPACITY OC other v
  | MoveAssignCross OC other => snd <$> move_assign_cross CAPACITY OC other v
  end.

(** The precondition column of the operations. *)
Definition precondition (CAPACITY : Z) (op : operation) (v : StaticVector)
    : Prop :=
  match op with
  | PushBack _ | EmplaceBack _ => m_size v < CAPACITY
  | PopBack => 0 < m_size v
  | Resize count => 0 ≤ count ≤ CAPACITY
  | Insert pos _ | InsertRvalue pos _ =>
      m_size v < CAPACITY ∧ begin_ v ≤ pos ≤ end_ v
  | Erase first last | EraseConst first last =>
      begin_ v ≤ first ∧ first ≤ last ∧ last ≤ end_ v
  | EraseAt pos | EraseConstAt pos => begin_ v ≤ pos < end_ v
  | Clear | ShrinkToFit => True
  | Assign count _ => 0 ≤ count ≤ CAPACITY
  | Reserve n => n ≤ CAPACITY
  | CopyAssignCross OC other | MoveAssignCross OC other =>
      wf OC other ∧ m_size other ≤ CAPACITY
  end.

(** The calls that satisfy the precondition column and still have no
    defined behaviour: [resize] and [insert] assign to the slots they add,
    in which no object may have been constructed, and [erase] of an empty
    range before the end hands [std::move] a destination inside its source
    range. *)
Definition undefined_case (op : operation) (v : StaticVector) : Prop :=
  match op with
  | Resize count =>
      ∃ i, m_size v ≤ i < count ∧ slot_at (m_storage v) i = Some Raw
  | Insert _ _ | InsertRvalue _ _ =>
      slot_at (m_storage v) (m_size v) = Some Raw
  | Erase first last | EraseConst first last => first = last ∧ last < end_ v
  | _ => False
  end.

(** [constexpr ReverseIterator() noexcept = default;]: [m_ptr = nullptr] *)
Definition ReverseIterator_default : ReverseIterator := {| m_ptr := nullptr |}.


(** The traversal [for (auto it = v.begin(); it != v.end(); ++it)] over the
    elements the iterator refers to, collecting them; [None] when [fuel]
    iterations did not reach [end()]. *)
Fixpoint forward_walk (fuel : nat) (v : StaticVector) (it : Z)
    : M (option (list Element)) :=
  if it =? end_ v then mret (Some [])
  else
    match fuel with
    | O => mret None
    | S fuel' =>
        e ← load (m_storage v) it;
        rest ← forward_walk fuel' v (it + 1);
        mret (option_map (cons e) rest)
    end.

Definition forward_iteration (fuel : nat) (v : StaticVector)
    : M (option (list Element)) :=
  forward_walk fuel v (begin_ v).

(** Every slot of the storage holds an object. *)
Definition all_constructed (v : StaticVector) : Prop :=
  Forall is_Obj (m_storage v).

(** No slot at or beyond the length holds an object. *)
Definition no_object_beyond_length (v : StaticVector) : Prop :=
  ∀ i, m_size v ≤ i → slot_at (m_storage v) i ≠ None →
       slot_at (m_storage v) i = Some Raw.

(** The operations that end the lifetime of every element they remove. *)
Definition destroys_what_it_removes (op : operation) : bool :=
  match op with
  | PushBack _ | EmplaceBack _ | PopBack | Clear | Assign _ _
  | Reserve _ | ShrinkToFit => true
  | _ => false
  end.

End StaticVector.

Arguments slot : clear implicits.
Arguments reference : clear implicits.
Arguments StaticVector : clear implicits.
Arguments ReverseIterator : clear implicits.

(** ** irl/parameters/compiler_type.h

    The header is one conditional group of the preprocessor.  A group is a
    list of branches, each a condition and the macros its text defines; the
    first branch whose condition holds is the one that is processed. *)

Inductive predefined_macro : Type :=
| INTEL_COMPILER       (* __INTEL_COMPILER *)
| INTEL_LLVM_COMPILER  (* __INTEL_LLVM_COMPILER *)
| NVCOMPILER           (* __NVCOMPILER *)
| GNUC.                (* __GNUC__ *)

Inductive compiler_macro : Type :=
| USING_INTEL_COMPILER
| USING_NVIDIA_COMPILER
| USING_GNU_COMPILER.

#[global] Instance compiler_macro_eq_dec : EqDecision compiler_macro.
Proof. solve_decision. Defined.

(** [#if c1 ... #elif c2 ... #elif c3 ... #endif] *)
Fixpoint conditional_group {A : Type} (branches : list (bool * list A))
    : list A :=
  match branches with
  | [] => []
  | (cond, text) :: rest => if cond then text else conditional_group rest
  end.

(** The macros the header defines, given which macros the compiler
    predefines. *)
Definition compiler_type_h (defined : predefined_macro → bool)
    : list compiler_macro :=
  conditional_group
    [ (defined INTEL_COMPILER || defined INTEL_LLVM_COMPILER,
       [USING_INTEL_COMPILER]);
      (defined NVCOMPILER, [USING_NVIDIA_COMPILER]);
      (defined GNUC, [USING_GNU_COMPILER]) ].

(** ** Two element types

    [int]: trivially default constructible and trivially destructible;
    moving an [int] copies it. *)
#[global] Instance int_ElementType : ElementType Z := {|
  Element_default := 0;
  moved_from := λ x, x;
  is_trivially_default_constructible := true;
  is_trivially_destructible := true;
|}.

(** [std::string]: neither trivially default constructible nor trivially
    destructible; a moved-from string is taken to be empty, as the common
    implementations leave it. *)
#[global] Instance string_ElementType : ElementType string := {|
  Element_default := EmptyString;
  moved_from := λ _, EmptyString;
  is_trivially_default_constructible := false;
  is_trivially_destructible := false;
|}.

(** ** Concrete containers *)

(** [StaticVector<int, 3>{1, 2, 3}] *)
Definition ints_123 : StaticVector Z :=
  {| m_storage := [Obj 1; Obj 2; Obj 3]; m_size := 3 |}.

(** [StaticVector<int, 3>{1, 3}] and [StaticVector<int, 3>{1, 2}] *)
Definition ints_13 : StaticVector Z :=
  {| m_storage := [Obj 1; Obj 3; Obj 0]; m_size := 2 |}.
Definition ints_12 : StaticVector Z :=
  {| m_storage := [Obj 1; Obj 2; Obj 0]; m_size := 2 |}.

(** [StaticVector<int, 2>{7}] *)
Definition ints_7 : StaticVector Z :=
  {| m_storage := [Obj 7; Obj 0]; m_size := 1 |}.

(** [StaticVector<std::string, 3>{"a", "b", "c"}] and
    [StaticVector<std::string, 3>{"a"}] *)
Definition strings_abc : StaticVector string :=
  {| m_storage := [Obj "a"; Obj "b"; Obj "c"]; m_size := 3 |}.
Definition strings_a : StaticVector string :=
  {| m_storage := [Obj "a"; Raw; Raw]; m_size := 1 |}.

(** A store with two [StaticVector<std::string, 3>] objects. *)
Definition two_strings_store : gmap nat (StaticVector string) :=
  {[ 0%nat := strings_a; 1%nat := strings_abc ]}.

(** * Properties *)

(** ** The monad *)

Section Monad.

Context {A B : Type}.
Implicit Types (m : M A) (f : A → M B).

Lemma out_bind m f :
  out (m ≫= f) =
  match out m with
  | Done a => out (f a)
  | AssertionFailed msg => AssertionFailed msg
  | Undefined => Undefined
  end.
Proof. unfold mbind, M_bind. by destruct (out m). Qed.

Lemma log_bind m f :
  log (m ≫= f) =
  log m ++ match out m with Done a => log (f a) | _ => [] end.
Proof.
  unfold mbind, M_bind. destruct (out m); simpl; by rewrite ?app_nil_r.
Qed.

Lemma out_fmap (g : A → B) m :
  out (g <$> m) =
  match out m with
  | Done a => Done (g a)
  | AssertionFailed msg => AssertionFailed msg
  | Undefined => Undefined
  end.
Proof. unfold fmap, M_fmap. rewrite out_bind. by destruct (out m). Qed.

Lemma returns_ret (a : A) (Q : A → Prop) : Q a → returns (mret a) Q.
Proof. done. Qed.

Lemma returns_bind m f (Q : B → Prop) :
  returns m (λ a, returns (f a) Q) → returns (m ≫= f) Q.
Proof. unfold returns. rewrite out_bind. by destruct (out m). Qed.

Lemma returns_fmap (g : A → B) m (Q : B → Prop) :
  returns m (λ a, Q (g a)) → returns (g <$> m) Q.
Proof. unfold returns. rewrite out_fmap. by destruct (out m). Qed.

Lemma returns_mono m (P Q : A → Prop) :
  returns m P → (∀ a, P a → Q a) → returns m Q.
Proof. unfold returns. destruct (out m); auto. Qed.

Lemma returns_Done m (Q : A → Prop) :
  returns m Q ↔ ∃ a, out m = Done a ∧ Q a.
Proof.
  unfold returns. destruct (out m) as [a|msg|]; split; try done;
    [by exists a | by intros (a' & [= <-] & HQ) | |];
    by intros (a' & [=] & HQ).
Qed.

End Monad.

(** The invariant rule of the bounded loop: [I k] holds before iteration
    [k], whose counter is [next] applied [k] times to [i]. *)
Lemma for_loop_returns {S : Type} (I : nat → S → Prop) (Q : S → Prop)
    n i next body (s : S) :
  I O s →
  (∀ k s, (k < n)%nat → I k s →
     returns (body (Nat.iter k next i) s) (I (Datatypes.S k))) →
  (∀ s, I n s → Q s) →
  returns (for_loop n i next body s) Q.
Proof.
  revert I i s. induction n as [|n IH]; intros I i s H0 Hstep Hend; simpl.
  - by apply Hend.
  - apply returns_bind.
    eapply returns_mono; [apply (Hstep O); [lia | done] |].
    intros s1 Hs1. apply (IH (λ k, I (Datatypes.S k))); [done | | done].
    intros k s2 Hk Hs2.
    replace (Nat.iter k next (next i)) with (Nat.iter (Datatypes.S k) next i)
      by (by rewrite Nat.iter_succ_r).
    apply Hstep; [lia | done].
Qed.

Lemma iter_succ (k : nat) (i : Z) : Nat.iter k Z.succ i = i + Z.of_nat k.
Proof. induction k as [|k IH]; simpl; [lia | rewrite IH; lia]. Qed.

Lemma iter_pred (k : nat) (i : Z) : Nat.iter k Z.pred i = i - Z.of_nat k.
Proof. induction k as [|k IH]; simpl; [lia | rewrite IH; lia]. Qed.

Lemma size_t_wrap_small z : 0 ≤ z ≤ SIZE_MAX → size_t_wrap z = z.
Proof.
  unfold SIZE_MAX, size_t_wrap. intros Hz. apply Z.mod_small. lia.
Qed.

Lemma ssize_t_wrap_small z : 0 ≤ z ≤ PTRDIFF_MAX → ssize_t_wrap z = z.
Proof.
  unfold PTRDIFF_MAX, ssize_t_wrap. intros Hz.
  rewrite Z.mod_small; lia.
Qed.

Section Proofs.

Context {Element : Type} `{ElementType Element}.
Variable NDEBUG : bool.
Implicit Types (st : list (slot Element)).
Implicit Types (v w other : StaticVector Element).
Implicit Types (e : Element) (es : list Element).

(** ** Assertions *)

Lemma returns_assert cond msg (Q : unit → Prop) :
  cond = true → Q () → returns (assert NDEBUG cond msg) Q.
Proof. intros -> HQ. unfold assert. by destruct NDEBUG. Qed.

Lemma out_assert_debug cond msg :
  NDEBUG = false →
  out (assert NDEBUG cond msg) =
  if cond then Done () else AssertionFailed msg.
Proof. intros ->. done. Qed.

(** ** Slots *)

Lemma slot_at_lookup st (i : nat) : slot_at st (Z.of_nat i) = st !! i.
Proof.
  unfold slot_at. rewrite Nat2Z.id.
  by destruct (Z.leb_spec 0 (Z.of_nat i)); [|lia].
Qed.

Lemma slot_at_Some st i s :
  slot_at st i = Some s → 0 ≤ i < Z.of_nat (length st).
Proof.
  unfold slot_at. destruct (Z.leb_spec 0 i); [|done].
  intros Hl%lookup_lt_Some. lia.
Qed.

Lemma slot_at_is_Some st i :
  0 ≤ i < Z.of_nat (length st) → is_Some (slot_at st i).
Proof.
  intros Hi. unfold slot_at. destruct (Z.leb_spec 0 i); [|lia].
  apply lookup_lt_is_Some. lia.
Qed.

Lemma slot_at_set_eq st i s :
  0 ≤ i < Z.of_nat (length st) → slot_at (set_slot st i s) i = Some s.
Proof.
  intros Hi. unfold slot_at, set_slot. destruct (Z.leb_spec 0 i); [|lia].
  apply list_lookup_insert_eq. lia.
Qed.

Lemma slot_at_set_ne st i j s :
  i ≠ j → 0 ≤ i → slot_at (set_slot st i s) j = slot_at st j.
Proof.
  intros Hne Hi. unfold slot_at, set_slot. destruct (Z.leb_spec 0 j); [|done].
  apply list_lookup_insert_ne. lia.
Qed.

Lemma length_set_slot st i s : length (set_slot st i s) = length st.
Proof. apply length_insert. Qed.

(** ** The primitive accesses *)

Lemma returns_load st i e (Q : Element → Prop) :
  slot_at st i = Some (Obj e) → Q e → returns (load st i) Q.
Proof. intros Hs HQ. unfold load. by rewrite Hs. Qed.

Lemma returns_construct_at st i e (Q : list (slot Element) → Prop) :
  0 ≤ i < Z.of_nat (length st) → Q (set_slot st i (Obj e)) →
  returns (construct_at st i e) Q.
Proof.
  intros Hi HQ. unfold construct_at.
  by destruct (slot_at_is_Some st i Hi) as [s ->].
Qed.

Lemma returns_assign_at st i e e0 (Q : list (slot Element) → Prop) :
  slot_at st i = Some (Obj e0) → Q (set_slot st i (Obj e)) →
  returns (assign_at st i e) Q.
Proof. intros Hs HQ. unfold assign_at. by rewrite Hs. Qed.

Lemma returns_move_from st i e (Q : Element * list (slot Element) → Prop) :
  slot_at st i = Some (Obj e) → Q (e, set_slot st i (Obj (moved_from e))) →
  returns (move_from st i) Q.
Proof. intros Hs HQ. unfold move_from. by rewrite Hs. Qed.

Lemma returns_move_assign_at st dst src e e0 (Q : list (slot Element) → Prop) :
  dst ≠ src →
  slot_at st src = Some (Obj e) → slot_at st dst = Some (Obj e0) →
  Q (set_slot (set_slot st src (Obj (moved_from e))) dst (Obj e)) →
  returns (move_assign_at st dst src) Q.
Proof.
  intros Hne Hsrc Hdst HQ. unfold move_assign_at.
  apply returns_bind. eapply returns_move_from; [done|]. simpl.
  eapply returns_assign_at; [|done].
  rewrite slot_at_set_ne; [eassumption | congruence |].
  apply slot_at_Some in Hsrc. lia.
Qed.

(** ** The invariant and the represented sequence *)

Lemma represents_inj v es1 es2 :
  represents v es1 → represents v es2 → es1 = es2.
Proof.
  intros [Hn1 H1] [Hn2 H2]. apply list_eq_same_length with (length es1);
    [lia | done |].
  intros i x y Hi Hx Hy. apply H1 in Hx. apply H2 in Hy. congruence.
Qed.

Lemma wf_default CAPACITY :
  valid_capacity CAPACITY →
  wf CAPACITY (StaticVector_default CAPACITY) ∧
  represents (StaticVector_default CAPACITY) [].
Proof.
  intros [Hc _].
  assert (represents (StaticVector_default CAPACITY) []) by (by split).
  split; [|done]. split; simpl; [|lia|by exists []].
  unfold UninitializedArray. rewrite length_replicate. lia.
Qed.

Lemma represents_snoc v es e :
  represents v es →
  0 ≤ m_size v < Z.of_nat (length (m_storage v)) →
  represents {| m_storage := set_slot (m_storage v) (m_size v) (Obj e);
                m_size := m_size v + 1 |} (es ++ [e]).
Proof.
  intros [Hn Hes] Hlt. split; simpl.
  - rewrite length_app. simpl. lia.
  - intros i x [Hx|[Hi Hx]]%lookup_app_Some.
    + rewrite slot_at_set_ne; [by apply Hes | | lia].
      apply lookup_lt_Some in Hx. lia.
    + assert (i = length es) as ->.
      { apply lookup_lt_Some in Hx. simpl in Hx. lia. }
      rewrite Nat.sub_diag in Hx. injection Hx as <-.
      rewrite <- Hn. by apply slot_at_set_eq.
Qed.

(** ** push_back *)

Lemma push_back_returns CAPACITY e v es :
  valid_capacity CAPACITY → wf CAPACITY v → represents v es →
  m_size v < CAPACITY →
  returns (push_back NDEBUG CAPACITY e v)
    (λ v', wf CAPACITY v' ∧ represents v' (es ++ [e]) ∧
           m_storage v' = set_slot (m_storage v) (m_size v) (Obj e)).
Proof.
  intros [Hc0 Hc] [Hst Hsz _] Hes Hlt. unfold push_back.
  apply returns_bind, returns_assert; [by apply Z.ltb_lt|].
  apply returns_bind, returns_construct_at; [lia|].
  apply returns_ret. rewrite size_t_wrap_small by lia.
  assert (represents
            {| m_storage := set_slot (m_storage v) (m_size v) (Obj e);
               m_size := m_size v + 1 |} (es ++ [e])) as Hrep.
  { apply represents_snoc; [done | lia]. }
  split; [|done]. split; simpl; [by rewrite length_set_slot | lia | eauto].
Qed.

Lemma push_back_all_returns CAPACITY vs v es :
  valid_capacity CAPACITY → wf CAPACITY v → represents v es →
  m_size v + Z.of_nat (length vs) ≤ CAPACITY →
  returns (push_back_all NDEBUG CAPACITY vs v)
    (λ v', wf CAPACITY v' ∧ represents v' (es ++ vs)).
Proof.
  intros Hc. revert v es.
  induction vs as [|x vs IH]; intros v es Hwf Hes Hlen; simpl in *.
  - apply returns_ret. by rewrite app_nil_r.
  - apply returns_bind.
    eapply returns_mono; [apply (push_back_returns CAPACITY x v es); auto; lia|].
    intros v' (Hwf' & Hes' & _). simpl.
    replace (es ++ x :: vs) with ((es ++ [x]) ++ vs) by (by rewrite <- app_assoc).
    apply IH; [done | done |].
    destruct Hes' as [-> _]. destruct Hes as [Hn _].
    rewrite length_app. simpl. lia.
Qed.


(** ** Reverse iteration *)

Lemma rbegin_offset v :
  0 ≤ m_size v ≤ PTRDIFF_MAX →
  rbegin v = {| m_ptr := at_offset (m_size v - 1) |}.
Proof.
  intros Hn. unfold rbegin. rewrite ssize_t_wrap_small by done.
  by rewrite Z.add_0_l.
Qed.

Lemma reverse_walk_returns v es (k fuel : nat) :
  represents v es → (k ≤ length es)%nat → (k ≤ fuel)%nat →
  returns
    (reverse_walk NDEBUG fuel v {| m_ptr := at_offset (Z.of_nat k - 1) |})
    (λ r, r = Some (reverse (take k es))).
Proof.
  intros [Hn Hes] Hk. revert fuel.
  induction k as [|k IH]; intros fuel Hfuel.
  - destruct fuel; by apply returns_ret.
  - destruct fuel as [|fuel]; [lia|]. simpl reverse_walk.
    unfold rev_eq, rend. simpl m_ptr.
    rewrite bool_decide_eq_false_2 by (intros [= Heq]; lia).
    destruct (lookup_lt_is_Some_2 es k) as [e He]; [lia|].
    apply returns_bind. unfold rev_deref. simpl m_ptr.
    apply returns_bind, returns_assert; [by apply bool_decide_eq_true_2|].
    replace (Z.of_nat (S k) - 1) with (Z.of_nat k) by lia.
    eapply returns_load; [by apply Hes|].
    apply returns_bind. unfold rev_incr, ptr_add. simpl m_ptr.
    apply returns_ret, returns_bind.
    eapply returns_mono; [apply IH; lia|].
    intros r ->. apply returns_ret. simpl.
    by rewrite (take_S_r es k e He), reverse_snoc.
Qed.

(** C8: the reverse begin cursor is at the slot of the last element, the
    reverse end cursor one slot before the first, and the traversal from
    the one to the other visits the elements of the container back to
    front, each once. *)
Theorem reverse_iteration_back_to_front CAPACITY v es :
  CAPACITY ≤ PTRDIFF_MAX → wf CAPACITY v → represents v es →
  rbegin v = {| m_ptr := at_offset (size v - 1) |} ∧
  rend v = {| m_ptr := at_offset (-1) |} ∧
  (∀ e, last es = Some e → out (rev_deref NDEBUG v (rbegin v)) = Done e) ∧
  ∀ fuel, (length es ≤ fuel)%nat →
    out (reverse_iteration NDEBUG fuel v) = Done (Some (reverse es)).
Proof.
  intros Hc [_ Hsz _] Hes.
  assert (rbegin v = {| m_ptr := at_offset (size v - 1) |}) as Hrb
    by (apply rbegin_offset; lia).
  split; [done|]. split; [done|]. destruct Hes as [Hn Hes]. split.
  - intros e He. rewrite Hrb. unfold rev_deref, size. simpl m_ptr.
    rewrite last_lookup in He. pose proof (lookup_lt_Some _ _ _ He) as Hlt.
    apply Hes in He.
    replace (Z.of_nat (Nat.pred (length es))) with (m_size v - 1) in He by lia.
    rewrite out_bind.
    replace (out (assert NDEBUG _ _)) with (Done (A := unit) ()).
    + unfold load. by rewrite He.
    + unfold assert. rewrite bool_decide_eq_true_2 by done.
      by destruct NDEBUG.
  - intros fuel Hfuel. unfold reverse_iteration. rewrite Hrb. unfold size.
    pose proof (reverse_walk_returns v es (length es) fuel) as Hwalk.
    rewrite Hn. apply returns_Done in Hwalk as (r & Hout & ->); [|done..].
    by rewrite Hout, firstn_all.
Qed.

(** Advancing a reverse iterator moves its address down, and the
    relational operators compare addresses: the iterator reached later
    compares less. *)
Lemma rev_lt_after_incr z (n : Z) :
  0 < n →
  returns (b ← rev_plus {| m_ptr := at_offset z |} n;
           lt ← rev_lt {| m_ptr := at_offset z |} b;
           gt ← rev_lt b {| m_ptr := at_offset z |};
           d ← rev_distance b {| m_ptr := at_offset z |};
           mret (lt, gt, d))
    (λ r, r = (false, true, n)).
Proof.
  intros Hn. unfold returns. simpl. f_equal; [f_equal|]; lia.
Qed.

(** ** clear *)

Lemma returns_destroy_at st i e (Q : list (slot Element) → Prop) :
  slot_at st i = Some (Obj e) →
  Q (if is_trivially_destructible then st else set_slot st i Raw) →
  returns (destroy_at st i) Q.
Proof. intros Hs HQ. unfold destroy_at. by rewrite Hs. Qed.

Lemma wf_slot CAPACITY v i :
  wf CAPACITY v → 0 ≤ i < m_size v →
  ∃ e, slot_at (m_storage v) i = Some (Obj e).
Proof.
  intros [_ _ (es & Hn & Hes)] Hi.
  destruct (lookup_lt_is_Some_2 es (Z.to_nat i)) as [e He]; [lia|].
  exists e. apply Hes in He. by rewrite Z2Nat.id in He by lia.
Qed.

Lemma clear_returns CAPACITY v :
  wf CAPACITY v →
  returns (clear v)
    (λ v', wf CAPACITY v' ∧ represents v' [] ∧ m_size v' = 0 ∧
           ∀ i, m_size v ≤ i → slot_at (m_storage v') i = slot_at (m_storage v) i).
Proof.
  intros Hwf. pose proof Hwf as [Hst Hsz _]. unfold clear.
  apply returns_bind.
  assert (∀ st, length st = length (m_storage v) →
            (∀ i, m_size v ≤ i → slot_at st i = slot_at (m_storage v) i) →
            returns (mret {| m_storage := st; m_size := 0 |})
              (λ v', wf CAPACITY v' ∧ represents v' [] ∧ m_size v' = 0 ∧
                 ∀ i, m_size v ≤ i →
                      slot_at (m_storage v') i = slot_at (m_storage v) i))
    as Hend.
  { intros st Hlen Hsame. apply returns_ret.
    assert (represents {| m_storage := st; m_size := 0 |} []) by (by split).
    split; [|done]. split; simpl; [lia | lia | by exists []]. }
  destruct is_trivially_destructible eqn:Htd; simpl.
  { apply returns_ret. by apply Hend. }
  apply (for_loop_returns
    (λ k st, length st = length (m_storage v) ∧
             ∀ i, Z.of_nat k ≤ i →
                  slot_at st i = slot_at (m_storage v) i)).
  - done.
  - intros k st Hk [Hlen Hsame]. rewrite iter_succ, Z.add_0_l.
    destruct (wf_slot CAPACITY v (Z.of_nat k) Hwf) as [e He]; [lia|].
    eapply returns_destroy_at; [by rewrite Hsame|]. rewrite Htd.
    split; [by rewrite length_set_slot|].
    intros i Hi. rewrite slot_at_set_ne by lia. apply Hsame. lia.
  - intros st [Hlen Hsame]. apply Hend; [done|].
    intros i Hi. apply Hsame. lia.
Qed.

(** ** Copying and moving the elements of another container *)

Lemma copy_elements_returns CAPACITY other v es ds :
  valid_capacity CAPACITY →
  represents other es → wf CAPACITY v → represents v ds →
  m_size v + m_size other ≤ CAPACITY →
  returns (copy_elements NDEBUG CAPACITY other v)
    (λ v', wf CAPACITY v' ∧ represents v' (ds ++ es)).
Proof.
  intros Hc [Hn Hes] Hwf Hds Hfit. unfold copy_elements, end_, begin_.
  rewrite Z.sub_0_r, Hn, Nat2Z.id.
  apply (for_loop_returns
    (λ k w, wf CAPACITY w ∧ represents w (ds ++ take k es))).
  - by rewrite app_nil_r.
  - intros k w Hk [Hw Hrep]. rewrite iter_succ, Z.add_0_l.
    destruct (lookup_lt_is_Some_2 es k Hk) as [e He].
    apply returns_bind. eapply returns_load; [by apply Hes|].
    eapply returns_mono; [apply (push_back_returns CAPACITY e w _ Hc Hw Hrep)|].
    + destruct Hrep as [-> _], Hds as [Hd _].
      rewrite length_app, length_take. lia.
    + intros w' (Hw' & Hrep' & _). split; [done|].
      by rewrite (take_S_r es k e He), app_assoc.
  - intros w [Hw Hrep]. by rewrite firstn_all in Hrep.
Qed.

Lemma move_elements_returns CAPACITY other v es ds :
  valid_capacity CAPACITY →
  represents other es → wf CAPACITY v → represents v ds →
  m_size v + m_size other ≤ CAPACITY →
  returns (move_elements NDEBUG CAPACITY other v)
    (λ r, m_size r.1 = m_size other ∧
          length (m_storage r.1) = length (m_storage other) ∧
          represents r.1 (moved_from <$> es) ∧
          wf CAPACITY r.2 ∧ represents r.2 (ds ++ es)).
Proof.
  intros Hc [Hn Hes] Hwf Hds Hfit. unfold move_elements, end_, begin_.
  rewrite Z.sub_0_r, Hn, Nat2Z.id.
  apply (for_loop_returns
    (λ k r, m_size r.1 = m_size other ∧
            length (m_storage r.1) = length (m_storage other) ∧
            (∀ (i : nat) e, es !! i = Some e →
               slot_at (m_storage r.1) (Z.of_nat i) =
               Some (Obj (if decide (i < k)%nat then moved_from e else e))) ∧
            wf CAPACITY r.2 ∧ represents r.2 (ds ++ take k es))).
  - simpl. rewrite app_nil_r.
    split_and!; try done;
      intros i e He; rewrite decide_False by lia; by apply Hes.
  - intros k [o w] Hk (Ho & Hlen & Hsrc & Hw & Hrep). simpl in *.
    rewrite iter_succ, Z.add_0_l.
    destruct (lookup_lt_is_Some_2 es k Hk) as [e He].
    apply returns_bind. eapply returns_move_from.
    { rewrite (Hsrc k e He). by rewrite decide_False by lia. }
    simpl. apply returns_bind.
    eapply returns_mono; [apply (push_back_returns CAPACITY e w _ Hc Hw Hrep)|].
    + destruct Hrep as [-> _], Hds as [Hd _].
      rewrite length_app, length_take. lia.
    + intros w' (Hw' & Hrep' & _). apply returns_ret. simpl.
      split; [done|]. split; [by rewrite length_set_slot|].
      split; [|split; [done|]].
      * intros i x Hx. destruct (decide (i = k)) as [->|Hne].
        -- rewrite slot_at_set_eq.
           ++ rewrite decide_True by lia. congruence.
           ++ specialize (Hsrc k e He). apply slot_at_Some in Hsrc. lia.
        -- rewrite slot_at_set_ne by lia. rewrite (Hsrc i x Hx).
           do 2 f_equal. repeat case_decide; try done; lia.
      * by rewrite (take_S_r es k e He), app_assoc.
  - intros [o w] (Ho & Hlen & Hsrc & Hw & Hrep). simpl in *.
    rewrite firstn_all in Hrep.
    split; [congruence|]. split; [done|]. split; [|done]. split.
    + rewrite length_fmap. congruence.
    + intros i x Hx. rewrite list_lookup_fmap in Hx.
      destruct (es !! i) as [e|] eqn:He; [|done]. injection Hx as <-.
      rewrite (Hsrc i e He). rewrite decide_True; [done|].
      by apply lookup_lt_Some in He.
Qed.

(** C10: a move construction and a move assignment between containers of
    one capacity leave the length of the source as it was; its slots below
    the length still hold objects, the moved-from ones.  (When the two
    operands of the assignment are one object nothing is moved.) *)
Theorem move_keeps_source_length CAPACITY (s : StaticVector Element) es :
  valid_capacity CAPACITY → wf CAPACITY s → represents s es →
  (∃ s' d, out (StaticVector_move NDEBUG CAPACITY s) = Done (s', d) ∧
           size s' = size s ∧ represents s' (moved_from <$> es) ∧
           represents d es) ∧
  (∀ (σ : gmap nat (StaticVector Element)) (this other : nat) t,
     σ !! other = Some s → σ !! this = Some t → wf CAPACITY t →
     ∃ σ' s', out (move_assign NDEBUG CAPACITY this other σ) = Done σ' ∧
              σ' !! other = Some s' ∧ size s' = size s ∧
              represents s'
                (if decide (this = other) then es else moved_from <$> es)).
Proof.
  intros Hc Hs Hes. pose proof Hs as [_ Hsz _]. split.
  - destruct (wf_default CAPACITY Hc) as [Hwf0 Hrep0].
    pose proof (move_elements_returns CAPACITY s _ es [] Hc Hes Hwf0 Hrep0)
      as Hmv.
    apply returns_Done in Hmv as ([s' d] & Hout & Hn & _ & Hsrc & _ & Hd);
      [|simpl; lia].
    by exists s', d.
  - intros σ this other t Hso Hst Ht. unfold move_assign.
    destruct (decide (this = other)) as [->|Hne].
    + rewrite decide_False by (by intros []). by exists σ, s.
    + rewrite decide_True by done. unfold with_objects. rewrite Hst, Hso.
      pose proof (clear_returns CAPACITY t Ht) as Hcl.
      apply returns_Done in Hcl as (t1 & Hout1 & Ht1 & Hrep1 & Hn1 & _).
      pose proof (move_elements_returns CAPACITY s t1 es [] Hc Hes Ht1 Hrep1)
        as Hmv.
      apply returns_Done in Hmv as ([s' t2] & Hout & Hn & _ & Hsrc & _);
        [|lia].
      exists (<[this := t2]> (<[other := s']> σ)), s'.
      rewrite !out_bind, Hout1, out_bind, Hout. simpl.
      rewrite lookup_insert_ne by done. by rewrite lookup_insert_eq.
Qed.

(** ** Which assertions an operation evaluates *)

Lemma checks_bind {A B : Type} (P : check → Prop) (m : M A) (f : A → M B) :
  Forall P (log m) → (∀ a, Forall P (log (f a))) → Forall P (log (m ≫= f)).
Proof.
  intros Hm Hf. rewrite log_bind. apply Forall_app. split; [done|].
  destruct (out m); [apply Hf | constructor..].
Qed.

Lemma checks_for_loop {S : Type} (P : check → Prop) n i next body (s : S) :
  (∀ i s, Forall P (log (body i s))) →
  Forall P (log (for_loop n i next body s)).
Proof.
  intros Hbody. revert i s. induction n as [|n IH]; intros i s; simpl.
  - constructor.
  - apply checks_bind; [apply Hbody | intros s'; apply IH].
Qed.

Lemma log_load st i : log (load st i) = [].
Proof. unfold load. by destruct (slot_at st i) as [[]|]. Qed.

Lemma log_move_from st i : log (move_from st i) = [].
Proof. unfold move_from. by destruct (slot_at st i) as [[]|]. Qed.

Lemma log_construct_at st i e : log (construct_at st i e) = [].
Proof. unfold construct_at. by destruct (slot_at st i). Qed.

Lemma log_destroy_at st i : log (destroy_at st i) = [].
Proof.
  unfold destroy_at.
  by destruct (slot_at st i) as [[]|], is_trivially_destructible.
Qed.

Lemma checks_assert (P : check → Prop) cond msg :
  P (Check msg cond) → Forall P (log (assert NDEBUG cond msg)).
Proof. intros HP. unfold assert. destruct NDEBUG; repeat constructor; done. Qed.

(** [push_back] evaluates no assertion but its own. *)
Lemma checks_push_back CAPACITY e v :
  Forall (λ c, check_msg c = msg_size_lt_capacity)
    (log (push_back NDEBUG CAPACITY e v)).
Proof.
  unfold push_back. apply checks_bind; [by apply checks_assert|].
  intros _. apply checks_bind; [by rewrite log_construct_at|].
  intros st. constructor.
Qed.

Lemma log_bind_nil {A B : Type} (m : M A) (f : A → M B) :
  log m = [] → (∀ a, log (f a) = []) → log (m ≫= f) = [].
Proof.
  intros Hm Hf. rewrite log_bind, Hm. simpl.
  destruct (out m); [apply Hf | done..].
Qed.

Lemma log_for_loop_nil {S : Type} n i next body (s : S) :
  (∀ i s, log (body i s) = []) → log (for_loop n i next body s) = [].
Proof.
  intros Hbody. revert i s. induction n as [|n IH]; intros i s; simpl; [done|].
  apply log_bind_nil; [apply Hbody | intros s'; apply IH].
Qed.

Lemma log_clear v : log (clear v) = [].
Proof.
  unfold clear. apply log_bind_nil; [|done].
  destruct is_trivially_destructible; simpl; [done|].
  apply log_for_loop_nil. intros i st. apply log_destroy_at.
Qed.

Lemma checks_copy_elements CAPACITY other v :
  Forall (λ c, check_msg c = msg_size_lt_capacity)
    (log (copy_elements NDEBUG CAPACITY other v)).
Proof.
  apply checks_for_loop. intros i w.
  apply checks_bind; [by rewrite log_load | intros e; apply checks_push_back].
Qed.

Lemma checks_move_elements CAPACITY other v :
  Forall (λ c, check_msg c = msg_size_lt_capacity)
    (log (move_elements NDEBUG CAPACITY other v)).
Proof.
  apply checks_for_loop. intros i [o w].
  apply checks_bind; [by rewrite log_move_from|]. intros [e st].
  apply checks_bind; [apply checks_push_back|]. intros w'. constructor.
Qed.

(** The assertion of the cross-capacity operations is compiled in exactly
    when the capacity of the source is the larger one. *)
Lemma guard_then_push_backs {A : Type} CAPACITY OTHER_CAPACITY other
    (rest : M A) :
  NDEBUG = false →
  Forall (λ c, check_msg c = msg_size_lt_capacity) (log rest) →
  (size_check CAPACITY other
     ∈ log (cross_capacity_guard NDEBUG CAPACITY OTHER_CAPACITY other
            ≫= λ _, rest)
   ↔ CAPACITY < OTHER_CAPACITY) ∧
  (OTHER_CAPACITY ≤ CAPACITY →
   Forall (λ c, check_msg c = msg_size_lt_capacity)
     (log (cross_capacity_guard NDEBUG CAPACITY OTHER_CAPACITY other
           ≫= λ _, rest))).
Proof.
  intros Hdebug Hrest. unfold size_check, cross_capacity_guard, assert.
  rewrite Hdebug, log_bind.
  destruct (Z.ltb_spec CAPACITY OTHER_CAPACITY) as [Hlt|Hge]; simpl.
  - split; [|lia]. split; [done|]. intros _. apply elem_of_cons. by left.
  - split; [|done]. split; [|lia]. intros Hin.
    rewrite Forall_forall in Hrest. by apply Hrest in Hin.
Qed.

(** C1, as the code has it: with assertions enabled, the copy and move
    constructors and assignments from a container of another capacity
    evaluate the check [other.size() <= CAPACITY] if and only if the
    declared capacity of the source is larger than that of the
    destination; otherwise the only assertions they evaluate are those of
    [push_back]. *)
Theorem cross_capacity_check_iff_larger_source
    CAPACITY OTHER_CAPACITY (other this : StaticVector Element) :
  NDEBUG = false →
  ((size_check CAPACITY other
      ∈ log (StaticVector_copy_cross NDEBUG CAPACITY OTHER_CAPACITY other)
    ↔ CAPACITY < OTHER_CAPACITY) ∧
   (OTHER_CAPACITY ≤ CAPACITY →
    Forall (λ c, check_msg c = msg_size_lt_capacity)
      (log (StaticVector_copy_cross NDEBUG CAPACITY OTHER_CAPACITY other)))) ∧
  ((size_check CAPACITY other
      ∈ log (StaticVector_move_cross NDEBUG CAPACITY OTHER_CAPACITY other)
    ↔ CAPACITY < OTHER_CAPACITY) ∧
   (OTHER_CAPACITY ≤ CAPACITY →
    Forall (λ c, check_msg c = msg_size_lt_capacity)
      (log (StaticVector_move_cross NDEBUG CAPACITY OTHER_CAPACITY other)))) ∧
  ((size_check CAPACITY other
      ∈ log (copy_assign_cross NDEBUG CAPACITY OTHER_CAPACITY other this)
    ↔ CAPACITY < OTHER_CAPACITY) ∧
   (OTHER_CAPACITY ≤ CAPACITY →
    Forall (λ c, check_msg c = msg_size_lt_capacity)
      (log (copy_assign_cross NDEBUG CAPACITY OTHER_CAPACITY other this)))) ∧
  ((size_check CAPACITY other
      ∈ log (move_assign_cross NDEBUG CAPACITY OTHER_CAPACITY other this)
    ↔ CAPACITY < OTHER_CAPACITY) ∧
   (OTHER_CAPACITY ≤ CAPACITY →
    Forall (λ c, check_msg c = msg_size_lt_capacity)
      (log (move_assign_cross NDEBUG CAPACITY OTHER_CAPACITY other this)))).
Proof.
  intros Hdebug.
  split; [|split; [|split]]; apply guard_then_push_backs; try done.
  - apply checks_copy_elements.
  - apply checks_move_elements.
  - apply checks_bind; [by rewrite log_clear|].
    intros w. apply checks_copy_elements.
  - apply checks_bind; [by rewrite log_clear|].
    intros w. apply checks_move_elements.
Qed.

(** ** Which assertion failures an operation can end in *)

Lemma abort_ret {A : Type} (P : string → Prop) (a : A) :
  may_abort_only P (mret a).
Proof. by intros msg. Qed.

Lemma abort_undefined {A : Type} (P : string → Prop) :
  may_abort_only P (undefined (A := A)).
Proof. by intros msg. Qed.

Lemma abort_bind {A B : Type} (P : string → Prop) (m : M A) (f : A → M B) :
  may_abort_only P m → (∀ a, may_abort_only P (f a)) →
  may_abort_only P (m ≫= f).
Proof.
  intros Hm Hf msg. rewrite out_bind.
  destruct (out m) as [a|msg'|] eqn:Hout; [apply Hf | | done].
  intros [= <-]. by apply Hm.
Qed.

Lemma abort_for_loop {S : Type} (P : string → Prop) n i next body (s : S) :
  (∀ i s, may_abort_only P (body i s)) →
  may_abort_only P (for_loop n i next body s).
Proof.
  intros Hbody. revert i s. induction n as [|n IH]; intros i s; simpl.
  - apply abort_ret.
  - apply abort_bind; [apply Hbody | intros s'; apply IH].
Qed.

Lemma abort_weaken {A : Type} (P Q : string → Prop) (m : M A) :
  may_abort_only P m → (∀ msg, P msg → Q msg) → may_abort_only Q m.
Proof. intros Hm HPQ msg Hout. by apply HPQ, Hm. Qed.

Lemma abort_assert (P : string → Prop) cond msg :
  P msg → may_abort_only P (assert NDEBUG cond msg).
Proof.
  intros HP msg'. unfold assert.
  destruct NDEBUG, cond; simpl; try done. by intros [= <-].
Qed.

Lemma abort_load P st i : may_abort_only P (load st i).
Proof. unfold load. by destruct (slot_at st i) as [[]|]. Qed.

Lemma abort_construct_at P st i e : may_abort_only P (construct_at st i e).
Proof. unfold construct_at. by destruct (slot_at st i). Qed.

Lemma abort_destroy_at P st i : may_abort_only P (destroy_at st i).
Proof.
  unfold destroy_at.
  by destruct (slot_at st i) as [[]|], is_trivially_destructible.
Qed.

Lemma abort_assign_at P st i e : may_abort_only P (assign_at st i e).
Proof. unfold assign_at. by destruct (slot_at st i) as [[]|]. Qed.

Lemma abort_move_from P st i : may_abort_only P (move_from st i).
Proof. unfold move_from. by destruct (slot_at st i) as [[]|]. Qed.

Lemma abort_move_assign_at P st dst src :
  may_abort_only P (move_assign_at st dst src).
Proof.
  unfold move_assign_at. apply abort_bind; [apply abort_move_from|].
  intros [e st1]. apply abort_assign_at.
Qed.

Lemma abort_index_assign P v i e : may_abort_only P (index_assign v i e).
Proof.
  unfold index_assign. apply abort_bind; [apply abort_assign_at|].
  intros st'. apply abort_ret.
Qed.

Lemma abort_index_assign_from P v i (value : reference Element) :
  may_abort_only P (index_assign_from v i value).
Proof.
  destruct value as [e|j]; simpl; [apply abort_index_assign|].
  apply abort_bind; [apply abort_load | intros e; apply abort_index_assign].
Qed.

Lemma abort_index_move_assign_from P v i (value : reference Element) :
  may_abort_only P (index_move_assign_from v i value).
Proof.
  destruct value as [e|j]; simpl; [apply abort_index_assign|].
  apply abort_bind; [|intros st; apply abort_ret].
  case_decide; [|apply abort_move_assign_at].
  apply abort_bind; [apply abort_move_from | intros r; apply abort_ret].
Qed.

Lemma abort_clear P v : may_abort_only P (clear v).
Proof.
  unfold clear. apply abort_bind; [|intros st; apply abort_ret].
  destruct is_trivially_destructible; simpl; [apply abort_ret|].
  apply abort_for_loop. intros i st. apply abort_destroy_at.
Qed.

Lemma abort_shift_right P idx v : may_abort_only P (shift_right idx v).
Proof.
  unfold shift_right. apply abort_for_loop. intros i w.
  apply abort_bind; [apply abort_move_assign_at|].
  intros st. apply abort_ret.
Qed.

Lemma abort_push_back CAPACITY e v :
  may_abort_only (λ msg, msg = msg_size_lt_capacity)
    (push_back NDEBUG CAPACITY e v).
Proof.
  unfold push_back. apply abort_bind; [by apply abort_assert|]. intros _.
  apply abort_bind; [apply abort_construct_at|]. intros st. apply abort_ret.
Qed.

Lemma abort_push_back_n CAPACITY count e v :
  may_abort_only (λ msg, msg = msg_size_lt_capacity)
    (push_back_n NDEBUG CAPACITY count e v).
Proof. apply abort_for_loop. intros i w. apply abort_push_back. Qed.

Lemma abort_push_back_from CAPACITY (value : reference Element) v :
  may_abort_only (λ msg, msg = msg_size_lt_capacity)
    (push_back_from NDEBUG CAPACITY value v).
Proof.
  destruct value as [e|i]; simpl; [apply abort_push_back|].
  apply abort_bind; [by apply abort_assert|]. intros _.
  apply abort_bind;
    [case_decide; [apply abort_undefined | apply abort_load]|].
  intros e. apply abort_bind; [apply abort_construct_at|].
  intros st. apply abort_ret.
Qed.

Lemma abort_move_elements CAPACITY other v :
  may_abort_only (λ msg, msg = msg_size_lt_capacity)
    (move_elements NDEBUG CAPACITY other v).
Proof.
  apply abort_for_loop. intros i [o w].
  apply abort_bind; [apply abort_move_from|]. intros [e st].
  apply abort_bind; [apply abort_push_back | intros w'; apply abort_ret].
Qed.

Lemma abort_std_move P st first last d_first :
  may_abort_only P (std_move st first last d_first).
Proof.
  unfold std_move. destruct (_ || _); [apply abort_undefined|].
  apply abort_for_loop. intros i st'. apply abort_move_assign_at.
Qed.

Lemma abort_std_move_const P st first last d_first :
  may_abort_only P (std_move_const st first last d_first).
Proof.
  unfold std_move_const. destruct (_ || _); [apply abort_undefined|].
  apply abort_for_loop. intros i st'. unfold copy_assign_at.
  apply abort_bind; [apply abort_load | intros e; apply abort_assign_at].
Qed.

Lemma abort_copy_elements CAPACITY other v :
  may_abort_only (λ msg, msg = msg_size_lt_capacity)
    (copy_elements NDEBUG CAPACITY other v).
Proof.
  apply abort_for_loop. intros i w.
  apply abort_bind; [apply abort_load | intros e; apply abort_push_back].
Qed.

(** An assertion in front of a computation that cannot fail with the same
    message: the whole fails with that message exactly when the condition
    is false. *)
Lemma assert_decides {A : Type} cond msg (rest : M A) :
  NDEBUG = false →
  may_abort_only (λ msg', msg' ≠ msg) rest →
  out (assert NDEBUG cond msg ≫= λ _, rest) = AssertionFailed msg
  ↔ cond = false.
Proof.
  intros Hdebug Hrest. rewrite out_bind, out_assert_debug by done.
  destruct cond; simpl; [|done]. split; [|done].
  intros Hout. by apply Hrest in Hout.
Qed.

Lemma assert_passes {A : Type} cond msg (rest : M A) :
  cond = true → out (assert NDEBUG cond msg ≫= λ _, rest) = out rest.
Proof.
  intros ->. rewrite out_bind. unfold assert. by destruct NDEBUG.
Qed.

(** *** The operations one by one *)

Lemma push_back_asserts CAPACITY e v :
  NDEBUG = false →
  out (push_back NDEBUG CAPACITY e v) = AssertionFailed msg_size_lt_capacity
  ↔ ¬ m_size v < CAPACITY.
Proof.
  intros Hdebug. unfold push_back. rewrite assert_decides; [|done|].
  - rewrite Z.ltb_ge. lia.
  - apply abort_bind; [apply abort_construct_at | intros st; apply abort_ret].
Qed.

Lemma pop_back_asserts v :
  NDEBUG = false →
  out (pop_back NDEBUG v) = AssertionFailed msg_not_empty ↔ ¬ 0 < m_size v.
Proof.
  intros Hdebug. unfold pop_back. rewrite assert_decides; [|done|].
  - rewrite Z.ltb_ge. lia.
  - apply abort_bind; [apply abort_move_from|]. intros [tmp st1].
    apply abort_bind; [apply abort_destroy_at | intros st; apply abort_ret].
Qed.

Lemma front_asserts v :
  NDEBUG = false →
  out (front NDEBUG v) = AssertionFailed msg_at_least_one ↔ ¬ 0 < m_size v.
Proof.
  intros Hdebug. unfold front. rewrite assert_decides; [|done|].
  - rewrite Z.ltb_ge. lia.
  - apply abort_load.
Qed.

Lemma back_asserts v :
  NDEBUG = false →
  out (back NDEBUG v) = AssertionFailed msg_at_least_one ↔ ¬ 0 < m_size v.
Proof.
  intros Hdebug. unfold back. rewrite assert_decides; [|done|].
  - rewrite Z.ltb_ge. lia.
  - apply abort_load.
Qed.

Lemma resize_asserts CAPACITY count v :
  NDEBUG = false →
  out (resize NDEBUG CAPACITY count v) = AssertionFailed msg_count
  ↔ ¬ count ≤ CAPACITY.
Proof.
  intros Hdebug. unfold resize. rewrite assert_decides; [|done|].
  - rewrite Z.leb_gt. lia.
  - destruct (m_size v <? count); [|apply abort_ret].
    apply abort_for_loop. intros i w. apply abort_index_assign.
Qed.

Lemma assign_asserts CAPACITY count (value : reference Element) v :
  NDEBUG = false →
  out (assign NDEBUG CAPACITY count value v)
    = AssertionFailed msg_size_le_capacity
  ↔ ¬ count ≤ CAPACITY.
Proof.
  intros Hdebug. unfold assign. rewrite assert_decides; [|done|].
  - rewrite Z.leb_gt. lia.
  - apply abort_bind; [apply abort_clear|]. intros w.
    apply abort_for_loop. intros i w'.
    eapply abort_weaken; [apply abort_push_back_from|]. by intros msg ->.
Qed.

Lemma reserve_asserts CAPACITY n v :
  NDEBUG = false →
  out (reserve NDEBUG CAPACITY n v) = AssertionFailed msg_reserve
  ↔ ¬ n ≤ CAPACITY.
Proof.
  intros Hdebug. unfold reserve. rewrite assert_decides; [|done|].
  - rewrite Z.leb_gt. lia.
  - apply abort_ret.
Qed.

(** The two assertions in front of the body of [insert]. *)
Lemma position_asserts {A : Type} CAPACITY pos v (rest : M A) :
  NDEBUG = false → (∀ P, may_abort_only P rest) →
  (out (_ ← assert NDEBUG (m_size v <? CAPACITY) msg_size_lt_capacity;
        _ ← assert NDEBUG (0 <=? pos - cbegin v) msg_invalid_iterator;
        rest) = AssertionFailed msg_size_lt_capacity
   ↔ ¬ m_size v < CAPACITY) ∧
  (m_size v < CAPACITY →
   (out (_ ← assert NDEBUG (m_size v <? CAPACITY) msg_size_lt_capacity;
         _ ← assert NDEBUG (0 <=? pos - cbegin v) msg_invalid_iterator;
         rest) = AssertionFailed msg_invalid_iterator
    ↔ pos < cbegin v) ∧
   (cbegin v ≤ pos →
    ∀ msg, out (_ ← assert NDEBUG (m_size v <? CAPACITY) msg_size_lt_capacity;
                _ ← assert NDEBUG (0 <=? pos - cbegin v) msg_invalid_iterator;
                rest) ≠ AssertionFailed msg)).
Proof.
  intros Hdebug Hrest. split.
  - rewrite assert_decides; [|done|].
    + rewrite Z.ltb_ge. lia.
    + apply abort_bind; [by apply abort_assert | intros _; apply Hrest].
  - intros Hlt. rewrite assert_passes by (by apply Z.ltb_lt). split.
    + rewrite assert_decides; [|done|apply Hrest]. rewrite Z.leb_gt. lia.
    + intros Hpos msg. rewrite assert_passes by (apply Z.leb_le; lia).
      intros Hout. by apply (Hrest (λ _, False)) in Hout.
Qed.

Lemma insert_asserts CAPACITY pos (value : reference Element) v :
  NDEBUG = false →
  (out (insert NDEBUG CAPACITY pos value v)
     = AssertionFailed msg_size_lt_capacity
   ↔ ¬ m_size v < CAPACITY) ∧
  (m_size v < CAPACITY →
   (out (insert NDEBUG CAPACITY pos value v)
      = AssertionFailed msg_invalid_iterator
    ↔ pos < cbegin v) ∧
   (cbegin v ≤ pos → ∀ msg, out (insert NDEBUG CAPACITY pos value v)
                            ≠ AssertionFailed msg)).
Proof.
  intros Hdebug. apply position_asserts; [done|].
  intros P. apply abort_bind; [apply abort_shift_right|]. intros w.
  apply abort_bind; [apply abort_index_assign_from|]. intros w'.
  apply abort_ret.
Qed.

Lemma insert_rvalue_asserts CAPACITY pos (value : reference Element) v :
  NDEBUG = false →
  (out (insert_rvalue NDEBUG CAPACITY pos value v)
     = AssertionFailed msg_size_lt_capacity
   ↔ ¬ m_size v < CAPACITY) ∧
  (m_size v < CAPACITY →
   (out (insert_rvalue NDEBUG CAPACITY pos value v)
      = AssertionFailed msg_invalid_iterator
    ↔ pos < cbegin v) ∧
   (cbegin v ≤ pos → ∀ msg, out (insert_rvalue NDEBUG CAPACITY pos value v)
                            ≠ AssertionFailed msg)).
Proof.
  intros Hdebug. apply position_asserts; [done|].
  intros P. apply abort_bind; [apply abort_shift_right|]. intros w.
  apply abort_bind; [apply abort_index_move_assign_from|]. intros w'.
  apply abort_ret.
Qed.

(** [operator[]] contains no assertion. *)
Lemma index_no_assert v idx :
  log (index v idx) = [] ∧ ∀ msg, out (index v idx) ≠ AssertionFailed msg.
Proof.
  unfold index. split; [apply log_load|].
  intros msg Hout. by apply (abort_load (λ _, False)) in Hout.
Qed.

(** A source that is too long for the destination: the up-front check of
    a cross-capacity copy from a larger declared capacity. *)
Lemma copy_cross_asserts CAPACITY OTHER_CAPACITY other :
  NDEBUG = false → CAPACITY < OTHER_CAPACITY →
  out (StaticVector_copy_cross NDEBUG CAPACITY OTHER_CAPACITY other)
    = AssertionFailed msg_size_le_capacity
  ↔ ¬ size other ≤ CAPACITY.
Proof.
  intros Hdebug Hlt. unfold StaticVector_copy_cross, cross_capacity_guard.
  rewrite (proj2 (Z.ltb_lt _ _) Hlt). rewrite assert_decides; [|done|].
  - rewrite Z.leb_gt. lia.
  - eapply abort_weaken; [apply abort_copy_elements|]. by intros msg ->.
Qed.

(** A sequence that is too long for the capacity: the assertion of the
    [push_back] that would exceed it. *)
Lemma push_back_all_asserts CAPACITY vs v es :
  NDEBUG = false → valid_capacity CAPACITY →
  wf CAPACITY v → represents v es →
  CAPACITY < m_size v + Z.of_nat (length vs) →
  out (push_back_all NDEBUG CAPACITY vs v)
    = AssertionFailed msg_size_lt_capacity.
Proof.
  intros Hdebug Hc. revert v es.
  induction vs as [|x vs IH]; intros v es Hwf Hes Hlen; simpl in *.
  - destruct Hwf as [_ Hsz _]. lia.
  - rewrite out_bind. destruct (decide (m_size v < CAPACITY)) as [Hlt|Hge].
    + pose proof (push_back_returns CAPACITY x v es Hc Hwf Hes Hlt) as Hpb.
      apply returns_Done in Hpb as (w & -> & Hw & Hrep & _).
      apply (IH w (es ++ [x])); [done..|].
      destruct Hrep as [-> _], Hes as [Hn _]. rewrite length_app. simpl. lia.
    + by rewrite (proj2 (push_back_asserts CAPACITY x v Hdebug) Hge).
Qed.

(** ** Completion up to undefined behaviour *)

Lemma completes_of_returns {A : Type} (m : M A) (Q : A → Prop) (U : Prop) :
  returns m Q → completes_or_undefined m Q U.
Proof. unfold returns, completes_or_undefined. by destruct (out m). Qed.

Lemma completes_bind {A B : Type} (m : M A) (f : A → M B) (Q : B → Prop)
    (U : Prop) :
  completes_or_undefined m (λ a, completes_or_undefined (f a) Q U) U →
  completes_or_undefined (m ≫= f) Q U.
Proof. unfold completes_or_undefined. rewrite out_bind. by destruct (out m). Qed.

Lemma completes_fmap {A B : Type} (g : A → B) (m : M A) (Q : B → Prop)
    (U : Prop) :
  completes_or_undefined m (λ a, Q (g a)) U →
  completes_or_undefined (g <$> m) Q U.
Proof. unfold completes_or_undefined. rewrite out_fmap. by destruct (out m). Qed.

Lemma completes_mono {A : Type} (m : M A) (P Q : A → Prop) (U V : Prop) :
  completes_or_undefined m P U → (∀ a, P a → Q a) → (U → V) →
  completes_or_undefined m Q V.
Proof. unfold completes_or_undefined. destruct (out m); auto. Qed.

(** ** pop_back *)

Lemma wf_nonempty CAPACITY v :
  wf CAPACITY v → 0 < m_size v → ∃ es e, represents v (es ++ [e]).
Proof.
  intros [_ _ (es & Hn & Hes)] Hpos.
  destruct es as [|x es _] using rev_ind; [simpl in Hn; lia|].
  by exists es, x.
Qed.

Lemma represents_prefix v st es xs :
  represents v (es ++ xs) →
  (∀ i, 0 ≤ i < Z.of_nat (length es) → slot_at st i = slot_at (m_storage v) i) →
  represents {| m_storage := st; m_size := Z.of_nat (length es) |} es.
Proof.
  intros [Hn Hes] Hsame. split; [done|]. simpl. intros i e He.
  rewrite Hsame by (apply lookup_lt_Some in He; lia).
  apply Hes. by apply lookup_app_l_Some.
Qed.

Lemma pop_back_returns CAPACITY v es e :
  valid_capacity CAPACITY → wf CAPACITY v → represents v (es ++ [e]) →
  returns (pop_back NDEBUG v)
    (λ r, r.1 = e ∧ wf CAPACITY r.2 ∧ represents r.2 es ∧
          m_size r.2 = m_size v - 1).
Proof.
  intros [Hc0 Hc] [Hst Hsz _] Hrep. pose proof Hrep as [Hn Hes].
  rewrite length_app in Hn. simpl in Hn. unfold pop_back.
  apply returns_bind, returns_assert; [apply Z.ltb_lt; lia|].
  rewrite size_t_wrap_small by lia.
  assert (slot_at (m_storage v) (m_size v - 1) = Some (Obj e)) as Hlast.
  { replace (m_size v - 1) with (Z.of_nat (length es)) by lia.
    apply Hes. by rewrite lookup_app_r, Nat.sub_diag. }
  apply returns_bind. eapply returns_move_from; [done|]. simpl.
  apply returns_bind. eapply returns_destroy_at.
  { apply slot_at_set_eq. lia. }
  apply returns_ret. simpl.
  set (st2 := if is_trivially_destructible then _ else _).
  assert (length st2 = length (m_storage v)) as Hlen.
  { unfold st2. destruct is_trivially_destructible;
      by rewrite !length_set_slot. }
  assert (represents {| m_storage := st2; m_size := m_size v - 1 |} es)
    as Hrep'.
  { replace (m_size v - 1) with (Z.of_nat (length es)) by lia.
    apply (represents_prefix v st2 es [e] Hrep). intros i Hi. unfold st2.
    destruct is_trivially_destructible;
      rewrite !slot_at_set_ne by lia; done. }
  split; [done|]. split; [|done].
  split; simpl; [by rewrite Hlen | lia | by exists es].
Qed.

(** ** Repeated push_back, assign, and the constructors *)

Lemma push_back_n_returns CAPACITY count e v ds :
  valid_capacity CAPACITY → wf CAPACITY v → represents v ds →
  m_size v + count ≤ CAPACITY →
  returns (push_back_n NDEBUG CAPACITY count e v)
    (λ v', wf CAPACITY v' ∧
           represents v' (ds ++ replicate (Z.to_nat count) e)).
Proof.
  intros Hc Hwf Hds Hfit. unfold push_back_n.
  apply (for_loop_returns
    (λ k w, wf CAPACITY w ∧ represents w (ds ++ replicate k e))).
  - by rewrite app_nil_r.
  - intros k w Hk [Hw Hrep].
    eapply returns_mono; [apply (push_back_returns CAPACITY e w _ Hc Hw Hrep)|].
    + destruct Hrep as [-> _], Hds as [Hd _].
      rewrite length_app, length_replicate. lia.
    + intros w' (Hw' & Hrep' & _). split; [done|].
      by rewrite replicate_S_end, app_assoc.
  - done.
Qed.

Lemma assign_returns CAPACITY count e v :
  valid_capacity CAPACITY → wf CAPACITY v → 0 ≤ count ≤ CAPACITY →
  returns (assign NDEBUG CAPACITY count (outside e) v)
    (λ v', wf CAPACITY v' ∧ represents v' (replicate (Z.to_nat count) e)).
Proof.
  intros Hc Hwf Hcount. unfold assign.
  apply returns_bind, returns_assert; [apply Z.leb_le; lia|].
  apply returns_bind.
  eapply returns_mono; [by apply (clear_returns CAPACITY)|].
  intros w (Hw & Hrep & Hn & _). simpl.
  apply (push_back_n_returns CAPACITY count e w [] Hc Hw Hrep). lia.
Qed.

Lemma fill_returns CAPACITY count e :
  valid_capacity CAPACITY → 0 ≤ count ≤ CAPACITY →
  returns (StaticVector_fill NDEBUG CAPACITY count e)
    (λ v', wf CAPACITY v' ∧ represents v' (replicate (Z.to_nat count) e)).
Proof.
  intros Hc Hcount. destruct (wf_default CAPACITY Hc) as [Hwf Hrep].
  apply (push_back_n_returns CAPACITY count e _ [] Hc Hwf Hrep). simpl. lia.
Qed.

Lemma init_list_returns CAPACITY vs :
  valid_capacity CAPACITY → Z.of_nat (length vs) ≤ CAPACITY →
  returns (StaticVector_init_list NDEBUG CAPACITY vs)
    (λ v', wf CAPACITY v' ∧ represents v' vs).
Proof.
  intros Hc Hlen. destruct (wf_default CAPACITY Hc) as [Hwf Hrep].
  by apply (push_back_all_returns CAPACITY vs _ [] Hc Hwf Hrep).
Qed.

Lemma returns_guard CAPACITY OTHER_CAPACITY other (Q : unit → Prop) :
  m_size other ≤ CAPACITY → Q () →
  returns (cross_capacity_guard NDEBUG CAPACITY OTHER_CAPACITY other) Q.
Proof.
  intros Hfit HQ. unfold cross_capacity_guard.
  destruct (CAPACITY <? OTHER_CAPACITY); [|by apply returns_ret].
  apply returns_assert; [by apply Z.leb_le | done].
Qed.

Lemma copy_returns CAPACITY other es :
  valid_capacity CAPACITY → represents other es → m_size other ≤ CAPACITY →
  returns (StaticVector_copy NDEBUG CAPACITY other)
    (λ v', wf CAPACITY v' ∧ represents v' es).
Proof.
  intros Hc Hes Hfit. destruct (wf_default CAPACITY Hc) as [Hwf Hrep].
  apply (copy_elements_returns CAPACITY other _ es [] Hc Hes Hwf Hrep).
  simpl. lia.
Qed.

Lemma copy_cross_returns CAPACITY OTHER_CAPACITY other es :
  valid_capacity CAPACITY → represents other es → m_size other ≤ CAPACITY →
  returns (StaticVector_copy_cross NDEBUG CAPACITY OTHER_CAPACITY other)
    (λ v', wf CAPACITY v' ∧ represents v' es).
Proof.
  intros Hc Hes Hfit. unfold StaticVector_copy_cross.
  apply returns_bind, returns_guard; [done|].
  by apply copy_returns.
Qed.

Lemma move_returns CAPACITY other es :
  valid_capacity CAPACITY → represents other es → m_size other ≤ CAPACITY →
  returns (StaticVector_move NDEBUG CAPACITY other)
    (λ r, m_size r.1 = m_size other ∧
          length (m_storage r.1) = length (m_storage other) ∧
          represents r.1 (moved_from <$> es) ∧
          wf CAPACITY r.2 ∧ represents r.2 es).
Proof.
  intros Hc Hes Hfit. destruct (wf_default CAPACITY Hc) as [Hwf Hrep].
  apply (move_elements_returns CAPACITY other _ es [] Hc Hes Hwf Hrep).
  simpl. lia.
Qed.

Lemma move_cross_returns CAPACITY OTHER_CAPACITY other es :
  valid_capacity CAPACITY → represents other es → m_size other ≤ CAPACITY →
  returns (StaticVector_move_cross NDEBUG CAPACITY OTHER_CAPACITY other)
    (λ r, m_size r.1 = m_size other ∧
          length (m_storage r.1) = length (m_storage other) ∧
          represents r.1 (moved_from <$> es) ∧
          wf CAPACITY r.2 ∧ represents r.2 es).
Proof.
  intros Hc Hes Hfit. unfold StaticVector_move_cross.
  apply returns_bind, returns_guard; [done|].
  by apply move_returns.
Qed.

Lemma copy_assign_cross_returns CAPACITY OTHER_CAPACITY other v es :
  valid_capacity CAPACITY → wf CAPACITY v →
  represents other es → m_size other ≤ CAPACITY →
  returns (copy_assign_cross NDEBUG CAPACITY OTHER_CAPACITY other v)
    (λ v', wf CAPACITY v' ∧ represents v' es).
Proof.
  intros Hc Hwf Hes Hfit. unfold copy_assign_cross.
  apply returns_bind, returns_guard; [done|]. apply returns_bind.
  eapply returns_mono; [by apply (clear_returns CAPACITY)|].
  intros w (Hw & Hrep & Hn & _). simpl.
  apply (copy_elements_returns CAPACITY other w es [] Hc Hes Hw Hrep). lia.
Qed.

Lemma move_assign_cross_returns CAPACITY OTHER_CAPACITY other v es :
  valid_capacity CAPACITY → wf CAPACITY v →
  represents other es → m_size other ≤ CAPACITY →
  returns (move_assign_cross NDEBUG CAPACITY OTHER_CAPACITY other v)
    (λ r, m_size r.1 = m_size other ∧
          length (m_storage r.1) = length (m_storage other) ∧
          represents r.1 (moved_from <$> es) ∧
          wf CAPACITY r.2 ∧ represents r.2 es).
Proof.
  intros Hc Hwf Hes Hfit. unfold move_assign_cross.
  apply returns_bind, returns_guard; [done|]. apply returns_bind.
  eapply returns_mono; [by apply (clear_returns CAPACITY)|].
  intros w (Hw & Hrep & Hn & _). simpl.
  apply (move_elements_returns CAPACITY other w es [] Hc Hes Hw Hrep). lia.
Qed.

(** ** resize *)

Lemma out_index_assign w i e :
  out (index_assign w i e) =
  match slot_at (m_storage w) i with
  | Some (Obj _) =>
      Done {| m_storage := set_slot (m_storage w) i (Obj e);
              m_size := m_size w |}
  | _ => Undefined
  end.
Proof. unfold index_assign, assign_at. by destruct (slot_at _ i) as [[]|]. Qed.

Lemma resize_loop (n : nat) i w :
  0 ≤ i → i + Z.of_nat n ≤ Z.of_nat (length (m_storage w)) →
  completes_or_undefined
    (for_loop n i Z.succ (λ i w, index_assign w i Element_default) w)
    (λ w', m_size w' = m_size w ∧
           length (m_storage w') = length (m_storage w) ∧
           (∀ j, i ≤ j < i + Z.of_nat n →
                 slot_at (m_storage w') j = Some (Obj Element_default)) ∧
           (∀ j, ¬ (i ≤ j < i + Z.of_nat n) →
                 slot_at (m_storage w') j = slot_at (m_storage w) j))
    (∃ j, i ≤ j < i + Z.of_nat n ∧ slot_at (m_storage w) j = Some Raw).
Proof.
  revert i w. induction n as [|n IH]; intros i w Hi Hlen.
  - simpl. split_and!; try done. lia.
  - simpl for_loop. apply completes_bind.
    unfold completes_or_undefined at 1. rewrite out_index_assign.
    destruct (slot_at_is_Some (m_storage w) i) as [s Hs]; [lia|].
    rewrite Hs. destruct s as [|e0].
    { exists i. split; [lia|done]. }
    eapply completes_mono;
      [apply (IH (Z.succ i)); [lia | simpl; rewrite length_set_slot; lia] | |].
    + simpl. intros w' (Hn & Hl & Hnew & Hold).
      split; [done|]. split; [by rewrite Hl, length_set_slot|]. split.
      * intros j Hj. destruct (decide (j = i)) as [->|Hne].
        -- rewrite Hold by lia. apply slot_at_set_eq. lia.
        -- apply Hnew. lia.
      * intros j Hj. rewrite Hold by lia. apply slot_at_set_ne; lia.
    + simpl. intros (j & Hj & Hraw). exists j. split; [lia|].
      by rewrite slot_at_set_ne in Hraw by lia.
Qed.

Lemma resize_cases CAPACITY count v es :
  valid_capacity CAPACITY → wf CAPACITY v → represents v es →
  0 ≤ count ≤ CAPACITY →
  completes_or_undefined (resize NDEBUG CAPACITY count v)
    (λ v', wf CAPACITY v' ∧ m_size v' = count ∧
           represents v'
             (take (Z.to_nat count) es ++
              replicate (Z.to_nat (count - m_size v)) Element_default) ∧
           (∀ j, ¬ (m_size v ≤ j < count) →
                 slot_at (m_storage v') j = slot_at (m_storage v) j))
    (∃ i, m_size v ≤ i < count ∧ slot_at (m_storage v) i = Some Raw).
Proof.
  intros Hc [Hst Hsz _] [Hn Hes] Hcount. unfold resize.
  apply completes_bind, completes_of_returns, returns_assert;
    [apply Z.leb_le; lia|].
  assert (∀ st,
    length st = length (m_storage v) →
    (∀ j, m_size v ≤ j < count → slot_at st j = Some (Obj Element_default)) →
    (∀ j, ¬ (m_size v ≤ j < count) → slot_at st j = slot_at (m_storage v) j) →
    wf CAPACITY {| m_storage := st; m_size := count |} ∧
    represents {| m_storage := st; m_size := count |}
      (take (Z.to_nat count) es ++
       replicate (Z.to_nat (count - m_size v)) Element_default)) as Hend.
  { intros st Hl Hnew Hold.
    assert (represents {| m_storage := st; m_size := count |}
      (take (Z.to_nat count) es ++
       replicate (Z.to_nat (count - m_size v)) Element_default)) as Hrep.
    { split; simpl.
      - rewrite length_app, length_take, length_replicate. lia.
      - intros i e [He|[Hi He]]%lookup_app_Some.
        + apply lookup_take_Some in He as [He Hlt].
          rewrite Hold by (apply lookup_lt_Some in He; lia). by apply Hes.
        + rewrite length_take in Hi, He.
          apply lookup_replicate in He as [-> Hlt]. apply Hnew. lia. }
    split; [|done]. split; simpl; [by rewrite Hl | lia | eauto]. }
  destruct (Z.ltb_spec (m_size v) count) as [Hgrow|Hshrink].
  - eapply completes_mono; [apply resize_loop; simpl; lia | |].
    + simpl. intros w' (Hm & Hl & Hnew & Hold). destruct w' as [st m].
      simpl in *. subst m.
      destruct (Hend st Hl) as [Hwf Hrep].
      * intros j Hj. apply Hnew. lia.
      * intros j Hj. apply Hold. lia.
      * split_and!; try done. intros j Hj. apply Hold. lia.
    + simpl. intros (j & Hj & Hraw). exists j. split; [lia|done].
  - simpl. destruct (Hend (m_storage v)) as [Hwf Hrep]; try done.
    intros j Hj. lia.
Qed.

(** ** insert *)

Lemma represents_slot_Z v es j :
  represents v es → 0 ≤ j < m_size v →
  ∃ e, es !! Z.to_nat j = Some e ∧ slot_at (m_storage v) j = Some (Obj e).
Proof.
  intros [Hn Hes] Hj.
  destruct (lookup_lt_is_Some_2 es (Z.to_nat j)) as [e He]; [lia|].
  exists e. split; [done|]. apply Hes in He.
  by rewrite Z2Nat.id in He by lia.
Qed.

Lemma shift_right_returns v es idx e0 :
  represents v es → 0 ≤ idx ≤ m_size v → m_size v ≤ SIZE_MAX →
  slot_at (m_storage v) (m_size v) = Some (Obj e0) →
  returns (shift_right idx v)
    (λ w, m_size w = m_size v ∧
          length (m_storage w) = length (m_storage v) ∧
          (∀ j, idx < j ≤ m_size v →
             ∃ e, es !! Z.to_nat (j - 1) = Some e ∧
                  slot_at (m_storage w) j = Some (Obj e)) ∧
          (∀ j, j < idx ∨ m_size v < j →
             slot_at (m_storage w) j = slot_at (m_storage v) j) ∧
          (∃ e, slot_at (m_storage w) idx = Some (Obj e))).
Proof.
  intros Hrep Hidx Hmax Hend. unfold shift_right.
  apply (for_loop_returns
    (λ k w, m_size w = m_size v ∧
            length (m_storage w) = length (m_storage v) ∧
            (∀ j, m_size v - Z.of_nat k < j ≤ m_size v →
               ∃ e, es !! Z.to_nat (j - 1) = Some e ∧
                    slot_at (m_storage w) j = Some (Obj e)) ∧
            (∀ j, j < m_size v - Z.of_nat k ∨ m_size v < j →
               slot_at (m_storage w) j = slot_at (m_storage v) j) ∧
            (∃ e, slot_at (m_storage w) (m_size v - Z.of_nat k)
                  = Some (Obj e)))).
  - split_and!; try done.
    + intros j Hj. lia.
    + exists e0. by rewrite Z.sub_0_r.
  - intros k w Hk (Hm & Hl & Hhi & Hlo & [ed Hdst]). rewrite iter_pred.
    rewrite size_t_wrap_small by lia.
    destruct (represents_slot_Z v es (m_size v - Z.of_nat k - 1) Hrep)
      as (e & He & Hsrc); [lia|].
    rewrite <- Hlo in Hsrc by lia.
    apply returns_bind.
    eapply returns_move_assign_at; [lia | exact Hsrc | exact Hdst |].
    apply returns_ret. simpl. split; [done|].
    split; [by rewrite !length_set_slot|].
    assert (0 ≤ m_size v - Z.of_nat k - 1) by lia.
    assert (m_size v - Z.of_nat k < Z.of_nat (length (m_storage w))) as Hlt
      by (apply slot_at_Some in Hdst; lia).
    split; [|split].
    + intros j Hj. destruct (decide (j = m_size v - Z.of_nat k)) as [->|Hne].
      * exists e. split; [done|]. apply slot_at_set_eq.
        rewrite length_set_slot. lia.
      * rewrite !slot_at_set_ne by lia. apply Hhi. lia.
    + intros j Hj. rewrite !slot_at_set_ne by lia. apply Hlo. lia.
    + exists (moved_from e).
      replace (m_size v - Z.of_nat (S k)) with (m_size v - Z.of_nat k - 1)
        by lia.
      rewrite slot_at_set_ne by lia. apply slot_at_set_eq. lia.
  - intros w (Hm & Hl & Hhi & Hlo & Hdst).
    replace (m_size v - Z.of_nat (Z.to_nat (m_size v - idx))) with idx in *
      by lia.
    done.
Qed.

Lemma shift_right_raw v es idx :
  represents v es → 0 ≤ idx < m_size v → m_size v ≤ SIZE_MAX →
  slot_at (m_storage v) (m_size v) = Some Raw →
  out (shift_right idx v) = Undefined.
Proof.
  intros Hrep Hidx Hmax Hend. unfold shift_right.
  destruct (Z.to_nat (m_size v - idx)) as [|n] eqn:Hn; [lia|].
  simpl for_loop. rewrite !out_bind.
  rewrite size_t_wrap_small by lia. unfold move_assign_at.
  destruct (represents_slot_Z v es (m_size v - 1) Hrep) as (e & _ & Hsrc);
    [lia|].
  rewrite out_bind. unfold move_from. rewrite Hsrc. simpl.
  unfold assign_at. rewrite slot_at_set_ne by lia. by rewrite Hend.
Qed.

Lemma insert_cases CAPACITY pos value v es :
  valid_capacity CAPACITY → wf CAPACITY v → represents v es →
  m_size v < CAPACITY → begin_ v ≤ pos ≤ end_ v →
  completes_or_undefined (insert NDEBUG CAPACITY pos (outside value) v)
    (λ r, r.1 = pos ∧ wf CAPACITY r.2 ∧ m_size r.2 = m_size v + 1 ∧
          represents r.2
            (take (Z.to_nat pos) es ++ value :: drop (Z.to_nat pos) es))
    (slot_at (m_storage v) (m_size v) = Some Raw).
Proof.
  intros [Hc0 Hc] [Hst Hsz _] Hrep Hlt Hpos. unfold begin_, end_ in Hpos.
  pose proof Hrep as [Hn Hes]. unfold insert, cbegin.
  cbn [index_assign_from]. rewrite Z.sub_0_r.
  apply completes_bind, completes_of_returns, returns_assert;
    [by apply Z.ltb_lt|].
  apply completes_bind, completes_of_returns, returns_assert;
    [apply Z.leb_le; lia|].
  rewrite size_t_wrap_small by lia.
  destruct (slot_at_is_Some (m_storage v) (m_size v)) as [s Hs]; [lia|].
  destruct s as [|e0].
  - (* the slot at the old length holds no object *)
    unfold completes_or_undefined. rewrite out_bind.
    destruct (decide (pos = m_size v)) as [->|Hne].
    + unfold shift_right. rewrite Z.sub_diag. simpl.
      by rewrite out_bind, out_index_assign, Hs.
    + by rewrite (shift_right_raw v es pos) by (done || lia).
  - apply completes_of_returns, returns_bind.
    eapply returns_mono;
      [apply (shift_right_returns v es pos e0); (done || lia)|].
    intros w (Hm & Hl & Hhi & Hlo & [ep Hp]). simpl.
    apply returns_bind. unfold returns at 1.
    rewrite out_index_assign, Hp. apply returns_ret. simpl.
    rewrite Hm, size_t_wrap_small by lia.
    assert (represents
      {| m_storage := set_slot (m_storage w) pos (Obj value);
         m_size := m_size v + 1 |}
      (take (Z.to_nat pos) es ++ value :: drop (Z.to_nat pos) es)) as Hrep'.
    { split; simpl.
      - rewrite length_app, length_take. simpl. rewrite length_drop. lia.
      - intros i e [He|[Hi He]]%lookup_app_Some.
        + apply lookup_take_Some in He as [He Hi].
          rewrite slot_at_set_ne by lia. rewrite Hlo by lia. by apply Hes.
        + rewrite length_take in Hi, He.
          replace (Z.to_nat pos `min` length es)%nat with (Z.to_nat pos)
            in Hi, He by lia.
          destruct (i - Z.to_nat pos)%nat as [|k] eqn:Hk; simpl in He.
          * injection He as <-. replace (Z.of_nat i) with pos by lia.
            apply slot_at_set_eq. apply slot_at_Some in Hp. lia.
          * rewrite lookup_drop in He.
            rewrite slot_at_set_ne by lia.
            destruct (Hhi (Z.of_nat i)) as (e' & He' & Hslot).
            { apply lookup_lt_Some in He. lia. }
            replace (Z.to_nat (Z.of_nat i - 1)) with (Z.to_nat pos + k)%nat
              in He' by lia.
            congruence. }
    split; [done|]. split; [|done].
    split; simpl; [by rewrite length_set_slot, Hl | lia | eauto].
Qed.

(** ** erase *)

Lemma std_move_left v es first last :
  represents v es → 0 ≤ first < last → last ≤ m_size v →
  returns (std_move (m_storage v) last (m_size v) first)
    (λ st', length st' = length (m_storage v) ∧
            (∀ j, j < first ∨ m_size v ≤ j →
               slot_at st' j = slot_at (m_storage v) j) ∧
            (∀ j, first ≤ j < first + (m_size v - last) →
               ∃ e, es !! Z.to_nat (j + (last - first)) = Some e ∧
                    slot_at st' j = Some (Obj e)) ∧
            (∀ j, first + (m_size v - last) ≤ j < m_size v →
               ∃ e, es !! Z.to_nat j = Some e ∧
                    slot_at st' j =
                    Some (Obj (if decide (last ≤ j) then moved_from e
                               else e)))).
Proof.
  intros Hrep Hfirst Hlast. unfold std_move.
  replace (m_size v <? last) with false by (symmetry; apply Z.ltb_ge; lia).
  replace (last <=? first) with false by (symmetry; apply Z.leb_gt; lia).
  simpl.
  apply (for_loop_returns
    (λ k st', length st' = length (m_storage v) ∧
              (∀ j, j < first ∨ m_size v ≤ j →
                 slot_at st' j = slot_at (m_storage v) j) ∧
              (∀ j, first ≤ j < first + Z.of_nat k →
                 ∃ e, es !! Z.to_nat (j + (last - first)) = Some e ∧
                      slot_at st' j = Some (Obj e)) ∧
              (∀ j, first + Z.of_nat k ≤ j < m_size v →
                 ∃ e, es !! Z.to_nat j = Some e ∧
                      slot_at st' j =
                      Some (Obj (if decide (last ≤ j < last + Z.of_nat k)
                                 then moved_from e else e))))).
  - split_and!; try done.
    + intros j Hj. lia.
    + intros j Hj.
      destruct (represents_slot_Z v es j Hrep) as (e & He & Hs); [lia|].
      exists e. split; [done|]. by rewrite decide_False by lia.
  - intros k st' Hk (Hl & Hout & Hdone & Hrest). rewrite iter_succ.
    replace (first + (last + Z.of_nat k - last)) with (first + Z.of_nat k)
      by lia.
    destruct (Hrest (last + Z.of_nat k)) as (e & He & Hsrc); [lia|].
    rewrite decide_False in Hsrc by lia.
    destruct (Hrest (first + Z.of_nat k)) as (ed & _ & Hdst); [lia|].
    eapply returns_move_assign_at; [lia | exact Hsrc | exact Hdst |].
    assert (last + Z.of_nat k < Z.of_nat (length st')) as Hsrc_lt
      by (apply slot_at_Some in Hsrc; lia).
    split; [by rewrite !length_set_slot|]. split; [|split].
    + intros j Hj. rewrite !slot_at_set_ne by lia. by apply Hout.
    + intros j Hj. destruct (decide (j = first + Z.of_nat k)) as [->|Hne].
      * exists e. split.
        -- by replace (first + Z.of_nat k + (last - first))
             with (last + Z.of_nat k) by lia.
        -- apply slot_at_set_eq. rewrite length_set_slot. lia.
      * rewrite !slot_at_set_ne by lia. apply Hdone. lia.
    + intros j Hj. destruct (decide (j = last + Z.of_nat k)) as [->|Hne].
      * exists e. split; [done|]. rewrite decide_True by lia.
        rewrite slot_at_set_ne by lia. apply slot_at_set_eq. lia.
      * rewrite !slot_at_set_ne by lia.
        destruct (Hrest j) as (e' & He' & Hs'); [lia|].
        exists e'. split; [done|]. rewrite Hs'. do 2 f_equal.
        repeat case_decide; try done; lia.
  - intros st' (Hl & Hout & Hdone & Hrest). split_and!; try done.
    + intros j Hj. apply Hdone. lia.
    + intros j Hj. destruct (Hrest j) as (e & He & Hs); [lia|].
      exists e. split; [done|]. rewrite Hs. do 2 f_equal.
      repeat case_decide; try done; lia.
Qed.

(** The shift of the const overload copies: what lies behind the
    destination range stays as it was. *)
Lemma std_move_const_left v es first last :
  represents v es → 0 ≤ first < last → last ≤ m_size v →
  returns (std_move_const (m_storage v) last (m_size v) first)
    (λ st', length st' = length (m_storage v) ∧
            (∀ j, j < first ∨ first + (m_size v - last) ≤ j →
               slot_at st' j = slot_at (m_storage v) j) ∧
            (∀ j, first ≤ j < first + (m_size v - last) →
               ∃ e, es !! Z.to_nat (j + (last - first)) = Some e ∧
                    slot_at st' j = Some (Obj e))).
Proof.
  intros Hrep Hfirst Hlast. unfold std_move_const.
  replace (m_size v <? last) with false by (symmetry; apply Z.ltb_ge; lia).
  replace (last <=? first) with false by (symmetry; apply Z.leb_gt; lia).
  simpl.
  apply (for_loop_returns
    (λ k st', length st' = length (m_storage v) ∧
              (∀ j, j < first ∨ first + Z.of_nat k ≤ j →
                 slot_at st' j = slot_at (m_storage v) j) ∧
              (∀ j, first ≤ j < first + Z.of_nat k →
                 ∃ e, es !! Z.to_nat (j + (last - first)) = Some e ∧
                      slot_at st' j = Some (Obj e)))).
  - split_and!; try done. intros j Hj. lia.
  - intros k st' Hk (Hl & Hout & Hdone). rewrite iter_succ.
    replace (first + (last + Z.of_nat k - last)) with (first + Z.of_nat k)
      by lia.
    destruct (represents_slot_Z v es (last + Z.of_nat k) Hrep)
      as (e & He & Hsrc); [lia|].
    destruct (represents_slot_Z v es (first + Z.of_nat k) Hrep)
      as (ed & _ & Hdst); [lia|].
    rewrite <- Hout in Hsrc by lia. rewrite <- Hout in Hdst by lia.
    unfold copy_assign_at. apply returns_bind.
    eapply returns_load; [exact Hsrc|].
    eapply returns_assign_at; [exact Hdst|].
    split; [by rewrite length_set_slot|]. split.
    + intros j Hj. rewrite slot_at_set_ne by lia. apply Hout. lia.
    + intros j Hj. destruct (decide (j = first + Z.of_nat k)) as [->|Hne].
      * exists e. split.
        -- by replace (first + Z.of_nat k + (last - first))
             with (last + Z.of_nat k) by lia.
        -- apply slot_at_set_eq. apply slot_at_Some in Hdst. lia.
      * rewrite slot_at_set_ne by lia. apply Hdone. lia.
  - intros st' (Hl & Hout & Hdone). split_and!; try done.
    + intros j Hj. apply Hout. lia.
    + intros j Hj. apply Hdone. lia.
Qed.

(** What follows the shift in both overloads of [erase]. *)
Lemma erase_finish CAPACITY first last v es st' :
  valid_capacity CAPACITY → wf CAPACITY v → represents v es →
  0 ≤ first → first ≤ last → last ≤ m_size v →
  length st' = length (m_storage v) →
  (∀ j, j < first → slot_at st' j = slot_at (m_storage v) j) →
  (∀ j, first ≤ j < first + (m_size v - last) →
     ∃ e, es !! Z.to_nat (j + (last - first)) = Some e ∧
          slot_at st' j = Some (Obj e)) →
  returns
    (_ ← assert NDEBUG ((0 <=? last - first) &&
                        (size_t_wrap (last - first) <=? m_size v))
           msg_invalid_iterator_pair;
     mret (first, {| m_storage := st';
                     m_size := size_t_wrap
                                 (m_size v - size_t_wrap (last - first)) |}))
    (λ r, r.1 = first ∧ wf CAPACITY r.2 ∧
          m_size r.2 = m_size v - (last - first) ∧
          represents r.2
            (take (Z.to_nat first) es ++ drop (Z.to_nat last) es) ∧
          m_storage r.2 = st').
Proof.
  intros [Hc0 Hc] [Hst Hsz _] [Hn Hes] Hfirst Hle Hlast Hl Hout Hdone.
  rewrite !size_t_wrap_small by (rewrite ?size_t_wrap_small; lia).
  apply returns_bind, returns_assert.
  { apply andb_true_iff. split; apply Z.leb_le; lia. }
  apply returns_ret. simpl.
  assert (represents
    {| m_storage := st'; m_size := m_size v - (last - first) |}
    (take (Z.to_nat first) es ++ drop (Z.to_nat last) es)) as Hrep'.
  { split; simpl.
    - rewrite length_app, length_take, length_drop. lia.
    - intros i e [He|[Hi He]]%lookup_app_Some.
      + apply lookup_take_Some in He as [He Hi].
        rewrite Hout by lia. by apply Hes.
      + rewrite length_take in Hi, He.
        replace (Z.to_nat first `min` length es)%nat with (Z.to_nat first)
          in Hi, He by lia.
        rewrite lookup_drop in He.
        destruct (Hdone (Z.of_nat i)) as (e' & He' & Hs).
        { apply lookup_lt_Some in He. lia. }
        replace (Z.to_nat (Z.of_nat i + (last - first)))
          with (Z.to_nat last + (i - Z.to_nat first))%nat in He' by lia.
        congruence. }
  split; [done|]. split; [|done].
  split; simpl; [by rewrite Hl | lia | eauto].
Qed.

Lemma erase_cases CAPACITY first last v es :
  valid_capacity CAPACITY → wf CAPACITY v → represents v es →
  begin_ v ≤ first → first ≤ last → last ≤ end_ v →
  completes_or_undefined (erase NDEBUG first last v)
    (λ r, r.1 = first ∧ wf CAPACITY r.2 ∧
          m_size r.2 = m_size v - (last - first) ∧
          represents r.2 (take (Z.to_nat first) es ++ drop (Z.to_nat last) es) ∧
          (∀ j, m_size r.2 ≤ j < m_size v →
             ∃ e, slot_at (m_storage r.2) j = Some (Obj e)) ∧
          (∀ j, m_size v ≤ j →
             slot_at (m_storage r.2) j = slot_at (m_storage v) j) ∧
          (∀ j e, m_size r.2 ≤ j → es !! Z.to_nat j = Some e →
             slot_at (m_storage r.2) j =
             Some (Obj (if decide (last ≤ j) then moved_from e else e))))
    (first = last ∧ last < end_ v).
Proof.
  intros Hc Hwf Hrep. unfold begin_, end_.
  intros Hfirst Hle Hlast. pose proof Hrep as [Hn Hes]. unfold erase, end_.
  destruct (decide (first = last)) as [->|Hne].
  - destruct (decide (last = m_size v)) as [Heq|Hne].
    + subst last.
      pose proof (erase_finish CAPACITY (m_size v) (m_size v) v es
                    (m_storage v) Hc Hwf Hrep) as Hfin.
      apply completes_of_returns, returns_bind. unfold std_move.
      rewrite Z.ltb_irrefl, andb_false_r. simpl.
      rewrite Z.sub_diag. simpl. apply returns_ret.
      rewrite Z.sub_diag in Hfin. simpl in Hfin.
      eapply returns_mono;
        [apply Hfin; (done || lia || (intros j Hj; lia))|].
      intros r (H1 & H2 & H3 & H4 & H5). rewrite H5, H3.
      split_and!; try done.
      * intros j Hj. lia.
      * intros j e Hj He. apply lookup_lt_Some in He. lia.
    + unfold completes_or_undefined. rewrite out_bind. unfold std_move.
      replace (last <=? last) with true by (symmetry; by apply Z.leb_le).
      replace (last <? m_size v) with true by (symmetry; apply Z.ltb_lt; lia).
      rewrite orb_true_r. simpl. split; [done|lia].
  - apply completes_of_returns, returns_bind.
    eapply returns_mono; [apply (std_move_left v es first last); (done||lia)|].
    intros st' (Hl & Hout & Hdone & Hrest).
    eapply returns_mono;
      [apply (erase_finish CAPACITY first last v es st');
         (done || lia || (intros j Hj; apply Hout; lia))|].
    intros r (H1 & H2 & H3 & H4 & H5). rewrite H5, H3.
    split_and!; try done.
    + intros j Hj. destruct (Hrest j) as (e & _ & Hs); [lia|]. eauto.
    + intros j Hj. apply Hout. lia.
    + intros j e Hj He. pose proof (lookup_lt_Some _ _ _ He) as Hlt.
      destruct (Hrest j) as (e' & He' & Hs); [lia|].
      rewrite He in He'. injection He' as <-. exact Hs.
Qed.

Lemma erase_const_cases CAPACITY first last v es :
  valid_capacity CAPACITY → wf CAPACITY v → represents v es →
  begin_ v ≤ first → first ≤ last → last ≤ end_ v →
  completes_or_undefined (erase_const NDEBUG first last v)
    (λ r, r.1 = first ∧ wf CAPACITY r.2 ∧
          m_size r.2 = m_size v - (last - first) ∧
          represents r.2 (take (Z.to_nat first) es ++ drop (Z.to_nat last) es) ∧
          (∀ j, m_size r.2 ≤ j →
             slot_at (m_storage r.2) j = slot_at (m_storage v) j))
    (first = last ∧ last < end_ v).
Proof.
  intros Hc Hwf Hrep. unfold begin_, end_.
  intros Hfirst Hle Hlast. pose proof Hrep as [Hn Hes].
  unfold erase_const, begin_, cbegin, cend. rewrite Z.sub_0_r, Z.add_0_l.
  destruct (decide (first = last)) as [->|Hne].
  - destruct (decide (last = m_size v)) as [Heq|Hne].
    + subst last.
      pose proof (erase_finish CAPACITY (m_size v) (m_size v) v es
                    (m_storage v) Hc Hwf Hrep) as Hfin.
      apply completes_of_returns, returns_bind. unfold std_move_const.
      rewrite Z.ltb_irrefl, andb_false_r. simpl.
      rewrite Z.sub_diag. simpl. apply returns_ret.
      rewrite Z.sub_diag in Hfin. simpl in Hfin.
      eapply returns_mono;
        [apply Hfin; (done || lia || (intros j Hj; lia))|].
      intros r (H1 & H2 & H3 & H4 & H5). rewrite H5, H3.
      split_and!; done.
    + unfold completes_or_undefined. rewrite out_bind. unfold std_move_const.
      replace (last <=? last) with true by (symmetry; by apply Z.leb_le).
      replace (last <? m_size v) with true by (symmetry; apply Z.ltb_lt; lia).
      rewrite orb_true_r. simpl. split; [done|lia].
  - apply completes_of_returns, returns_bind.
    eapply returns_mono;
      [apply (std_move_const_left v es first last); (done||lia)|].
    intros st' (Hl & Hout & Hdone).
    eapply returns_mono;
      [apply (erase_finish CAPACITY first last v es st');
         (done || lia || (intros j Hj; apply Hout; lia))|].
    intros r (H1 & H2 & H3 & H4 & H5). rewrite H5, H3.
    split_and!; try done. intros j Hj. apply Hout. lia.
Qed.

(** ** The invariant of the length *)

Lemma wf_moved_from OTHER_CAPACITY other es (o' : StaticVector Element) :
  wf OTHER_CAPACITY other →
  m_size o' = m_size other →
  length (m_storage o') = length (m_storage other) →
  represents o' (moved_from <$> es) →
  wf OTHER_CAPACITY o'.
Proof.
  intros [Hst Hsz _] Hm Hl Hrep.
  split; [by rewrite Hl | by rewrite Hm | eauto].
Qed.

Lemma run_preserves_wf CAPACITY op v :
  valid_capacity CAPACITY → wf CAPACITY v → precondition CAPACITY op v →
  completes_or_undefined (run NDEBUG CAPACITY op v) (wf CAPACITY)
    (undefined_case op v).
Proof.
  intros Hc Hwf Hpre. pose proof Hwf as [_ Hsz [es Hes]].
  destruct op as [e|e| |count|pos e|pos e|first last|first last|pos|pos| |
                  count e|n| |OC other|OC other]; simpl in Hpre |- *.
  - apply completes_of_returns.
    eapply returns_mono; [by apply (push_back_returns CAPACITY e v es)|].
    by intros v' [Hv' _].
  - apply completes_of_returns.
    eapply returns_mono; [by apply (push_back_returns CAPACITY e v es)|].
    by intros v' [Hv' _].
  - apply completes_fmap, completes_of_returns.
    destruct (wf_nonempty CAPACITY v Hwf Hpre) as (es' & e & Hes').
    eapply returns_mono; [by apply (pop_back_returns CAPACITY v es' e)|].
    by intros r (_ & Hr & _).
  - eapply completes_mono; [by apply (resize_cases CAPACITY count v es) | |done].
    by intros v' [Hv' _].
  - apply completes_fmap.
    eapply completes_mono;
      [apply (insert_cases CAPACITY pos e v es); (done || lia) | |done].
    by intros r (_ & Hr & _).
  - apply completes_fmap.
    eapply completes_mono;
      [apply (insert_cases CAPACITY pos e v es); (done || lia) | |done].
    by intros r (_ & Hr & _).
  - apply completes_fmap.
    eapply completes_mono;
      [apply (erase_cases CAPACITY first last v es); (done || lia) | |done].
    by intros r (_ & Hr & _).
  - apply completes_fmap.
    eapply completes_mono;
      [apply (erase_const_cases CAPACITY first last v es); (done || lia)
      | |done].
    by intros r (_ & Hr & _).
  - apply completes_fmap. unfold erase_at.
    eapply completes_mono;
      [apply (erase_cases CAPACITY pos (pos + 1) v es); (done || lia) | |lia].
    by intros r (_ & Hr & _).
  - apply completes_fmap. unfold erase_const_at.
    eapply completes_mono;
      [apply (erase_const_cases CAPACITY pos (pos + 1) v es); (done || lia)
      | |lia].
    by intros r (_ & Hr & _).
  - apply completes_of_returns.
    eapply returns_mono; [by apply (clear_returns CAPACITY)|].
    by intros v' [Hv' _].
  - apply completes_of_returns.
    eapply returns_mono; [by apply (assign_returns CAPACITY count e v)|].
    by intros v' [Hv' _].
  - apply completes_of_returns. unfold reserve.
    apply returns_bind, returns_assert; [by apply Z.leb_le|].
    by apply returns_ret.
  - apply completes_of_returns. by apply returns_ret.
  - destruct Hpre as [[_ _ [os Hos]] Hfit]. apply completes_of_returns.
    eapply returns_mono;
      [by apply (copy_assign_cross_returns CAPACITY OC other v os)|].
    by intros v' [Hv' _].
  - destruct Hpre as [[_ _ [os Hos]] Hfit].
    apply completes_fmap, completes_of_returns.
    eapply returns_mono;
      [by apply (move_assign_cross_returns CAPACITY OC other v os)|].
    by intros r (_ & _ & _ & Hr & _).
Qed.

(** ** The checked preconditions *)

(** [count] calls of [push_back] that do not fit: the call that would
    exceed the capacity fails its assertion. *)
Lemma push_back_loop_asserts CAPACITY (n : nat) i e v es :
  NDEBUG = false → valid_capacity CAPACITY →
  wf CAPACITY v → represents v es →
  CAPACITY < m_size v + Z.of_nat n →
  out (for_loop n i Z.succ (λ _ w, push_back NDEBUG CAPACITY e w) v)
    = AssertionFailed msg_size_lt_capacity.
Proof.
  intros Hdebug Hc. revert i v es.
  induction n as [|n IH]; intros i v es Hwf Hes Hlen.
  - destruct Hwf as [_ Hsz _]. lia.
  - simpl for_loop. rewrite out_bind.
    destruct (decide (m_size v < CAPACITY)) as [Hlt|Hge].
    + pose proof (push_back_returns CAPACITY e v es Hc Hwf Hes Hlt) as Hpb.
      apply returns_Done in Hpb as (w & -> & Hw & Hrep & _).
      apply (IH (Z.succ i) w (es ++ [e])); [done..|].
      destruct Hrep as [-> _], Hes as [Hn _]. rewrite length_app. simpl. lia.
    + by rewrite (proj2 (push_back_asserts CAPACITY e v Hdebug) Hge).
Qed.

Lemma fill_asserts CAPACITY count e :
  NDEBUG = false → valid_capacity CAPACITY →
  out (StaticVector_fill NDEBUG CAPACITY count e)
    = AssertionFailed msg_size_lt_capacity
  ↔ CAPACITY < count.
Proof.
  intros Hdebug Hc. destruct (wf_default CAPACITY Hc) as [Hwf Hrep]. split.
  - intros Hout. destruct (decide (CAPACITY < count)) as [|Hfit]; [done|].
    pose proof (push_back_n_returns CAPACITY (Z.max 0 count) e _ [] Hc Hwf Hrep)
      as Hr.
    apply returns_Done in Hr as (w & Hw & _); [|simpl; destruct Hc; lia].
    unfold StaticVector_fill, push_back_n in *.
    replace (Z.to_nat (0 `max` count)) with (Z.to_nat count) in Hw by lia.
    congruence.
  - intros Hlong. unfold StaticVector_fill, push_back_n.
    apply (push_back_loop_asserts CAPACITY _ 0 e _ []); try done.
    simpl. destruct Hc. lia.
Qed.

Lemma init_list_asserts CAPACITY vs :
  NDEBUG = false → valid_capacity CAPACITY →
  out (StaticVector_init_list NDEBUG CAPACITY vs)
    = AssertionFailed msg_size_lt_capacity
  ↔ CAPACITY < Z.of_nat (length vs).
Proof.
  intros Hdebug Hc. destruct (wf_default CAPACITY Hc) as [Hwf Hrep]. split.
  - intros Hout. destruct (decide (CAPACITY < Z.of_nat (length vs)));
      [done|].
    pose proof (push_back_all_returns CAPACITY vs _ [] Hc Hwf Hrep) as Hr.
    apply returns_Done in Hr as (w & Hw & _); [|simpl; lia].
    unfold StaticVector_init_list in Hout. congruence.
  - intros Hlen. by apply (push_back_all_asserts CAPACITY vs _ []).
Qed.

(** The up-front check of the cross-capacity operations from a larger
    declared capacity. *)
Lemma guard_asserts {A : Type} CAPACITY OTHER_CAPACITY other (rest : M A) :
  NDEBUG = false → CAPACITY < OTHER_CAPACITY →
  may_abort_only (λ msg, msg = msg_size_lt_capacity) rest →
  out (cross_capacity_guard NDEBUG CAPACITY OTHER_CAPACITY other ≫= λ _, rest)
    = AssertionFailed msg_size_le_capacity
  ↔ ¬ size other ≤ CAPACITY.
Proof.
  intros Hdebug Hlt Hrest. unfold cross_capacity_guard.
  rewrite (proj2 (Z.ltb_lt _ _) Hlt). rewrite assert_decides; [|done|].
  - rewrite Z.leb_gt. lia.
  - eapply abort_weaken; [exact Hrest|]. by intros msg ->.
Qed.

(** The assertion of [erase] is evaluated once [std::move] has run. *)
Lemma after_move_asserts {A : Type} (mv : M (list (slot Element)))
    (first last : Z) v (k : list (slot Element) → A) :
  NDEBUG = false → (∀ P, may_abort_only P mv) →
  out (st ← mv;
       _ ← assert NDEBUG ((0 <=? last - first) &&
                          (size_t_wrap (last - first) <=? m_size v))
             msg_invalid_iterator_pair;
       mret (k st))
    = AssertionFailed msg_invalid_iterator_pair
  ↔ (∃ st, out mv = Done st) ∧
    ¬ (first ≤ last ∧ size_t_wrap (last - first) ≤ m_size v).
Proof.
  intros Hdebug Hmv. rewrite out_bind.
  destruct (out mv) as [st|msg|] eqn:Hout.
  - rewrite out_bind, out_assert_debug by done.
    destruct (_ && _) eqn:Hcond; simpl.
    + apply andb_true_iff in Hcond as [H1%Z.leb_le H2%Z.leb_le].
      split; [done|]. intros [_ Hn]. destruct Hn. lia.
    + split; [|done]. intros _. split; [by exists st|].
      intros [H1 H2]. apply andb_false_iff in Hcond as [Hc|Hc].
      * apply Z.leb_gt in Hc. lia.
      * apply Z.leb_gt in Hc. lia.
  - by apply (Hmv (λ _, False)) in Hout.
  - split; [done|]. by intros [[st Hst] _].
Qed.

(** C3, as the code has it: with assertions enabled, every precondition of
    the operations is checked by an assertion that fails exactly when the
    precondition is violated - the capacity ([push_back], [emplace_back],
    [insert], [resize], [assign], [reserve], construction from a count and
    from an initializer sequence), the non-empty container ([pop_back],
    [front], [back]), the length of the source in the four cross-capacity
    operations from a larger declared capacity (a source of at most the
    declared capacity of the destination cannot be too long), the address
    in a reverse iterator that is dereferenced - with three exceptions: [operator[]] evaluates no assertion for any index;
    [insert] checks of its position only the lower bound; and [erase]
    checks, after [std::move] has shifted the elements, only that
    [last - first] is neither negative nor larger than the length. *)
Theorem checked_preconditions CAPACITY :
  NDEBUG = false →
  (∀ e v,
     (out (push_back NDEBUG CAPACITY e v)
        = AssertionFailed msg_size_lt_capacity ↔ ¬ m_size v < CAPACITY) ∧
     (out (emplace_back NDEBUG CAPACITY e v)
        = AssertionFailed msg_size_lt_capacity ↔ ¬ m_size v < CAPACITY)) ∧
  (∀ count v,
     (out (resize NDEBUG CAPACITY count v) = AssertionFailed msg_count
        ↔ ¬ count ≤ CAPACITY) ∧
     (out (reserve NDEBUG CAPACITY count v) = AssertionFailed msg_reserve
        ↔ ¬ count ≤ CAPACITY)) ∧
  (∀ count (value : reference Element) v,
     out (assign NDEBUG CAPACITY count value v)
       = AssertionFailed msg_size_le_capacity ↔ ¬ count ≤ CAPACITY) ∧
  (valid_capacity CAPACITY →
     (∀ count e,
        out (StaticVector_fill NDEBUG CAPACITY count e)
          = AssertionFailed msg_size_lt_capacity ↔ CAPACITY < count) ∧
     (∀ vs,
        out (StaticVector_init_list NDEBUG CAPACITY vs)
          = AssertionFailed msg_size_lt_capacity
        ↔ CAPACITY < Z.of_nat (length vs))) ∧
  (∀ v,
     (out (pop_back NDEBUG v) = AssertionFailed msg_not_empty
        ↔ ¬ 0 < m_size v) ∧
     (out (front NDEBUG v) = AssertionFailed msg_at_least_one
        ↔ ¬ 0 < m_size v) ∧
     (out (back NDEBUG v) = AssertionFailed msg_at_least_one
        ↔ ¬ 0 < m_size v)) ∧
  (∀ OTHER_CAPACITY other this, CAPACITY < OTHER_CAPACITY →
     (out (StaticVector_copy_cross NDEBUG CAPACITY OTHER_CAPACITY other)
        = AssertionFailed msg_size_le_capacity ↔ ¬ size other ≤ CAPACITY) ∧
     (out (StaticVector_move_cross NDEBUG CAPACITY OTHER_CAPACITY other)
        = AssertionFailed msg_size_le_capacity ↔ ¬ size other ≤ CAPACITY) ∧
     (out (copy_assign_cross NDEBUG CAPACITY OTHER_CAPACITY other this)
        = AssertionFailed msg_size_le_capacity ↔ ¬ size other ≤ CAPACITY) ∧
     (out (move_assign_cross NDEBUG CAPACITY OTHER_CAPACITY other this)
        = AssertionFailed msg_size_le_capacity ↔ ¬ size other ≤ CAPACITY)) ∧
  (∀ OTHER_CAPACITY other,
     OTHER_CAPACITY ≤ CAPACITY → wf OTHER_CAPACITY other →
     size other ≤ CAPACITY) ∧
  (∀ pos (value : reference Element) v,
     (out (insert NDEBUG CAPACITY pos value v)
        = AssertionFailed msg_size_lt_capacity ↔ ¬ m_size v < CAPACITY) ∧
     (out (insert_rvalue NDEBUG CAPACITY pos value v)
        = AssertionFailed msg_size_lt_capacity ↔ ¬ m_size v < CAPACITY) ∧
     (m_size v < CAPACITY →
        (out (insert NDEBUG CAPACITY pos value v)
           = AssertionFailed msg_invalid_iterator ↔ pos < cbegin v) ∧
        (out (insert_rvalue NDEBUG CAPACITY pos value v)
           = AssertionFailed msg_invalid_iterator ↔ pos < cbegin v) ∧
        (cbegin v ≤ pos →
           ∀ msg,
             out (insert NDEBUG CAPACITY pos value v) ≠ AssertionFailed msg ∧
             out (insert_rvalue NDEBUG CAPACITY pos value v)
               ≠ AssertionFailed msg))) ∧
  (∀ first last v,
     (out (erase NDEBUG first last v)
        = AssertionFailed msg_invalid_iterator_pair
      ↔ (∃ st, out (std_move (m_storage v) last (end_ v) first) = Done st) ∧
        ¬ (first ≤ last ∧ size_t_wrap (last - first) ≤ m_size v)) ∧
     (out (erase_const NDEBUG first last v)
        = AssertionFailed msg_invalid_iterator_pair
      ↔ (∃ st, out (std_move_const (m_storage v) last (cend v)
                      (begin_ v + (first - cbegin v))) = Done st) ∧
        ¬ (first ≤ last ∧ size_t_wrap (last - first) ≤ m_size v))) ∧
  (∀ v (it : ReverseIterator),
     out (rev_deref NDEBUG v it) = AssertionFailed msg_nullptr
     ↔ m_ptr it = nullptr) ∧
  (∀ v idx,
     log (index v idx) = [] ∧ ∀ msg, out (index v idx) ≠ AssertionFailed msg).
Proof.
  intros Hdebug. split_and!.
  - intros e v. split; by apply push_back_asserts.
  - intros count v. split; [by apply resize_asserts | by apply reserve_asserts].
  - intros count value v. by apply assign_asserts.
  - intros Hc. split.
    + intros count e. by apply fill_asserts.
    + intros vs. by apply init_list_asserts.
  - intros v. split_and!;
      [by apply pop_back_asserts | by apply front_asserts
      | by apply back_asserts].
  - intros OC other this Hlt. split_and!; apply guard_asserts; try done.
    + apply abort_copy_elements.
    + apply abort_move_elements.
    + apply abort_bind; [apply abort_clear|]. intros w.
      apply abort_copy_elements.
    + apply abort_bind; [apply abort_clear|]. intros w.
      apply abort_move_elements.
  - intros OC other Hle [_ Hsz _]. unfold size. lia.
  - intros pos value v.
    destruct (insert_asserts CAPACITY pos value v Hdebug) as [Hi1 Hi2].
    destruct (insert_rvalue_asserts CAPACITY pos value v Hdebug) as [Hr1 Hr2].
    split; [done|]. split; [done|]. intros Hlt.
    destruct (Hi2 Hlt) as [Hi3 Hi4]. destruct (Hr2 Hlt) as [Hr3 Hr4].
    split; [done|]. split; [done|]. intros Hpos msg.
    split; [by apply Hi4 | by apply Hr4].
  - intros first last v. split.
    + apply (after_move_asserts _ first last v (λ st, (first, _)));
        [done|]. intros P. apply abort_std_move.
    + apply (after_move_asserts _ first last v (λ st, (first, _)));
        [done|]. intros P. apply abort_std_move_const.
  - intros v it. unfold rev_deref. rewrite assert_decides; [|done|].
    + rewrite bool_decide_eq_false. split.
      * intros Hnn. destruct (m_ptr it); [done|]. by destruct Hnn.
      * intros Heq Hne. by apply Hne.
    + destruct (m_ptr it); [apply abort_undefined | apply abort_load].
  - intros v idx. apply index_no_assert.
Qed.

(** * Further properties of the operations *)

(** ** push_back and pop_back *)



(** ** Element access *)

(** X2: on a container holding [es], [operator[]] at an index below the
    length yields the element at that index, [front] the first element and
    [back] the last; none of them fails an assertion. *)
Theorem element_access CAPACITY v es :
  valid_capacity CAPACITY → wf CAPACITY v → represents v es →
  (∀ (i : nat) e, es !! i = Some e → out (index v (Z.of_nat i)) = Done e) ∧
  (∀ e, head es = Some e → out (front NDEBUG v) = Done e) ∧
  (∀ e, last es = Some e → out (back NDEBUG v) = Done e).
Proof.
  intros [Hc0 Hc] [_ Hsz _] [Hn Hes].
  assert (∀ (i : nat) e, es !! i = Some e →
            out (index v (Z.of_nat i)) = Done e) as Hidx.
  { intros i e He. unfold index, load. by rewrite (Hes i e He). }
  split; [done|]. split.
  - intros e He. rewrite head_lookup in He.
    unfold front. rewrite assert_passes; [by apply (Hidx O)|].
    apply lookup_lt_Some in He. apply Z.ltb_lt. lia.
  - intros e He. rewrite last_lookup in He.
    pose proof (lookup_lt_Some _ _ _ He) as Hlt.
    unfold back. rewrite assert_passes by (apply Z.ltb_lt; lia).
    rewrite size_t_wrap_small by lia.
    replace (m_size v - 1) with (Z.of_nat (Nat.pred (length es))) by lia.
    by apply Hidx.
Qed.

(** ** clear, the destructor and the lifetime of the elements *)

Lemma destroy_loop_returns CAPACITY v :
  wf CAPACITY v → is_trivially_destructible = false →
  returns
    (for_loop (Z.to_nat (m_size v)) 0 Z.succ (λ i st, destroy_at st i)
       (m_storage v))
    (λ st, length st = length (m_storage v) ∧
           (∀ i, 0 ≤ i < m_size v → slot_at st i = Some Raw) ∧
           (∀ i, m_size v ≤ i → slot_at st i = slot_at (m_storage v) i)).
Proof.
  intros Hwf Htd. pose proof Hwf as [Hst Hsz _].
  apply (for_loop_returns
    (λ k st, length st = length (m_storage v) ∧
             (∀ i, 0 ≤ i < Z.of_nat k → slot_at st i = Some Raw) ∧
             (∀ i, Z.of_nat k ≤ i →
                   slot_at st i = slot_at (m_storage v) i))).
  - split_and!; try done. intros i Hi. lia.
  - intros k st Hk (Hlen & Hraw & Hsame). rewrite iter_succ, Z.add_0_l.
    destruct (wf_slot CAPACITY v (Z.of_nat k) Hwf) as [e He]; [lia|].
    eapply returns_destroy_at; [by rewrite Hsame|]. rewrite Htd.
    split; [by rewrite length_set_slot|]. split.
    + intros i Hi. destruct (decide (i = Z.of_nat k)) as [->|Hne].
      * apply slot_at_set_eq. lia.
      * rewrite slot_at_set_ne by lia. apply Hraw. lia.
    + intros i Hi. rewrite slot_at_set_ne by lia. apply Hsame. lia.
  - intros st (Hlen & Hraw & Hsame). split_and!; try done.
    + intros i Hi. apply Hraw. lia.
    + intros i Hi. apply Hsame. lia.
Qed.

(** X4: [clear] evaluates no assertion and completes on every container;
    the length becomes 0 and the slots at or beyond the old length are not
    touched.  For an element type that is not trivially destructible every
    slot below the old length has had its object destroyed; for a
    trivially destructible one the storage is left as it was. *)
Theorem clear_destroys_the_elements CAPACITY v :
  wf CAPACITY v →
  log (clear v) = [] ∧
  returns (clear v)
    (λ v', size v' = 0 ∧ wf CAPACITY v' ∧
           (∀ i, m_size v ≤ i →
                 slot_at (m_storage v') i = slot_at (m_storage v) i) ∧
           if is_trivially_destructible then m_storage v' = m_storage v
           else ∀ i, 0 ≤ i < m_size v →
                     slot_at (m_storage v') i = Some Raw).
Proof.
  intros Hwf. pose proof Hwf as [Hst Hsz _]. split; [apply log_clear|].
  unfold clear. apply returns_bind.
  destruct is_trivially_destructible eqn:Htd; simpl.
  - apply returns_ret, returns_ret. split_and!; try done.
    split; simpl; [done | lia |]. exists []. by split.
  - eapply returns_mono; [by apply (destroy_loop_returns CAPACITY)|].
    intros st (Hlen & Hraw & Hsame). apply returns_ret. simpl.
    split_and!; try done.
    split; simpl; [by rewrite Hlen | lia |]. exists []. by split.
Qed.

Lemma clear_destroys_live CAPACITY v :
  wf CAPACITY v → is_trivially_destructible = false →
  no_object_beyond_length v →
  returns (clear v)
    (λ v', wf CAPACITY v' ∧ no_object_beyond_length v' ∧ m_size v' = 0).
Proof.
  intros Hwf Htd Hbeyond. pose proof Hwf as [Hst Hsz _]. unfold clear.
  apply returns_bind. rewrite Htd. simpl.
  eapply returns_mono; [by apply (destroy_loop_returns CAPACITY)|].
  intros st (Hlen & Hraw & Hsame). apply returns_ret. simpl.
  split_and!; try done.
  - split; simpl; [by rewrite Hlen | lia |]. exists []. by split.
  - intros i Hi Hsome. simpl in *.
    destruct (slot_at st i) as [s|] eqn:Hs; [|done].
    pose proof (slot_at_Some _ _ _ Hs) as Hrange. rewrite <- Hs.
    destruct (decide (i < m_size v)) as [Hlt|Hge]; [apply Hraw; lia|].
    rewrite Hsame by lia. apply Hbeyond; [lia|].
    rewrite <- Hsame by lia. congruence.
Qed.

Lemma pop_back_out CAPACITY v es e :
  valid_capacity CAPACITY → wf CAPACITY v → represents v (es ++ [e]) →
  out (pop_back NDEBUG v) =
  Done (e, {| m_storage :=
                (if is_trivially_destructible
                 then set_slot (m_storage v) (m_size v - 1)
                        (Obj (moved_from e))
                 else set_slot
                        (set_slot (m_storage v) (m_size v - 1)
                           (Obj (moved_from e)))
                        (m_size v - 1) Raw);
              m_size := m_size v - 1 |}).
Proof.
  intros [Hc0 Hc] [Hst Hsz _] [Hn Hes].
  rewrite length_app in Hn. simpl in Hn. unfold pop_back.
  rewrite assert_passes by (apply Z.ltb_lt; lia).
  rewrite size_t_wrap_small by lia.
  assert (slot_at (m_storage v) (m_size v - 1) = Some (Obj e)) as Hlast.
  { replace (m_size v - 1) with (Z.of_nat (length es)) by lia.
    apply Hes. by rewrite lookup_app_r, Nat.sub_diag. }
  rewrite out_bind. unfold move_from. rewrite Hlast. simpl.
  rewrite out_bind. unfold destroy_at.
  rewrite slot_at_set_eq by lia. by destruct is_trivially_destructible.
Qed.

Lemma push_back_keeps_beyond CAPACITY e v es :
  valid_capacity CAPACITY → wf CAPACITY v → represents v es →
  m_size v < CAPACITY → no_object_beyond_length v →
  returns (push_back NDEBUG CAPACITY e v)
    (λ v', wf CAPACITY v' ∧ represents v' (es ++ [e]) ∧
           no_object_beyond_length v').
Proof.
  intros Hc Hwf Hrep Hlt Hbeyond. pose proof Hwf as [_ Hsz _].
  eapply returns_mono; [by apply (push_back_returns CAPACITY e v es)|].
  intros v' (Hv' & Hr' & Hst'). split_and!; try done.
  intros i Hi Hsome. destruct Hr' as [Hn' _], Hrep as [Hn _].
  rewrite length_app in Hn'. simpl in Hn'.
  rewrite Hst' in Hsome |- *.
  rewrite slot_at_set_ne in Hsome |- * by lia.
  apply Hbeyond; [lia | done].
Qed.

Lemma push_back_n_keeps_beyond CAPACITY count e v :
  valid_capacity CAPACITY → wf CAPACITY v →
  m_size v + count ≤ CAPACITY → no_object_beyond_length v →
  returns (push_back_n NDEBUG CAPACITY count e v)
    (λ v', wf CAPACITY v' ∧ no_object_beyond_length v').
Proof.
  intros Hc Hwf Hfit Hbeyond. unfold push_back_n.
  apply (for_loop_returns
    (λ k w, wf CAPACITY w ∧ no_object_beyond_length w ∧
            m_size w = m_size v + Z.of_nat k)).
  - split_and!; try done. lia.
  - intros k w Hk (Hw & Hb & Hm). pose proof Hw as [_ _ [ws Hws]].
    eapply returns_mono;
      [apply (push_back_keeps_beyond CAPACITY e w ws); (done || lia)|].
    intros w' (Hw' & Hr' & Hb'). split_and!; try done.
    destruct Hr' as [-> _], Hws as [Hn _]. rewrite length_app. simpl. lia.
  - by intros w (Hw & Hb & _).
Qed.

(** X5: for an element type that is not trivially destructible the
    default constructor, [push_back], [emplace_back], [pop_back], [clear],
    [assign] (of a value that is not an object of the container),
    [reserve] and [shrink_to_fit] keep every slot at or beyond the length
    free of objects, and on such a container the destructor leaves no
    object in the storage. *)
Theorem removed_elements_are_destroyed CAPACITY :
  is_trivially_destructible = false → valid_capacity CAPACITY →
  no_object_beyond_length (StaticVector_default CAPACITY) ∧
  (∀ op v, destroys_what_it_removes op = true →
     wf CAPACITY v → no_object_beyond_length v →
     precondition CAPACITY op v →
     returns (run NDEBUG CAPACITY op v)
       (λ v', wf CAPACITY v' ∧ no_object_beyond_length v')) ∧
  (∀ v, wf CAPACITY v → no_object_beyond_length v →
     returns (StaticVector_destructor v) (Forall (λ s, s = Raw))).
Proof.
  intros Htd Hc. split; [|split].
  - intros i Hi Hsome. unfold StaticVector_default, UninitializedArray in *.
    simpl in *. unfold constructor_and_destructor_are_cheap in *.
    rewrite Htd, andb_false_r in *.
    unfold slot_at in *. destruct (0 <=? i); [|done].
    destruct (replicate _ _ !! _) as [s|] eqn:Hs; [|done].
    by apply lookup_replicate in Hs as [-> _].
  - intros op v Hop Hwf Hbeyond Hpre. pose proof Hwf as [Hst Hsz [es Hes]].
    destruct op; try discriminate Hop; simpl in Hpre |- *.
    + eapply returns_mono;
        [by apply (push_back_keeps_beyond CAPACITY e v es)|].
      by intros v' (Hv' & _ & Hb').
    + eapply returns_mono;
        [by apply (push_back_keeps_beyond CAPACITY e v es)|].
      by intros v' (Hv' & _ & Hb').
    + destruct (wf_nonempty CAPACITY v Hwf Hpre) as (es' & e & Hes').
      apply returns_fmap.
      pose proof (pop_back_returns CAPACITY v es' e Hc Hwf Hes') as Hret.
      pose proof (pop_back_out CAPACITY v es' e Hc Hwf Hes') as Hout.
      unfold returns in *. rewrite Hout in *. simpl in *.
      destruct Hret as (_ & Hw' & _). split; [done|].
      rewrite Htd. unfold no_object_beyond_length. simpl. intros i Hi Hsome.
      destruct (decide (i = m_size v - 1)) as [->|Hne].
      * apply slot_at_set_eq. rewrite length_set_slot. lia.
      * rewrite !slot_at_set_ne in Hsome |- * by lia.
        apply Hbeyond; [lia | done].
    + eapply returns_mono; [by apply (clear_destroys_live CAPACITY v)|].
      by intros v' (Hv' & Hb' & _).
    + unfold assign.
      apply returns_bind, returns_assert; [apply Z.leb_le; lia|].
      apply returns_bind.
      eapply returns_mono; [by apply (clear_destroys_live CAPACITY v)|].
      intros w (Hw & Hb & Hm). simpl.
      apply push_back_n_keeps_beyond; (done || lia).
    + unfold reserve. apply returns_bind, returns_assert;
        [by apply Z.leb_le|].
      by apply returns_ret.
    + by apply returns_ret.
  - intros v Hwf Hbeyond. unfold StaticVector_destructor. rewrite Htd. simpl.
    eapply returns_mono; [by apply (destroy_loop_returns CAPACITY)|].
    intros st (Hlen & Hraw & Hsame). apply Forall_lookup. intros i s Hs.
    rewrite <- slot_at_lookup in Hs.
    destruct (decide (Z.of_nat i < m_size v)) as [Hlt|Hge].
    + rewrite Hraw in Hs by lia. congruence.
    + rewrite Hsame in Hs by lia.
      rewrite (Hbeyond (Z.of_nat i)) in Hs; [congruence | lia | congruence].
Qed.

(** ** assign and the filling constructor *)

Lemma push_back_from_inside_returns CAPACITY i e v es :
  valid_capacity CAPACITY → wf CAPACITY v → represents v es →
  m_size v < CAPACITY →
  slot_at (m_storage v) i = Some (Obj e) → i ≠ m_size v →
  returns (push_back_from NDEBUG CAPACITY (inside i) v)
    (λ v', wf CAPACITY v' ∧ represents v' (es ++ [e]) ∧
           m_storage v' = set_slot (m_storage v) (m_size v) (Obj e)).
Proof.
  intros [Hc0 Hc] [Hst Hsz _] Hes Hlt Hslot Hne. unfold push_back_from.
  apply returns_bind, returns_assert; [by apply Z.ltb_lt|].
  apply returns_bind. rewrite decide_False by done.
  eapply returns_load; [done|].
  apply returns_bind, returns_construct_at; [lia|].
  apply returns_ret. rewrite size_t_wrap_small by lia.
  assert (represents
            {| m_storage := set_slot (m_storage v) (m_size v) (Obj e);
               m_size := m_size v + 1 |} (es ++ [e])) as Hrep.
  { apply represents_snoc; [done | lia]. }
  split; [|done]. split; simpl; [by rewrite length_set_slot | lia | eauto].
Qed.

(** [clear] leaves an object where it was when the element type is
    trivially destructible or the object lies at or beyond the length. *)
Lemma clear_keeps_object CAPACITY v i e :
  wf CAPACITY v → slot_at (m_storage v) i = Some (Obj e) →
  is_trivially_destructible = true ∨ m_size v ≤ i →
  returns (clear v)
    (λ w, wf CAPACITY w ∧ represents w [] ∧
          slot_at (m_storage w) i = Some (Obj e)).
Proof.
  intros Hwf Hslot [Htd|Hge].
  - pose proof Hwf as [Hst Hsz _]. unfold clear. rewrite Htd. simpl.
    apply returns_bind, returns_ret, returns_ret.
    assert (represents {| m_storage := m_storage v; m_size := 0 |} [])
      by (by split).
    split_and!; try done. split; simpl; [done | lia | eauto].
  - eapply returns_mono; [by apply (clear_returns CAPACITY)|].
    intros w (Hw & Hrep & _ & Hsame). split_and!; try done.
    by rewrite Hsame.
Qed.

Lemma assign_from_inside_returns CAPACITY count i e v :
  valid_capacity CAPACITY → wf CAPACITY v → 0 ≤ count ≤ CAPACITY →
  slot_at (m_storage v) i = Some (Obj e) → count ≤ i →
  is_trivially_destructible = true ∨ m_size v ≤ i →
  returns (assign NDEBUG CAPACITY count (inside i) v)
    (λ v', wf CAPACITY v' ∧ represents v' (replicate (Z.to_nat count) e)).
Proof.
  intros Hc Hwf Hcount Hslot Hi Hkeep. unfold assign.
  apply returns_bind, returns_assert; [apply Z.leb_le; lia|].
  apply returns_bind.
  eapply returns_mono; [by apply (clear_keeps_object CAPACITY v i e)|].
  intros w (Hw & Hrep & Hsl).
  apply (for_loop_returns
    (λ k w', wf CAPACITY w' ∧ represents w' (replicate k e) ∧
             slot_at (m_storage w') i = Some (Obj e))).
  - done.
  - intros k w' Hk (Hw' & Hrep' & Hsl').
    pose proof Hrep' as [Hn' _]. rewrite length_replicate in Hn'.
    eapply returns_mono;
      [apply (push_back_from_inside_returns CAPACITY i e w' _ Hc Hw' Hrep');
         (done || lia)|].
    intros w'' (Hw'' & Hrep'' & Hst''). split; [done|]. split.
    + by rewrite replicate_S_end.
    + rewrite Hst''. by rewrite slot_at_set_ne by lia.
  - by intros w' (? & ? & _).
Qed.

Lemma assign_from_destroyed CAPACITY count i v :
  is_trivially_destructible = false → wf CAPACITY v →
  0 < count ≤ CAPACITY → 0 ≤ i < m_size v →
  out (assign NDEBUG CAPACITY count (inside i) v) = Undefined.
Proof.
  intros Htd Hwf Hcount Hi. unfold assign.
  rewrite assert_passes by (apply Z.leb_le; lia). rewrite out_bind.
  assert (returns (clear v)
            (λ w, m_size w = 0 ∧ slot_at (m_storage w) i = Some Raw)) as Hcl.
  { unfold clear. rewrite Htd. simpl. apply returns_bind.
    eapply returns_mono; [by apply (destroy_loop_returns CAPACITY)|].
    intros st (Hlen & Hraw & _). apply returns_ret. simpl.
    split; [done | by apply Hraw]. }
  apply returns_Done in Hcl as (w & -> & Hm & Hraw).
  destruct (Z.to_nat count) as [|n] eqn:Hn; [lia|]. simpl for_loop.
  rewrite out_bind, assert_passes by (apply Z.ltb_lt; lia).
  rewrite out_bind. case_decide; [done|]. unfold load. by rewrite Hraw.
Qed.

(** X3: [assign(count, value)] with [count <= CAPACITY] and a [value] that
    is not an object of the container discards what the container held and
    leaves [count] copies of [value]; the constructor
    [StaticVector(count, value)] builds the same sequence.  [value] is a
    reference that is read after [clear()]: when it names an object of the
    container that [clear()] does not destroy (the element type is
    trivially destructible, or the object lies at or beyond the length)
    and that lies behind the [count] slots the call fills, the container is
    left with [count] copies of that object; when it names an element of a
    container whose element type is not trivially destructible, that
    element has been destroyed when it is read, and the call has no
    defined behaviour. *)
Theorem assign_and_fill CAPACITY count v :
  valid_capacity CAPACITY → wf CAPACITY v → 0 ≤ count ≤ CAPACITY →
  (∀ e,
     returns (assign NDEBUG CAPACITY count (outside e) v)
       (λ v', wf CAPACITY v' ∧ size v' = count ∧
              represents v' (replicate (Z.to_nat count) e)) ∧
     returns (StaticVector_fill NDEBUG CAPACITY count e)
       (λ v', wf CAPACITY v' ∧ size v' = count ∧
              represents v' (replicate (Z.to_nat count) e))) ∧
  (∀ i e,
     slot_at (m_storage v) i = Some (Obj e) → count ≤ i →
     is_trivially_destructible = true ∨ m_size v ≤ i →
     returns (assign NDEBUG CAPACITY count (inside i) v)
       (λ v', wf CAPACITY v' ∧ size v' = count ∧
              represents v' (replicate (Z.to_nat count) e))) ∧
  (∀ i,
     is_trivially_destructible = false → 0 ≤ i < m_size v → 0 < count →
     out (assign NDEBUG CAPACITY count (inside i) v) = Undefined).
Proof.
  intros Hc Hwf Hcount.
  assert (∀ e (v' : StaticVector Element),
            wf CAPACITY v' ∧ represents v' (replicate (Z.to_nat count) e) →
            wf CAPACITY v' ∧ size v' = count ∧
            represents v' (replicate (Z.to_nat count) e)) as Hsize.
  { intros e v' [Hv' Hr]. split_and!; try done.
    unfold size. destruct Hr as [-> _]. rewrite length_replicate. lia. }
  split_and!.
  - intros e. split.
    + eapply returns_mono; [by apply assign_returns | apply Hsize].
    + eapply returns_mono; [by apply fill_returns | apply Hsize].
  - intros i e Hslot Hi Hkeep.
    eapply returns_mono; [by apply assign_from_inside_returns | apply Hsize].
  - intros i Htd Hi Hpos. apply assign_from_destroyed; (done || lia).
Qed.

(** ** Element types with trivial construction and destruction *)

Lemma ensures_ret {A : Type} (a : A) (Q : A → Prop) : Q a → ensures (mret a) Q.
Proof. done. Qed.

Lemma ensures_undefined {A : Type} (Q : A → Prop) : ensures undefined Q.
Proof. done. Qed.

Lemma ensures_bind {A B : Type} (m : M A) (f : A → M B) (Q : B → Prop) :
  ensures m (λ a, ensures (f a) Q) → ensures (m ≫= f) Q.
Proof. unfold ensures. rewrite out_bind. by destruct (out m). Qed.

Lemma ensures_fmap {A B : Type} (g : A → B) (m : M A) (Q : B → Prop) :
  ensures m (λ a, Q (g a)) → ensures (g <$> m) Q.
Proof. unfold ensures. rewrite out_fmap. by destruct (out m). Qed.

Lemma ensures_mono {A : Type} (m : M A) (P Q : A → Prop) :
  ensures m P → (∀ a, P a → Q a) → ensures m Q.
Proof. unfold ensures. destruct (out m); auto. Qed.

Lemma ensures_always {A : Type} (m : M A) (Q : A → Prop) :
  (∀ a, Q a) → ensures m Q.
Proof. intros HQ. unfold ensures. by destruct (out m). Qed.

Lemma ensures_for_loop {S : Type} (P : S → Prop) n i next body (s : S) :
  (∀ i s, P s → ensures (body i s) P) → P s →
  ensures (for_loop n i next body s) P.
Proof.
  intros Hbody. revert i s. induction n as [|n IH]; intros i s Hs; simpl.
  - by apply ensures_ret.
  - apply ensures_bind. eapply ensures_mono; [by apply Hbody|].
    intros s' Hs'. by apply IH.
Qed.

Lemma completes_and_ensures {A : Type} (m : M A) (Q R : A → Prop) (U : Prop) :
  completes_or_undefined m Q U → ensures m R →
  completes_or_undefined m (λ a, Q a ∧ R a) U.
Proof. unfold completes_or_undefined, ensures. by destruct (out m). Qed.

Lemma constructed_set_slot st i e :
  Forall is_Obj st → Forall is_Obj (set_slot st i (Obj e)).
Proof. intros Hst. apply Forall_insert; [done|]. by exists e. Qed.

Lemma constructed_slot st i s :
  Forall is_Obj st → slot_at st i = Some s → is_Obj s.
Proof.
  intros Hst Hs. unfold slot_at in Hs. destruct (0 <=? i); [|done].
  by eapply Forall_lookup_1.
Qed.

Lemma constructed_construct_at st i e :
  Forall is_Obj st → ensures (construct_at st i e) (Forall is_Obj).
Proof.
  intros Hst. unfold construct_at. destruct (slot_at st i); [|done].
  by apply ensures_ret, constructed_set_slot.
Qed.

Lemma constructed_assign_at st i e :
  Forall is_Obj st → ensures (assign_at st i e) (Forall is_Obj).
Proof.
  intros Hst. unfold assign_at. destruct (slot_at st i) as [[]|]; try done.
  by apply ensures_ret, constructed_set_slot.
Qed.

Lemma constructed_move_from st i :
  Forall is_Obj st → ensures (move_from st i) (λ r, Forall is_Obj r.2).
Proof.
  intros Hst. unfold move_from. destruct (slot_at st i) as [[]|]; try done.
  by apply ensures_ret, constructed_set_slot.
Qed.

Lemma constructed_move_assign_at st dst src :
  Forall is_Obj st → ensures (move_assign_at st dst src) (Forall is_Obj).
Proof.
  intros Hst. unfold move_assign_at. apply ensures_bind.
  eapply ensures_mono; [by apply constructed_move_from|].
  intros [e st1] Hst1. by apply constructed_assign_at.
Qed.

Lemma constructed_destroy_at st i :
  is_trivially_destructible = true →
  Forall is_Obj st → ensures (destroy_at st i) (Forall is_Obj).
Proof.
  intros Htd Hst. unfold destroy_at. rewrite Htd.
  by destruct (slot_at st i) as [[]|].
Qed.

Lemma constructed_push_back CAPACITY e v :
  all_constructed v → ensures (push_back NDEBUG CAPACITY e v) all_constructed.
Proof.
  intros Hv. unfold push_back. apply ensures_bind, ensures_always. intros _.
  apply ensures_bind.
  eapply ensures_mono; [by apply constructed_construct_at|].
  intros st Hst. by apply ensures_ret.
Qed.

Lemma constructed_clear v :
  is_trivially_destructible = true →
  all_constructed v → ensures (clear v) all_constructed.
Proof.
  intros Htd Hv. unfold clear. rewrite Htd. simpl.
  by apply ensures_bind, ensures_ret, ensures_ret.
Qed.

Lemma constructed_push_back_n CAPACITY count e v :
  all_constructed v →
  ensures (push_back_n NDEBUG CAPACITY count e v) all_constructed.
Proof.
  intros Hv. apply ensures_for_loop; [|done].
  intros i w Hw. by apply constructed_push_back.
Qed.

Lemma constructed_copy_elements CAPACITY other v :
  all_constructed v →
  ensures (copy_elements NDEBUG CAPACITY other v) all_constructed.
Proof.
  intros Hv. apply ensures_for_loop; [|done].
  intros i w Hw. apply ensures_bind, ensures_always. intros e.
  by apply constructed_push_back.
Qed.

Lemma constructed_move_elements CAPACITY other v :
  all_constructed v →
  ensures (move_elements NDEBUG CAPACITY other v)
    (λ r, all_constructed r.2).
Proof.
  intros Hv.
  apply (ensures_for_loop
    (λ r : StaticVector Element * StaticVector Element,
       all_constructed r.2)); [|done].
  intros i [o w] Hw. simpl in Hw.
  apply ensures_bind, ensures_always. intros [e st]. apply ensures_bind.
  eapply ensures_mono; [by apply constructed_push_back|].
  intros w' Hw'. by apply ensures_ret.
Qed.

Lemma constructed_index_assign v i e :
  all_constructed v → ensures (index_assign v i e) all_constructed.
Proof.
  intros Hv. unfold index_assign. apply ensures_bind.
  eapply ensures_mono; [by apply constructed_assign_at|].
  intros st Hst. by apply ensures_ret.
Qed.

Lemma constructed_erase first last v :
  all_constructed v →
  ensures (erase NDEBUG first last v) (λ r, all_constructed r.2).
Proof.
  intros Hv. unfold erase. apply ensures_bind.
  assert (ensures (std_move (m_storage v) last (end_ v) first)
            (Forall is_Obj)) as Hmove.
  { unfold std_move. destruct (_ || _); [done|].
    apply ensures_for_loop; [|done].
    intros i st Hst. by apply constructed_move_assign_at. }
  eapply ensures_mono; [exact Hmove|].
  intros st Hst. apply ensures_bind, ensures_always. intros _.
  by apply ensures_ret.
Qed.

Lemma constructed_erase_const first last v :
  all_constructed v →
  ensures (erase_const NDEBUG first last v) (λ r, all_constructed r.2).
Proof.
  intros Hv. unfold erase_const. apply ensures_bind.
  assert (ensures (std_move_const (m_storage v) last (cend v)
                     (begin_ v + (first - cbegin v)))
            (Forall is_Obj)) as Hmove.
  { unfold std_move_const. destruct (_ || _); [done|].
    apply ensures_for_loop; [|done].
    intros i st Hst. unfold copy_assign_at.
    apply ensures_bind, ensures_always. intros e.
    by apply constructed_assign_at. }
  eapply ensures_mono; [exact Hmove|].
  intros st Hst. apply ensures_bind, ensures_always. intros _.
  by apply ensures_ret.
Qed.

Lemma constructed_insert CAPACITY pos e v :
  all_constructed v →
  ensures (insert NDEBUG CAPACITY pos (outside e) v)
    (λ r, all_constructed r.2).
Proof.
  intros Hv. unfold insert. cbn [index_assign_from].
  apply ensures_bind, ensures_always. intros _.
  apply ensures_bind, ensures_always. intros _.
  apply ensures_bind.
  assert (ensures (shift_right (size_t_wrap (pos - cbegin v)) v)
            all_constructed) as Hshift.
  { unfold shift_right. apply ensures_for_loop; [|done].
    intros i w Hw. apply ensures_bind.
    eapply ensures_mono; [by apply constructed_move_assign_at|].
    intros st Hst. by apply ensures_ret. }
  eapply ensures_mono; [exact Hshift|].
  intros w Hw. apply ensures_bind.
  eapply ensures_mono; [by apply constructed_index_assign|].
  intros w' Hw'. by apply ensures_ret.
Qed.

Lemma constructed_run CAPACITY op v :
  is_trivially_destructible = true → all_constructed v →
  ensures (run NDEBUG CAPACITY op v) all_constructed.
Proof.
  intros Htd Hv. destruct op; simpl.
  - by apply constructed_push_back.
  - by apply constructed_push_back.
  - apply ensures_fmap. unfold pop_back.
    apply ensures_bind, ensures_always. intros _. apply ensures_bind.
    eapply ensures_mono; [by apply constructed_move_from|].
    intros [tmp st1] Hst1. apply ensures_bind.
    eapply ensures_mono; [by apply constructed_destroy_at|].
    intros st2 Hst2. by apply ensures_ret.
  - unfold resize. apply ensures_bind, ensures_always. intros _.
    destruct (m_size v <? count); [|by apply ensures_ret].
    apply ensures_for_loop; [|done].
    intros i w Hw. by apply constructed_index_assign.
  - apply ensures_fmap. by apply constructed_insert.
  - apply ensures_fmap. by apply constructed_insert.
  - apply ensures_fmap. by apply constructed_erase.
  - apply ensures_fmap. by apply constructed_erase_const.
  - apply ensures_fmap. by apply constructed_erase.
  - apply ensures_fmap. by apply constructed_erase_const.
  - by apply constructed_clear.
  - unfold assign. apply ensures_bind, ensures_always. intros _.
    apply ensures_bind.
    eapply ensures_mono; [by apply constructed_clear|].
    intros w Hw. by apply constructed_push_back_n.
  - unfold reserve. apply ensures_bind, ensures_always. intros _.
    by apply ensures_ret.
  - by apply ensures_ret.
  - unfold copy_assign_cross. apply ensures_bind, ensures_always. intros _.
    apply ensures_bind.
    eapply ensures_mono; [by apply constructed_clear|].
    intros w Hw. by apply constructed_copy_elements.
  - apply ensures_fmap. unfold move_assign_cross.
    apply ensures_bind, ensures_always. intros _. apply ensures_bind.
    eapply ensures_mono; [by apply constructed_clear|].
    intros w Hw. by apply constructed_move_elements.
Qed.

(** X6: for an element type that is trivially default constructible and
    trivially destructible, the storage is an array of objects from the
    start and stays one: every slot of a default-constructed container
    holds an object, and every operation called within its precondition
    (with a value that is not an object of the container) completes, keeps
    the invariant of the container and leaves every slot holding an
    object.  In particular [resize] and [insert] complete on every such
    call.  The one exception is [erase] of an empty range before
    [end()]. *)
Theorem trivial_elements_always_constructed CAPACITY :
  constructor_and_destructor_are_cheap = true → valid_capacity CAPACITY →
  all_constructed (StaticVector_default CAPACITY) ∧
  ∀ op v, wf CAPACITY v → all_constructed v → precondition CAPACITY op v →
    completes_or_undefined (run NDEBUG CAPACITY op v)
      (λ v', wf CAPACITY v' ∧ all_constructed v')
      (match op with
       | Erase first last | EraseConst first last =>
           first = last ∧ last < end_ v
       | _ => False
       end).
Proof.
  intros Hcheap Hc.
  pose proof Hcheap as Htd. unfold constructor_and_destructor_are_cheap in Htd.
  apply andb_true_iff in Htd as [_ Htd]. split.
  - unfold all_constructed, StaticVector_default, UninitializedArray. simpl.
    rewrite Hcheap. apply Forall_replicate. by eexists.
  - intros op v Hwf Hv Hpre.
    eapply completes_mono;
      [apply completes_and_ensures;
         [by apply run_preserves_wf | by apply constructed_run]
      | done |].
    assert (∀ i, slot_at (m_storage v) i = Some Raw → False) as Hno_raw.
    { intros i Hraw. apply (constructed_slot _ _ _ Hv) in Hraw.
      by destruct Hraw. }
    destruct op; simpl; try done.
    + intros (i & _ & Hraw). by apply (Hno_raw i).
    + apply Hno_raw.
    + apply Hno_raw.
Qed.

(** ** The sequences that insert, erase and resize produce *)

Lemma insert_puts_sequence CAPACITY pos value v es e0 :
  valid_capacity CAPACITY → wf CAPACITY v → represents v es →
  m_size v < CAPACITY → begin_ v ≤ pos ≤ end_ v →
  slot_at (m_storage v) (m_size v) = Some (Obj e0) →
  returns (insert NDEBUG CAPACITY pos (outside value) v)
    (λ r, r.1 = pos ∧ wf CAPACITY r.2 ∧ m_size r.2 = m_size v + 1 ∧
          represents r.2
            (take (Z.to_nat pos) es ++ value :: drop (Z.to_nat pos) es)).
Proof.
  intros Hc Hwf Hrep Hlt Hpos Hslot.
  pose proof (insert_cases CAPACITY pos value v es Hc Hwf Hrep Hlt Hpos)
    as Hins.
  unfold completes_or_undefined, returns in *.
  destruct (out (insert NDEBUG CAPACITY pos (outside value) v));
    [done | done |].
  congruence.
Qed.

Lemma returns_and {A : Type} (m : M A) (P Q : A → Prop) :
  returns m P → returns m Q → returns m (λ a, P a ∧ Q a).
Proof. unfold returns. by destruct (out m). Qed.

(** After the shift the slot at [idx] holds the object the last step has
    moved from, or, when nothing was shifted, what the slot at the length
    held. *)
Lemma shift_right_at_idx v es idx e0 :
  represents v es → 0 ≤ idx ≤ m_size v → m_size v ≤ SIZE_MAX →
  slot_at (m_storage v) (m_size v) = Some (Obj e0) →
  returns (shift_right idx v)
    (λ w, slot_at (m_storage w) idx
          = Some (Obj (default e0 (moved_from <$> es !! Z.to_nat idx)))).
Proof.
  intros Hrep Hidx Hmax Hend. pose proof Hrep as [Hn Hes]. unfold shift_right.
  apply (for_loop_returns
    (λ k w, slot_at (m_storage w) (m_size v - Z.of_nat k)
            = Some (Obj (default e0
                           (moved_from <$>
                            es !! Z.to_nat (m_size v - Z.of_nat k)))) ∧
            (∀ j, j < m_size v - Z.of_nat k →
               slot_at (m_storage w) j = slot_at (m_storage v) j))).
  - rewrite Z.sub_0_r. split; [|done].
    by rewrite Hend, lookup_ge_None_2 by lia.
  - intros k w Hk (Hdst & Hlo). rewrite iter_pred.
    rewrite size_t_wrap_small by lia.
    destruct (represents_slot_Z v es (m_size v - Z.of_nat k - 1) Hrep)
      as (e & He & Hsrc); [lia|].
    rewrite <- Hlo in Hsrc by lia.
    apply returns_bind.
    eapply returns_move_assign_at; [lia | exact Hsrc | exact Hdst |].
    apply returns_ret. simpl.
    replace (m_size v - Z.of_nat (S k)) with (m_size v - Z.of_nat k - 1)
      by lia.
    split.
    + rewrite slot_at_set_ne by lia.
      rewrite slot_at_set_eq by (apply slot_at_Some in Hsrc; lia).
      by rewrite He.
    + intros j Hj. rewrite !slot_at_set_ne by lia. apply Hlo. lia.
  - intros w (Hdst & _).
    by replace (m_size v - Z.of_nat (Z.to_nat (m_size v - idx))) with idx
      in Hdst by lia.
Qed.

(** The container once the slot at [pos] has received [y] after the
    shift. *)
Lemma represents_insert_at CAPACITY pos y v es w :
  valid_capacity CAPACITY → wf CAPACITY v → represents v es →
  m_size v < CAPACITY → 0 ≤ pos ≤ m_size v →
  length (m_storage w) = length (m_storage v) →
  (∀ j, pos < j ≤ m_size v →
     ∃ e, es !! Z.to_nat (j - 1) = Some e ∧
          slot_at (m_storage w) j = Some (Obj e)) →
  (∀ j, j < pos → slot_at (m_storage w) j = slot_at (m_storage v) j) →
  wf CAPACITY {| m_storage := set_slot (m_storage w) pos (Obj y);
                 m_size := m_size v + 1 |} ∧
  represents {| m_storage := set_slot (m_storage w) pos (Obj y);
                m_size := m_size v + 1 |}
    (take (Z.to_nat pos) es ++ y :: drop (Z.to_nat pos) es).
Proof.
  intros [Hc0 Hc] [Hst Hsz _] [Hn Hes] Hlt Hpos Hl Hhi Hlo.
  assert (represents
    {| m_storage := set_slot (m_storage w) pos (Obj y);
       m_size := m_size v + 1 |}
    (take (Z.to_nat pos) es ++ y :: drop (Z.to_nat pos) es)) as Hrep'.
  { split; simpl.
    - rewrite length_app, length_take. simpl. rewrite length_drop. lia.
    - intros i e [He|[Hi He]]%lookup_app_Some.
      + apply lookup_take_Some in He as [He Hi].
        rewrite slot_at_set_ne by lia. rewrite Hlo by lia. by apply Hes.
      + rewrite length_take in Hi, He.
        replace (Z.to_nat pos `min` length es)%nat with (Z.to_nat pos)
          in Hi, He by lia.
        destruct (i - Z.to_nat pos)%nat as [|k] eqn:Hk; simpl in He.
        * injection He as <-. replace (Z.of_nat i) with pos by lia.
          apply slot_at_set_eq. lia.
        * rewrite lookup_drop in He.
          rewrite slot_at_set_ne by lia.
          destruct (Hhi (Z.of_nat i)) as (e' & He' & Hslot).
          { apply lookup_lt_Some in He. lia. }
          replace (Z.to_nat (Z.of_nat i - 1)) with (Z.to_nat pos + k)%nat
            in He' by lia.
          congruence. }
  split; [|done].
  split; simpl; [by rewrite length_set_slot, Hl | lia | eauto].
Qed.

Lemma represents_update CAPACITY v es i z :
  wf CAPACITY v → represents v es → 0 ≤ i →
  wf CAPACITY {| m_storage := set_slot (m_storage v) i (Obj z);
                 m_size := m_size v |} ∧
  represents {| m_storage := set_slot (m_storage v) i (Obj z);
                m_size := m_size v |} (<[Z.to_nat i := z]> es).
Proof.
  intros [Hst Hsz _] [Hn Hes] Hi.
  assert (represents {| m_storage := set_slot (m_storage v) i (Obj z);
                        m_size := m_size v |} (<[Z.to_nat i := z]> es))
    as Hrep.
  { split; simpl; [by rewrite length_insert|].
    intros k e He. destruct (decide (k = Z.to_nat i)) as [->|Hne].
    - pose proof (lookup_lt_Some _ _ _ He) as Hlt.
      rewrite length_insert in Hlt.
      rewrite list_lookup_insert_eq in He by lia. injection He as <-.
      rewrite Z2Nat.id by lia. apply slot_at_set_eq. lia.
    - rewrite list_lookup_insert_ne in He by done.
      rewrite slot_at_set_ne by lia. by apply Hes. }
  split; [|done]. split; simpl; [by rewrite length_set_slot | done | eauto].
Qed.

(** [insert] with a [value] that names the element at index [i] of the
    container: what is inserted is what slot [i] holds after the shift. *)
Lemma insert_inside_returns CAPACITY pos i x v es e0 :
  valid_capacity CAPACITY → wf CAPACITY v → represents v es →
  m_size v < CAPACITY → begin_ v ≤ pos ≤ end_ v →
  slot_at (m_storage v) (m_size v) = Some (Obj e0) →
  0 ≤ i → es !! Z.to_nat i = Some x →
  ∃ y, (i < pos → y = x) ∧
       (i = pos → y = moved_from x) ∧
       (pos < i → es !! Z.to_nat (i - 1) = Some y) ∧
       returns (insert NDEBUG CAPACITY pos (inside i) v)
         (λ r, r.1 = pos ∧ wf CAPACITY r.2 ∧ m_size r.2 = m_size v + 1 ∧
               represents r.2
                 (take (Z.to_nat pos) es ++ y :: drop (Z.to_nat pos) es)) ∧
       returns (insert_rvalue NDEBUG CAPACITY pos (inside i) v)
         (λ r, r.1 = pos ∧ wf CAPACITY r.2 ∧ m_size r.2 = m_size v + 1 ∧
               represents r.2
                 (if decide (i = pos)
                  then take (Z.to_nat pos) es ++
                       moved_from y :: drop (Z.to_nat pos) es
                  else <[Z.to_nat i := moved_from y]>
                         (take (Z.to_nat pos) es ++
                          y :: drop (Z.to_nat pos) es))).
Proof.
  intros Hc Hwf Hrep Hlt Hpos Hslot Hi Hx.
  pose proof Hc as [Hc0 Hcmax]. pose proof Hwf as [Hst Hsz _].
  pose proof Hrep as [Hn Hes]. unfold begin_, end_ in Hpos.
  pose proof (lookup_lt_Some _ _ _ Hx) as Hilt.
  (* the object that slot [i] holds after the shift *)
  assert (∃ y, (i < pos → y = x) ∧ (i = pos → y = moved_from x) ∧
               (pos < i → es !! Z.to_nat (i - 1) = Some y)) as (y & Hy1 & Hy2 & Hy3).
  { destruct (decide (i < pos)); [exists x; split_and!; (done || lia)|].
    destruct (decide (i = pos));
      [exists (moved_from x); split_and!; (done || lia)|].
    destruct (lookup_lt_is_Some_2 es (Z.to_nat (i - 1))) as [y Hy]; [lia|].
    exists y. split_and!; (done || lia). }
  exists y. split; [done|]. split; [done|]. split; [done|].
  assert (returns (shift_right pos v)
    (λ w, m_size w = m_size v ∧
          length (m_storage w) = length (m_storage v) ∧
          (∀ j, pos < j ≤ m_size v →
             ∃ e, es !! Z.to_nat (j - 1) = Some e ∧
                  slot_at (m_storage w) j = Some (Obj e)) ∧
          (∀ j, j < pos → slot_at (m_storage w) j = slot_at (m_storage v) j) ∧
          (∃ ep, slot_at (m_storage w) pos = Some (Obj ep)) ∧
          slot_at (m_storage w) i = Some (Obj y))) as Hshift.
  { eapply returns_mono;
      [apply returns_and;
         [apply (shift_right_returns v es pos e0); (done || lia)
         |apply (shift_right_at_idx v es pos e0); (done || lia)]|].
    intros w [(Hm & Hl & Hhi & Hlo & Hp) Hat]. split_and!; try done.
    - intros j Hj. apply Hlo. lia.
    - destruct (decide (i < pos)) as [Hlo'|Hge].
      + rewrite Hlo by lia. rewrite (Hy1 Hlo').
        rewrite <- (Z2Nat.id i) by lia. by apply Hes.
      + destruct (decide (i = pos)) as [->|Hne].
        * rewrite Hat, Hx. simpl. by rewrite Hy2.
        * destruct (Hhi i) as (e & He & Hs); [lia|].
          rewrite Hy3 in He by lia. by injection He as ->. }
  split.
  - unfold insert, cbegin. cbn [index_assign_from]. rewrite Z.sub_0_r.
    apply returns_bind, returns_assert; [by apply Z.ltb_lt|].
    apply returns_bind, returns_assert; [apply Z.leb_le; lia|].
    rewrite size_t_wrap_small by lia. apply returns_bind.
    eapply returns_mono; [exact Hshift|].
    intros w (Hm & Hl & Hhi & Hlo & [ep Hp] & Hy). simpl.
    apply returns_bind, returns_bind. unfold index.
    eapply returns_load; [exact Hy|]. unfold returns at 1.
    rewrite out_index_assign, Hp. apply returns_ret. simpl.
    rewrite Hm, size_t_wrap_small by lia.
    destruct (represents_insert_at CAPACITY pos y v es w) as [Hw' Hr'];
      (done || lia).
  - unfold insert_rvalue, cbegin. cbn [index_move_assign_from].
    rewrite Z.sub_0_r.
    apply returns_bind, returns_assert; [by apply Z.ltb_lt|].
    apply returns_bind, returns_assert; [apply Z.leb_le; lia|].
    rewrite size_t_wrap_small by lia. apply returns_bind.
    eapply returns_mono; [exact Hshift|].
    intros w (Hm & Hl & Hhi & Hlo & [ep Hp] & Hy). simpl.
    apply returns_bind, returns_bind.
    destruct (decide (i = pos)) as [->|Hne].
    + apply returns_fmap. eapply returns_move_from; [exact Hy|]. simpl.
      apply returns_ret, returns_ret. simpl.
      rewrite Hm, size_t_wrap_small by lia.
      destruct (represents_insert_at CAPACITY pos (moved_from y) v es w)
        as [Hw' Hr']; (done || lia).
    + eapply returns_move_assign_at; [done | exact Hy | exact Hp |].
      apply returns_ret, returns_ret. simpl.
      rewrite Hm, size_t_wrap_small by lia.
      destruct (represents_insert_at CAPACITY pos y v es w) as [Hw' Hr'];
        try (done || lia).
      unfold set_slot.
      rewrite list_insert_insert_ne by lia.
      destruct (represents_update CAPACITY _ _ i (moved_from y) Hw' Hr')
        as [Hw'' Hr'']; [simpl; lia|].
      split_and!; [done | exact Hw'' | done | exact Hr''].
Qed.

(** X7: when the slot at the old length holds an object, [insert(pos,
    value)] with [pos] in [begin(), end()] and room for one more element
    completes, returns [pos] and grows the length by one.  With a [value]
    that is not an object of the container, the container then holds the
    old elements with [value] put in at index [pos], for both overloads.
    [value] is a reference that is read after the elements have been
    shifted: when it names the element at index [i] of the container, what
    is put in at [pos] is what slot [i] holds after the shift - the
    element itself for [i < pos], the element that was at [i - 1] for
    [i > pos], and the moved-from element for [i = pos]; the rvalue
    overload moves from the slot [value] names, which leaves a moved-from
    object in that slot of the result. *)
Theorem insert_puts_value_at_pos CAPACITY pos v es e0 :
  valid_capacity CAPACITY → wf CAPACITY v → represents v es →
  m_size v < CAPACITY → begin_ v ≤ pos ≤ end_ v →
  slot_at (m_storage v) (m_size v) = Some (Obj e0) →
  (∀ value,
     returns (insert NDEBUG CAPACITY pos (outside value) v)
       (λ r, r.1 = pos ∧ wf CAPACITY r.2 ∧ size r.2 = size v + 1 ∧
             represents r.2
               (take (Z.to_nat pos) es ++ value :: drop (Z.to_nat pos) es)) ∧
     returns (insert_rvalue NDEBUG CAPACITY pos (outside value) v)
       (λ r, r.1 = pos ∧ wf CAPACITY r.2 ∧ size r.2 = size v + 1 ∧
             represents r.2
               (take (Z.to_nat pos) es ++ value :: drop (Z.to_nat pos) es))) ∧
  (∀ i x, 0 ≤ i → es !! Z.to_nat i = Some x →
     ∃ y, (i < pos → y = x) ∧
          (i = pos → y = moved_from x) ∧
          (pos < i → es !! Z.to_nat (i - 1) = Some y) ∧
          returns (insert NDEBUG CAPACITY pos (inside i) v)
            (λ r, r.1 = pos ∧ wf CAPACITY r.2 ∧ size r.2 = size v + 1 ∧
                  represents r.2
                    (take (Z.to_nat pos) es ++
                     y :: drop (Z.to_nat pos) es)) ∧
          returns (insert_rvalue NDEBUG CAPACITY pos (inside i) v)
            (λ r, r.1 = pos ∧ wf CAPACITY r.2 ∧ size r.2 = size v + 1 ∧
                  represents r.2
                    (if decide (i = pos)
                     then take (Z.to_nat pos) es ++
                          moved_from y :: drop (Z.to_nat pos) es
                     else <[Z.to_nat i := moved_from y]>
                            (take (Z.to_nat pos) es ++
                             y :: drop (Z.to_nat pos) es)))).
Proof.
  intros Hc Hwf Hrep Hlt Hpos Hslot. split.
  - intros value. split;
      by apply (insert_puts_sequence CAPACITY pos value v es e0).
  - intros i x Hi Hx.
    by apply (insert_inside_returns CAPACITY pos i x v es e0).
Qed.

(** X8: [erase(first, last)] of a non-empty range inside the container, or
    of the empty range at [end()], completes and returns [first]; the
    container holds the old elements without those at the indices from
    [first] up to [last], and the length has shrunk by the size of the
    range.  This holds for both overloads.  They differ in what they leave
    behind the new length: the overload on [iterator] moves the trailing
    elements, so that the slots from [last] on hold moved-from objects;
    the overload on [const_iterator] copies them, so that every slot at or
    beyond the new length holds what it held before. *)
Theorem erase_removes_the_range CAPACITY first last v es :
  valid_capacity CAPACITY → wf CAPACITY v → represents v es →
  begin_ v ≤ first → first ≤ last → last ≤ end_ v →
  first < last ∨ last = end_ v →
  returns (erase NDEBUG first last v)
    (λ r, r.1 = first ∧ wf CAPACITY r.2 ∧
          size r.2 = size v - (last - first) ∧
          represents r.2
            (take (Z.to_nat first) es ++ drop (Z.to_nat last) es) ∧
          ∀ j e, size r.2 ≤ j → last ≤ j → es !! Z.to_nat j = Some e →
                 slot_at (m_storage r.2) j = Some (Obj (moved_from e))) ∧
  returns (erase_const NDEBUG first last v)
    (λ r, r.1 = first ∧ wf CAPACITY r.2 ∧
          size r.2 = size v - (last - first) ∧
          represents r.2
            (take (Z.to_nat first) es ++ drop (Z.to_nat last) es) ∧
          ∀ j, size r.2 ≤ j →
               slot_at (m_storage r.2) j = slot_at (m_storage v) j).
Proof.
  intros Hc Hwf Hrep Hfirst Hle Hlast Hrange. split.
  - pose proof (erase_cases CAPACITY first last v es Hc Hwf Hrep
                  Hfirst Hle Hlast) as Her.
    unfold completes_or_undefined, returns in *.
    destruct (out (erase NDEBUG first last v)) as [r| |]; [|done|lia].
    destruct Her as (H1 & H2 & H3 & H4 & _ & _ & H7).
    split_and!; try done. intros j e Hj Hlj He.
    rewrite (H7 j e Hj He). by rewrite decide_True.
  - pose proof (erase_const_cases CAPACITY first last v es Hc Hwf Hrep
                  Hfirst Hle Hlast) as Her.
    unfold completes_or_undefined, returns in *.
    by destruct (out (erase_const NDEBUG first last v)) as [r| |]; [|done|lia].
Qed.

(** X9: [resize(count)] with [count] at most the length keeps the first
    [count] elements and touches no slot; with [count] above the length,
    and objects in the slots it adds, it keeps all elements and appends
    value-initialised ones. *)
Theorem resize_sequence CAPACITY count v es :
  valid_capacity CAPACITY → wf CAPACITY v → represents v es →
  0 ≤ count ≤ CAPACITY →
  (∀ i, m_size v ≤ i < count → ∃ e, slot_at (m_storage v) i = Some (Obj e)) →
  returns (resize NDEBUG CAPACITY count v)
    (λ v', wf CAPACITY v' ∧ size v' = count ∧
           (count ≤ m_size v →
              m_storage v' = m_storage v ∧
              represents v' (take (Z.to_nat count) es)) ∧
           (m_size v ≤ count →
              represents v'
                (es ++ replicate (Z.to_nat (count - m_size v))
                         Element_default))).
Proof.
  intros Hc Hwf Hrep Hcount Hslots. pose proof Hrep as [Hn _].
  pose proof (resize_cases CAPACITY count v es Hc Hwf Hrep Hcount) as Hres.
  assert (out (resize NDEBUG CAPACITY count v) ≠ Undefined) as Hdef.
  { intros Hout. unfold completes_or_undefined in Hres. rewrite Hout in Hres.
    destruct Hres as (i & Hi & Hraw).
    destruct (Hslots i Hi) as [e He]. congruence. }
  assert (count ≤ m_size v →
          out (resize NDEBUG CAPACITY count v)
          = Done {| m_storage := m_storage v; m_size := count |}) as Hshrink.
  { intros Hle. unfold resize.
    rewrite assert_passes by (apply Z.leb_le; lia).
    by replace (m_size v <? count) with false
      by (symmetry; apply Z.ltb_ge; lia). }
  unfold completes_or_undefined, returns in *.
  destruct (out (resize NDEBUG CAPACITY count v)) as [v'| |] eqn:Hout;
    [|done|done].
  destruct Hres as (Hv' & Hm & Hr & _). split_and!; try done.
  - intros Hle. specialize (Hshrink Hle). injection Hshrink as ->.
    split; [done|].
    replace (Z.to_nat (count - m_size v)) with O in Hr by lia.
    by rewrite app_nil_r in Hr.
  - intros Hge. by rewrite take_ge in Hr by lia.
Qed.

Lemma take_insert_at {A : Type} (l : list A) (n : nat) (x : A) :
  (n ≤ length l)%nat → take n (take n l ++ x :: drop n l) = take n l.
Proof.
  intros Hn. rewrite take_app_le by (rewrite length_take; lia).
  rewrite take_take. f_equal. lia.
Qed.

Lemma drop_insert_at {A : Type} (l : list A) (n : nat) (x : A) :
  (n ≤ length l)%nat → drop (S n) (take n l ++ x :: drop n l) = drop n l.
Proof.
  intros Hn. rewrite drop_app_ge by (rewrite length_take; lia).
  rewrite length_take.
  by replace (S n - n `min` length l)%nat with 1%nat by lia.
Qed.

Lemma insert_puts_some_value CAPACITY pos (value : reference Element)
    v es e0 :
  valid_capacity CAPACITY → wf CAPACITY v → represents v es →
  m_size v < CAPACITY → begin_ v ≤ pos ≤ end_ v →
  slot_at (m_storage v) (m_size v) = Some (Obj e0) →
  (∀ i, value = inside i → 0 ≤ i < size v) →
  returns (insert NDEBUG CAPACITY pos value v)
    (λ r, r.1 = pos ∧ wf CAPACITY r.2 ∧ m_size r.2 = m_size v + 1 ∧
          ∃ y, represents r.2
                 (take (Z.to_nat pos) es ++ y :: drop (Z.to_nat pos) es)).
Proof.
  intros Hc Hwf Hrep Hlt Hpos Hslot Hval. destruct value as [e|i].
  - eapply returns_mono;
      [by apply (insert_puts_sequence CAPACITY pos e v es e0)|].
    intros r (H1 & H2 & H3 & H4). eauto 10.
  - destruct (Hval i eq_refl) as [Hi0 Hi1]. unfold size in Hi1.
    destruct (lookup_lt_is_Some_2 es (Z.to_nat i)) as [x Hx];
      [destruct Hrep; lia|].
    destruct (insert_inside_returns CAPACITY pos i x v es e0)
      as (y & _ & _ & _ & Hins & _); try done.
    eapply returns_mono; [exact Hins|].
    intros r (H1 & H2 & H3 & H4). eauto 10.
Qed.

(** X10: inserting a value at a position - an object outside the
    container or one of its elements - and erasing the element at that
    position again gives back the sequence the container held (when the
    slot at the old length holds an object, so that [insert] is
    defined). *)
Theorem insert_then_erase CAPACITY pos (value : reference Element) v es e0 :
  valid_capacity CAPACITY → wf CAPACITY v → represents v es →
  m_size v < CAPACITY → begin_ v ≤ pos ≤ end_ v →
  slot_at (m_storage v) (m_size v) = Some (Obj e0) →
  (∀ i, value = inside i → 0 ≤ i < size v) →
  returns (r ← insert NDEBUG CAPACITY pos value v; erase_at NDEBUG r.1 r.2)
    (λ r, r.1 = pos ∧ wf CAPACITY r.2 ∧ represents r.2 es).
Proof.
  intros Hc Hwf Hrep Hlt Hpos Hslot Hval. pose proof Hrep as [Hn _].
  unfold begin_, end_ in Hpos. apply returns_bind.
  eapply returns_mono;
    [by apply (insert_puts_some_value CAPACITY pos value v es e0)|].
  intros [p w] (Hp & Hw & Hm & [y Hrw]). simpl in *. subst p.
  unfold erase_at.
  pose proof (erase_cases CAPACITY pos (pos + 1) w _ Hc Hw Hrw) as Her.
  unfold begin_, end_ in Her.
  specialize (Her ltac:(lia) ltac:(lia) ltac:(lia)).
  unfold completes_or_undefined, returns in *.
  destruct (out (erase NDEBUG pos (pos + 1) w)) as [r| |]; [|done|lia].
  destruct Her as (H1 & H2 & _ & H4 & _). split_and!; try done.
  replace (Z.to_nat (pos + 1)) with (S (Z.to_nat pos)) in H4 by lia.
  rewrite take_insert_at, drop_insert_at, take_drop in H4 by lia. done.
Qed.

(** X11: erasing the element at a position and inserting its value there
    again gives back the sequence the container held; the [insert] is
    always defined here, because [erase] leaves an object in the slot at
    the new length. *)
Theorem erase_then_insert CAPACITY pos v es e :
  valid_capacity CAPACITY → wf CAPACITY v → represents v es →
  es !! Z.to_nat pos = Some e → begin_ v ≤ pos →
  returns (r ← erase_at NDEBUG pos v;
           insert NDEBUG CAPACITY r.1 (outside e) r.2)
    (λ r, r.1 = pos ∧ wf CAPACITY r.2 ∧ represents r.2 es).
Proof.
  intros Hc Hwf Hrep He Hpos. pose proof Hrep as [Hn _].
  pose proof Hwf as [_ Hsz _]. unfold begin_ in Hpos.
  pose proof (lookup_lt_Some _ _ _ He) as Hlt.
  apply returns_bind. unfold erase_at.
  pose proof (erase_cases CAPACITY pos (pos + 1) v es Hc Hwf Hrep) as Her.
  unfold begin_, end_ in Her.
  specialize (Her ltac:(lia) ltac:(lia) ltac:(lia)).
  unfold completes_or_undefined in Her. unfold returns at 1.
  destruct (out (erase NDEBUG pos (pos + 1) v)) as [[p w]| |]; [|done|lia].
  simpl in Her. destruct Her as (-> & Hw & Hm & Hrw & Hobj & _). simpl.
  destruct (Hobj (m_size w)) as [e0 Hslot]; [lia|].
  eapply returns_mono;
    [apply (insert_puts_sequence CAPACITY pos e w _ e0 Hc Hw Hrw);
       (done || unfold begin_, end_; lia)|].
  intros r (H1 & H2 & _ & H4). split_and!; try done.
  replace (Z.to_nat (pos + 1)) with (S (Z.to_nat pos)) in H4 by lia.
  rewrite take_app_le in H4 by (rewrite length_take; lia).
  rewrite take_take in H4.
  replace (Z.to_nat pos `min` Z.to_nat pos)%nat with (Z.to_nat pos) in H4
    by lia.
  rewrite drop_app_ge in H4 by (rewrite length_take; lia).
  rewrite length_take in H4.
  replace (Z.to_nat pos - Z.to_nat pos `min` length es)%nat with O in H4
    by lia.
  rewrite drop_0 in H4.
  by rewrite (take_drop_middle es (Z.to_nat pos) e He) in H4.
Qed.

(** ** Copying *)

(** X12: the copy constructor builds a container with the elements of
    the source.  Copy assignment between two objects of a store gives the
    destination the elements of the source and changes no other object,
    the source included; when the two operands are one object the store
    is left as it is. *)
Theorem copy_makes_a_copy CAPACITY (σ : gmap nat (StaticVector Element))
    (this other : nat) (t o : StaticVector Element) es :
  valid_capacity CAPACITY →
  σ !! this = Some t → σ !! other = Some o →
  wf CAPACITY t → wf CAPACITY o → represents o es →
  returns (StaticVector_copy NDEBUG CAPACITY o)
    (λ v', wf CAPACITY v' ∧ represents v' es) ∧
  returns (copy_assign NDEBUG CAPACITY this other σ)
    (λ σ', (∃ t', σ' !! this = Some t' ∧ wf CAPACITY t' ∧ represents t' es) ∧
           σ' !! other = Some o ∧
           (∀ a, a ≠ this → σ' !! a = σ !! a) ∧
           (this = other → σ' = σ)).
Proof.
  intros Hc Ht Ho Hwt Hwo Hes. pose proof Hwo as [_ Hosz _]. split.
  - apply copy_returns; [done | done | lia].
  - unfold copy_assign. case_decide as Hne.
    + unfold with_objects. rewrite Ht, Ho. apply returns_bind.
      eapply returns_mono; [by apply (clear_returns CAPACITY)|].
      intros t1 (Ht1 & Hrep1 & Hn1 & _). simpl. apply returns_bind.
      eapply returns_mono;
        [apply (copy_elements_returns CAPACITY o t1 es [] Hc Hes Ht1 Hrep1);
         lia|].
      intros t2 [Ht2 Hr2]. apply returns_ret. split_and!.
      * exists t2. by rewrite lookup_insert_eq.
      * by rewrite lookup_insert_ne.
      * intros a Ha. by rewrite lookup_insert_ne.
      * done.
    + apply returns_ret. assert (this = other) as ->.
      { destruct (decide (this = other)); [done|]. by destruct Hne. }
      simplify_eq. split_and!; try done. eauto.
Qed.

(** ** A source that does not fit *)

Lemma push_back_full_ndebug CAPACITY e v :
  NDEBUG = true → wf CAPACITY v → m_size v = CAPACITY →
  out (push_back NDEBUG CAPACITY e v) = Undefined.
Proof.
  intros Hnd [Hst Hsz _] Hfull. unfold push_back, assert. rewrite Hnd.
  rewrite !out_bind. simpl. unfold construct_at, slot_at.
  destruct (0 <=? m_size v); [|done].
  by rewrite lookup_ge_None_2 by lia.
Qed.

Lemma copy_loop_overflow_ndebug CAPACITY other es (n : nat) i w ws :
  NDEBUG = true → valid_capacity CAPACITY → represents other es →
  wf CAPACITY w → represents w ws →
  0 ≤ i → i + Z.of_nat n ≤ m_size other →
  CAPACITY < m_size w + Z.of_nat n →
  out (for_loop n i Z.succ
         (λ i this, e ← load (m_storage other) i;
                    push_back NDEBUG CAPACITY e this) w)
  = Undefined.
Proof.
  intros Hnd Hc Hes. revert i w ws.
  induction n as [|n IH]; intros i w ws Hw Hws Hi Hin Hover.
  - destruct Hw as [_ Hsz _]. lia.
  - simpl for_loop. rewrite out_bind.
    destruct (represents_slot_Z other es i Hes) as (e & _ & Hslot); [lia|].
    rewrite out_bind. unfold load at 1. rewrite Hslot. simpl.
    destruct (decide (m_size w < CAPACITY)) as [Hlt|Hge].
    + pose proof (push_back_returns CAPACITY e w ws Hc Hw Hws Hlt) as Hpb.
      apply returns_Done in Hpb as (w' & -> & Hw' & Hws' & _).
      apply (IH (Z.succ i) w' (ws ++ [e])); try done; try lia.
      destruct Hws' as [-> _], Hws as [Hn _]. rewrite length_app. simpl. lia.
    + rewrite push_back_full_ndebug; [done | done | done |].
      destruct Hw as [_ Hsz _]. lia.
Qed.

(** X13: copy construction from a container of another declared capacity.
    A source whose length fits the destination is copied, whatever the two
    declared capacities; a source of at most the destination's declared
    capacity always fits.  A source that is too long fails the up-front
    assertion when assertions are enabled, and has no defined behaviour
    (the copy runs past the storage) with [NDEBUG]. *)
Theorem copy_from_other_capacity CAPACITY OTHER_CAPACITY other es :
  valid_capacity CAPACITY → wf OTHER_CAPACITY other → represents other es →
  (m_size other ≤ CAPACITY →
     returns (StaticVector_copy_cross NDEBUG CAPACITY OTHER_CAPACITY other)
       (λ v', wf CAPACITY v' ∧ represents v' es)) ∧
  (OTHER_CAPACITY ≤ CAPACITY → m_size other ≤ CAPACITY) ∧
  (CAPACITY < m_size other →
     out (StaticVector_copy_cross NDEBUG CAPACITY OTHER_CAPACITY other)
     = if NDEBUG then Undefined
       else AssertionFailed msg_size_le_capacity).
Proof.
  intros Hc Ho Hes. pose proof Ho as [_ Hosz _]. split_and!.
  - intros Hfit. by apply copy_cross_returns.
  - lia.
  - intros Hlong.
    assert (NDEBUG = true ∨ NDEBUG = false) as [Hnd|Hnd]
      by (destruct NDEBUG; auto).
    + replace (if NDEBUG then Undefined
               else AssertionFailed msg_size_le_capacity)
        with (Undefined (A := StaticVector Element)) by (by rewrite Hnd).
      unfold StaticVector_copy_cross. rewrite out_bind.
      replace (out (cross_capacity_guard NDEBUG CAPACITY OTHER_CAPACITY other))
        with (Done (A := unit) ()).
      2: { unfold cross_capacity_guard, assert. rewrite Hnd.
           by destruct (_ <? _). }
      destruct (wf_default CAPACITY Hc) as [Hwf0 Hrep0].
      unfold copy_elements, begin_, end_. rewrite Z.sub_0_r.
      apply (copy_loop_overflow_ndebug CAPACITY other es _ 0 _ []);
        try done; simpl; lia.
    + replace (if NDEBUG then Undefined
               else AssertionFailed msg_size_le_capacity)
        with (AssertionFailed (A := StaticVector Element)
                msg_size_le_capacity) by (by rewrite Hnd).
      apply copy_cross_asserts; [done | lia | unfold size; lia].
Qed.

(** ** Precondition violations with NDEBUG *)

(** X14: with [NDEBUG] the assertions are gone and a violated
    precondition is not reported: [push_back] and [emplace_back] on a full
    container write past the storage, and [pop_back] and [back] on an
    empty container access the slot at index [SIZE_MAX], which lies
    outside every storage; each of these calls has no defined
    behaviour. *)
Theorem precondition_violations_with_NDEBUG CAPACITY e v :
  NDEBUG = true → valid_capacity CAPACITY → wf CAPACITY v →
  (m_size v = CAPACITY →
     out (push_back NDEBUG CAPACITY e v) = Undefined ∧
     out (emplace_back NDEBUG CAPACITY e v) = Undefined) ∧
  (m_size v = 0 →
     out (pop_back NDEBUG v) = Undefined ∧ out (back NDEBUG v) = Undefined).
Proof.
  intros Hnd [Hc0 Hc] Hwf. pose proof Hwf as [Hst Hsz _]. split.
  - intros Hfull. split; by apply push_back_full_ndebug.
  - intros Hempty.
    assert (slot_at (m_storage v) (size_t_wrap (m_size v - 1)) = None)
      as Hnone.
    { rewrite Hempty. change (size_t_wrap (0 - 1)) with SIZE_MAX.
      unfold slot_at. destruct (0 <=? SIZE_MAX); [|done].
      apply lookup_ge_None_2. lia. }
    split.
    + unfold pop_back, assert. rewrite Hnd, !out_bind. simpl.
      unfold move_from. by rewrite Hnone.
    + unfold back, assert. rewrite Hnd, out_bind. simpl.
      unfold index, load. by rewrite Hnone.
Qed.

(** ** Forward and reverse iteration *)

Lemma forward_walk_returns v es (k fuel : nat) :
  represents v es → (k ≤ length es)%nat → (k ≤ fuel)%nat →
  returns (forward_walk fuel v (m_size v - Z.of_nat k))
    (λ r, r = Some (drop (length es - k) es)).
Proof.
  intros [Hn Hes] Hk. revert fuel.
  induction k as [|k IH]; intros fuel Hfuel.
  - rewrite Z.sub_0_r, Nat.sub_0_r, drop_all.
    destruct fuel; simpl; unfold end_; by rewrite Z.eqb_refl.
  - destruct fuel as [|fuel]; [lia|]. simpl forward_walk. unfold end_.
    replace (m_size v - Z.of_nat (S k) =? m_size v) with false
      by (symmetry; apply Z.eqb_neq; lia).
    destruct (lookup_lt_is_Some_2 es (length es - S k)) as [e He]; [lia|].
    apply returns_bind. eapply returns_load.
    { replace (m_size v - Z.of_nat (S k))
        with (Z.of_nat (length es - S k)) by lia.
      by apply Hes. }
    apply returns_bind.
    replace (m_size v - Z.of_nat (S k) + 1) with (m_size v - Z.of_nat k)
      by lia.
    eapply returns_mono; [apply IH; lia|].
    intros r ->. apply returns_ret. simpl.
    rewrite (drop_S es e (length es - S k) He).
    by replace (S (length es - S k)) with (length es - k)%nat by lia.
Qed.

(** X15: the loop from [begin()] to [end()] visits exactly the elements of
    the container, in order, and the loop from [rbegin()] to [rend()]
    visits the same elements in the opposite order. *)
Theorem forward_and_reverse_iteration CAPACITY v es (fuel : nat) :
  CAPACITY ≤ PTRDIFF_MAX → wf CAPACITY v → represents v es →
  (length es ≤ fuel)%nat →
  out (forward_iteration fuel v) = Done (Some es) ∧
  out (reverse_iteration NDEBUG fuel v) = Done (Some (reverse es)).
Proof.
  intros Hc [_ Hsz _] Hrep Hfuel. pose proof Hrep as [Hn _]. split.
  - pose proof (forward_walk_returns v es (length es) fuel Hrep) as Hwalk.
    apply returns_Done in Hwalk as (r & Hout & ->); [|done..].
    unfold forward_iteration, begin_.
    rewrite Hn, Z.sub_diag in Hout. by rewrite Hout, Nat.sub_diag.
  - pose proof (reverse_walk_returns v es (length es) fuel Hrep) as Hwalk.
    apply returns_Done in Hwalk as (r & Hout & ->); [|done..].
    unfold reverse_iteration. rewrite rbegin_offset by lia.
    by rewrite Hn, Hout, firstn_all.
Qed.

(** ** The operators of the reverse iterator *)

(** X16: on a reverse iterator into a storage, [operator-(n)] undoes
    [operator+(n)] and [operator--] undoes [operator++]; [it + 1] is
    [++it]; adding [a] and then [b] is adding [a + b]; the distance
    [(it + n) - it] is [n]; and [n + it] is [it + n]. *)
Theorem reverse_iterator_arithmetic (z a b : Z) :
  out (it' ← rev_plus {| m_ptr := at_offset z |} a; rev_minus it' a)
    = Done {| m_ptr := at_offset z |} ∧
  out (it' ← rev_incr {| m_ptr := at_offset z |}; rev_decr it')
    = Done {| m_ptr := at_offset z |} ∧
  out (rev_plus {| m_ptr := at_offset z |} 1)
    = out (rev_incr {| m_ptr := at_offset z |}) ∧
  out (it' ← rev_plus {| m_ptr := at_offset z |} a; rev_plus it' b)
    = out (rev_plus {| m_ptr := at_offset z |} (a + b)) ∧
  out (it' ← rev_plus {| m_ptr := at_offset z |} a;
       rev_distance it' {| m_ptr := at_offset z |}) = Done a ∧
  out (rev_plus_left a {| m_ptr := at_offset z |})
    = out (rev_plus {| m_ptr := at_offset z |} a).
Proof.
  split_and!; simpl; try done; do 3 f_equal; lia.
Qed.

(** X17: for two reverse iterators [a] and [b] into one storage, the
    relational operators agree with the sign of the distance [a - b] that
    the class computes: [a < b] exactly when [a - b > 0], [a > b] exactly
    when [a - b < 0], and likewise for [<=] and [>=]; so [a < b] holds
    when [a] is the one reached later in the traversal. *)
Theorem reverse_iterator_relational (x y : Z) :
  ∃ d, out (rev_distance {| m_ptr := at_offset x |} {| m_ptr := at_offset y |})
       = Done d ∧
       d = y - x ∧
       out (rev_lt {| m_ptr := at_offset x |} {| m_ptr := at_offset y |})
       = Done (0 <? d) ∧
       out (rev_gt {| m_ptr := at_offset x |} {| m_ptr := at_offset y |})
       = Done (d <? 0) ∧
       out (rev_le {| m_ptr := at_offset x |} {| m_ptr := at_offset y |})
       = Done (0 <=? d) ∧
       out (rev_ge {| m_ptr := at_offset x |} {| m_ptr := at_offset y |})
       = Done (d <=? 0) ∧
       (rev_eq {| m_ptr := at_offset x |} {| m_ptr := at_offset y |} = true
        ↔ d = 0).
Proof.
  exists (y - x).
  unfold rev_distance, rev_lt, rev_gt, rev_le, rev_ge, ptr_diff, ptr_compare.
  cbn [m_ptr]. split_and!; try done.
  - change (Done (x <? y) = Done (0 <? y - x)). f_equal.
    destruct (Z.ltb_spec x y), (Z.ltb_spec 0 (y - x)); (done || lia).
  - change (Done (x >? y) = Done (y - x <? 0)). f_equal.
    rewrite Z.gtb_ltb.
    destruct (Z.ltb_spec y x), (Z.ltb_spec (y - x) 0); (done || lia).
  - change (Done (x <=? y) = Done (0 <=? y - x)). f_equal.
    destruct (Z.leb_spec x y), (Z.leb_spec 0 (y - x)); (done || lia).
  - change (Done (x >=? y) = Done (y - x <=? 0)). f_equal.
    rewrite Z.geb_leb.
    destruct (Z.leb_spec y x), (Z.leb_spec (y - x) 0); (done || lia).
  - unfold rev_eq. simpl. rewrite bool_decide_eq_true. split.
    + intros [= ->]. lia.
    + intros Hd. f_equal. lia.
Qed.

(** X18: a default-constructed reverse iterator holds the null pointer.
    Dereferencing it fails the assertion of [operator*] when assertions
    are enabled and has no defined behaviour with [NDEBUG]; [operator[]]
    has no assertion at all. *)
Theorem null_reverse_iterator v (offset : Z) :
  out (rev_deref NDEBUG v ReverseIterator_default)
    = (if NDEBUG then Undefined else AssertionFailed msg_nullptr) ∧
  log (rev_index v ReverseIterator_default offset) = [] ∧
  out (rev_index v ReverseIterator_default offset) = Undefined ∧
  ∀ it : ReverseIterator,
    log (rev_index v it offset) = [] ∧
    (m_ptr it ≠ nullptr →
     Forall (λ c, check_holds c = true) (log (rev_deref NDEBUG v it)) ∧
     ∀ msg, out (rev_deref NDEBUG v it) ≠ AssertionFailed msg).
Proof.
  split_and!.
  - unfold rev_deref, assert. by destruct NDEBUG.
  - done.
  - done.
  - intros [[|z]].
    + split; [done|]. simpl. intros Hne. by destruct Hne.
    + split; [simpl; apply log_load|].
      intros _. unfold rev_deref, assert. simpl. split.
      * rewrite log_bind, log_load.
        destruct NDEBUG; simpl; repeat constructor.
      * intros msg. rewrite out_bind.
        destruct NDEBUG; simpl; intros Hout;
          by apply (abort_load (λ _, False)) in Hout.
Qed.

(** X19: [rbegin()[k]] and the element referred to by [rbegin() + k] are the
    element number [k] counted from the back of the container. *)
Theorem reverse_indexing CAPACITY v es (k : nat) e :
  CAPACITY ≤ PTRDIFF_MAX → wf CAPACITY v → represents v es →
  reverse es !! k = Some e →
  out (rev_index v (rbegin v) (Z.of_nat k)) = Done e ∧
  out (it ← rev_plus (rbegin v) (Z.of_nat k); rev_deref NDEBUG v it) = Done e.
Proof.
  intros Hc [_ Hsz _] [Hn Hes] He.
  pose proof (lookup_lt_Some _ _ _ He) as Hk. rewrite length_reverse in Hk.
  rewrite reverse_lookup in He by done. apply Hes in He.
  rewrite rbegin_offset by lia.
  replace (Z.of_nat (length es - S k)) with (m_size v - 1 + - Z.of_nat k)
    in He by lia.
  split.
  - unfold rev_index. simpl. unfold load. by rewrite He.
  - rewrite out_bind. simpl. unfold rev_deref. simpl.
    rewrite assert_passes by done. unfold load. by rewrite He.
Qed.

(** ** Moving from a container of another capacity *)

(** X21: move construction and move assignment from a container of
    another declared capacity whose length fits the destination give the
    destination the elements of the source, in order; the source keeps
    its length and its storage size, and its slots below the length hold
    the moved-from objects. *)
Theorem move_from_other_capacity CAPACITY OTHER_CAPACITY other v es :
  valid_capacity CAPACITY → wf CAPACITY v →
  wf OTHER_CAPACITY other → represents other es →
  m_size other ≤ CAPACITY →
  returns (StaticVector_move_cross NDEBUG CAPACITY OTHER_CAPACITY other)
    (λ r, wf OTHER_CAPACITY r.1 ∧ size r.1 = size other ∧
          represents r.1 (moved_from <$> es) ∧
          wf CAPACITY r.2 ∧ represents r.2 es) ∧
  returns (move_assign_cross NDEBUG CAPACITY OTHER_CAPACITY other v)
    (λ r, wf OTHER_CAPACITY r.1 ∧ size r.1 = size other ∧
          represents r.1 (moved_from <$> es) ∧
          wf CAPACITY r.2 ∧ represents r.2 es).
Proof.
  intros Hc Hv Ho Hes Hfit. split.
  - eapply returns_mono;
      [by apply (move_cross_returns CAPACITY OTHER_CAPACITY other es)|].
    intros r (Hm & Hl & Hsrc & Hr & Hd). split_and!; try done.
    by apply (wf_moved_from OTHER_CAPACITY other es).
  - eapply returns_mono;
      [by apply (move_assign_cross_returns CAPACITY OTHER_CAPACITY other v es)|].
    intros r (Hm & Hl & Hsrc & Hr & Hd). split_and!; try done.
    by apply (wf_moved_from OTHER_CAPACITY other es).
Qed.

(** ** Reference arguments and the invariant *)

Lemma insert_reference_returns CAPACITY pos (value : reference Element)
    v es e0 :
  valid_capacity CAPACITY → wf CAPACITY v → represents v es →
  m_size v < CAPACITY → begin_ v ≤ pos ≤ end_ v →
  slot_at (m_storage v) (m_size v) = Some (Obj e0) →
  (∀ i, value = inside i → ∃ e, slot_at (m_storage v) i = Some (Obj e)) →
  returns (insert NDEBUG CAPACITY pos value v) (λ r, wf CAPACITY r.2) ∧
  returns (insert_rvalue NDEBUG CAPACITY pos value v) (λ r, wf CAPACITY r.2).
Proof.
  intros Hc Hwf Hrep Hlt Hpos Hslot Hval. destruct value as [e|i].
  - split;
      (eapply returns_mono;
         [by apply (insert_puts_sequence CAPACITY pos e v es e0)|]);
      by intros r (_ & Hr & _).
  - destruct (Hval i eq_refl) as [e He].
    pose proof Hc as [Hc0 Hcmax]. pose proof Hwf as [Hst Hsz _].
    pose proof Hrep as [Hn Hes]. unfold begin_, end_ in Hpos.
    pose proof (slot_at_Some _ _ _ He) as Hirange.
    assert (returns (shift_right pos v)
      (λ w, m_size w = m_size v ∧
            length (m_storage w) = length (m_storage v) ∧
            (∀ j, pos < j ≤ m_size v →
               ∃ e, es !! Z.to_nat (j - 1) = Some e ∧
                    slot_at (m_storage w) j = Some (Obj e)) ∧
            (∀ j, j < pos →
               slot_at (m_storage w) j = slot_at (m_storage v) j) ∧
            (∃ ep, slot_at (m_storage w) pos = Some (Obj ep)) ∧
            ∃ y, slot_at (m_storage w) i = Some (Obj y))) as Hshift.
    { eapply returns_mono;
        [apply (shift_right_returns v es pos e0); (done || lia)|].
      intros w (Hm & Hl & Hhi & Hlo & Hp). split_and!; try done.
      - intros j Hj. apply Hlo. lia.
      - destruct (decide (i < pos ∨ m_size v < i)) as [Hout|Hin].
        + exists e. by rewrite Hlo.
        + destruct (decide (i = pos)) as [->|Hne]; [done|].
          destruct (Hhi i) as (y & _ & Hy); [lia|]. by exists y. }
    split.
    + unfold insert, cbegin. cbn [index_assign_from]. rewrite Z.sub_0_r.
      apply returns_bind, returns_assert; [by apply Z.ltb_lt|].
      apply returns_bind, returns_assert; [apply Z.leb_le; lia|].
      rewrite size_t_wrap_small by lia. apply returns_bind.
      eapply returns_mono; [exact Hshift|].
      intros w (Hm & Hl & Hhi & Hlo & [ep Hp] & [y Hy]). simpl.
      apply returns_bind, returns_bind. unfold index.
      eapply returns_load; [exact Hy|]. unfold returns at 1.
      rewrite out_index_assign, Hp. apply returns_ret. simpl.
      rewrite Hm, size_t_wrap_small by lia.
      by destruct (represents_insert_at CAPACITY pos y v es w) as [Hw' _];
        try (done || lia).
    + unfold insert_rvalue, cbegin. cbn [index_move_assign_from].
      rewrite Z.sub_0_r.
      apply returns_bind, returns_assert; [by apply Z.ltb_lt|].
      apply returns_bind, returns_assert; [apply Z.leb_le; lia|].
      rewrite size_t_wrap_small by lia. apply returns_bind.
      eapply returns_mono; [exact Hshift|].
      intros w (Hm & Hl & Hhi & Hlo & [ep Hp] & [y Hy]). simpl.
      apply returns_bind, returns_bind.
      destruct (decide (i = pos)) as [->|Hne].
      * apply returns_fmap. eapply returns_move_from; [exact Hy|]. simpl.
        apply returns_ret, returns_ret. simpl.
        rewrite Hm, size_t_wrap_small by lia.
        by destruct (represents_insert_at CAPACITY pos (moved_from y) v es w)
          as [Hw' _]; try (done || lia).
      * eapply returns_move_assign_at; [done | exact Hy | exact Hp |].
        apply returns_ret, returns_ret. simpl.
        rewrite Hm, size_t_wrap_small by lia.
        destruct (represents_insert_at CAPACITY pos y v es w) as [Hw' Hr'];
          try (done || lia).
        unfold set_slot. rewrite list_insert_insert_ne by lia.
        destruct (represents_update CAPACITY _ _ i (moved_from y) Hw' Hr')
          as [Hw'' _]; [lia|].
        exact Hw''.
Qed.

(** Without an object in the slot at the length both overloads of [insert]
    assign to raw memory, whatever [value] is. *)
Lemma insert_raw_undefined CAPACITY pos (value : reference Element) v es :
  valid_capacity CAPACITY → wf CAPACITY v → represents v es →
  m_size v < CAPACITY → begin_ v ≤ pos ≤ end_ v →
  slot_at (m_storage v) (m_size v) = Some Raw →
  out (insert NDEBUG CAPACITY pos value v) = Undefined ∧
  out (insert_rvalue NDEBUG CAPACITY pos value v) = Undefined.
Proof.
  intros [Hc0 Hc] [Hst Hsz _] Hrep Hlt Hpos Hraw.
  unfold begin_, end_ in Hpos.
  unfold insert, insert_rvalue, cbegin. rewrite Z.sub_0_r.
  rewrite !assert_passes by (apply Z.ltb_lt || apply Z.leb_le; lia).
  rewrite size_t_wrap_small by lia. rewrite !out_bind.
  destruct (decide (pos = m_size v)) as [->|Hne].
  - unfold shift_right. rewrite Z.sub_diag. simpl for_loop. cbn [out mret M_ret].
    destruct value as [e|i]; cbn [index_assign_from index_move_assign_from].
    + by rewrite !out_bind, out_index_assign, Hraw.
    + split.
      * rewrite !out_bind. unfold index, load.
        destruct (slot_at (m_storage v) i) as [[|e]|]; try done. simpl.
        by rewrite out_index_assign, Hraw.
      * rewrite !out_bind. case_decide as Hi.
        -- subst i. rewrite out_fmap. unfold move_from. by rewrite Hraw.
        -- unfold move_assign_at. rewrite out_bind. unfold move_from.
           destruct (slot_at (m_storage v) i) as [[|e]|] eqn:Hsi; try done.
           simpl. unfold assign_at.
           rewrite slot_at_set_ne by (apply slot_at_Some in Hsi; lia).
           by rewrite Hraw.
  - by rewrite (shift_right_raw v es pos) by (done || lia).
Qed.

(** A [value] that names a slot without an object cannot be read. *)
Lemma insert_no_object_undefined CAPACITY pos i v es e0 :
  valid_capacity CAPACITY → wf CAPACITY v → represents v es →
  m_size v < CAPACITY → begin_ v ≤ pos ≤ end_ v →
  slot_at (m_storage v) (m_size v) = Some (Obj e0) →
  (∀ e, slot_at (m_storage v) i ≠ Some (Obj e)) →
  out (insert NDEBUG CAPACITY pos (inside i) v) = Undefined ∧
  out (insert_rvalue NDEBUG CAPACITY pos (inside i) v) = Undefined.
Proof.
  intros Hc Hwf Hrep Hlt Hpos Hslot Hno.
  pose proof Hc as [Hc0 Hcmax]. pose proof Hwf as [Hst Hsz _].
  unfold begin_, end_ in Hpos.
  assert (i < 0 ∨ m_size v < i) as Hi.
  { destruct (decide (i < 0 ∨ m_size v < i)) as [|Hin]; [done|].
    destruct (decide (i = m_size v)) as [->|Hne]; [by destruct (Hno e0)|].
    destruct (wf_slot CAPACITY v i Hwf) as [e He]; [lia|].
    by destruct (Hno e). }
  pose proof (shift_right_returns v es pos e0 Hrep ltac:(lia) ltac:(lia) Hslot)
    as Hshift.
  apply returns_Done in Hshift as (w & Hout & Hm & Hl & Hhi & Hlo & Hp).
  assert (∀ e, slot_at (m_storage w) i ≠ Some (Obj e)) as Hno'.
  { intros e. rewrite Hlo by lia. apply Hno. }
  unfold insert, insert_rvalue, cbegin. rewrite Z.sub_0_r.
  rewrite !assert_passes by (apply Z.ltb_lt || apply Z.leb_le; lia).
  rewrite size_t_wrap_small by lia. rewrite !out_bind, Hout.
  cbn [index_assign_from index_move_assign_from]. split.
  - rewrite !out_bind. unfold index, load.
    destruct (slot_at (m_storage w) i) as [[|e]|]; try done.
    by destruct (Hno' e).
  - rewrite !out_bind. rewrite decide_False by lia.
    unfold move_assign_at. rewrite out_bind. unfold move_from.
    destruct (slot_at (m_storage w) i) as [[|e]|]; try done.
    by destruct (Hno' e).
Qed.

Lemma insert_reference_cases CAPACITY pos (value : reference Element) v :
  valid_capacity CAPACITY → wf CAPACITY v →
  m_size v < CAPACITY → begin_ v ≤ pos ≤ end_ v →
  completes_or_undefined (insert NDEBUG CAPACITY pos value v)
    (λ r, wf CAPACITY r.2)
    (slot_at (m_storage v) (m_size v) = Some Raw ∨
     ∃ i, value = inside i ∧ ∀ e, slot_at (m_storage v) i ≠ Some (Obj e)) ∧
  completes_or_undefined (insert_rvalue NDEBUG CAPACITY pos value v)
    (λ r, wf CAPACITY r.2)
    (slot_at (m_storage v) (m_size v) = Some Raw ∨
     ∃ i, value = inside i ∧ ∀ e, slot_at (m_storage v) i ≠ Some (Obj e)).
Proof.
  intros Hc Hwf Hlt Hpos. pose proof Hwf as [Hst Hsz [es Hrep]].
  destruct (slot_at_is_Some (m_storage v) (m_size v)) as [s Hs]; [lia|].
  destruct s as [|e0].
  - destruct (insert_raw_undefined CAPACITY pos value v es) as [H1 H2];
      try done.
    unfold completes_or_undefined. rewrite H1, H2. split; by left.
  - assert ((∀ i, value = inside i →
               ∃ e, slot_at (m_storage v) i = Some (Obj e)) ∨
            ∃ i, value = inside i ∧
                 ∀ e, slot_at (m_storage v) i ≠ Some (Obj e)) as [Hval|Hno].
    { destruct value as [e|i]; [by left|].
      destruct (slot_at (m_storage v) i) as [[|e]|] eqn:Hsi.
      - right. exists i. split; [done|]. intros e. by rewrite Hsi.
      - left. intros ? [= <-]. by exists e.
      - right. exists i. split; [done|]. intros e. by rewrite Hsi. }
    + destruct (insert_reference_returns CAPACITY pos value v es e0)
        as [H1 H2]; try done.
      split; by apply completes_of_returns.
    + destruct Hno as (i & -> & Hno).
      destruct (insert_no_object_undefined CAPACITY pos i v es e0)
        as [H1 H2]; try done.
      unfold completes_or_undefined. rewrite H1, H2.
      split; right; by exists i.
Qed.

Lemma for_loop_completes {S : Type} (I : nat → S → Prop) n i next body
    (s : S) :
  I O s →
  (∀ k s, (k < n)%nat → I k s →
     completes_or_undefined (body (Nat.iter k next i) s)
       (I (Datatypes.S k)) True) →
  completes_or_undefined (for_loop n i next body s) (I n) True.
Proof.
  revert I i s. induction n as [|n IH]; intros I i s H0 Hstep; simpl.
  - done.
  - apply completes_bind.
    eapply completes_mono; [apply (Hstep O); [lia | done] | | done].
    intros s1 Hs1. apply (IH (λ k, I (Datatypes.S k))); [done|].
    intros k s2 Hk Hs2.
    replace (Nat.iter k next (next i)) with (Nat.iter (Datatypes.S k) next i)
      by (by rewrite Nat.iter_succ_r).
    apply Hstep; [lia | done].
Qed.

Lemma push_back_from_completes CAPACITY (value : reference Element) v :
  valid_capacity CAPACITY → wf CAPACITY v → m_size v < CAPACITY →
  completes_or_undefined (push_back_from NDEBUG CAPACITY value v)
    (λ v', wf CAPACITY v' ∧ m_size v' = m_size v + 1) True.
Proof.
  intros Hc Hwf Hlt. pose proof Hwf as [Hst Hsz [es Hes]].
  destruct value as [e|i].
  - apply completes_of_returns.
    eapply returns_mono; [by apply (push_back_returns CAPACITY e v es)|].
    intros v' (Hv' & [Hn' _] & _). split; [done|].
    destruct Hes as [Hn _]. rewrite Hn', length_app. simpl. lia.
  - unfold push_back_from.
    apply completes_bind, completes_of_returns, returns_assert;
      [by apply Z.ltb_lt|].
    apply completes_bind. case_decide; [done|]. unfold load.
    destruct (slot_at (m_storage v) i) as [[|e]|]; try done.
    apply completes_of_returns, returns_ret.
    apply completes_of_returns, returns_bind, returns_construct_at; [lia|].
    apply returns_ret. destruct Hc as [Hc0 Hc].
    rewrite size_t_wrap_small by lia.
    assert (represents
              {| m_storage := set_slot (m_storage v) (m_size v) (Obj e);
                 m_size := m_size v + 1 |} (es ++ [e])) as Hrep.
    { apply represents_snoc; [done | lia]. }
    split; [|done].
    split; simpl; [by rewrite length_set_slot | lia | eauto].
Qed.

Lemma assign_reference_cases CAPACITY count (value : reference Element) v :
  valid_capacity CAPACITY → wf CAPACITY v → 0 ≤ count ≤ CAPACITY →
  completes_or_undefined (assign NDEBUG CAPACITY count value v)
    (wf CAPACITY)
    (∃ i, value = inside i ∧ 0 < count ∧
          (i < count ∨
           (is_trivially_destructible = false ∧ i < m_size v) ∨
           ∀ e, slot_at (m_storage v) i ≠ Some (Obj e))).
Proof.
  intros Hc Hwf Hcount.
  assert (completes_or_undefined (assign NDEBUG CAPACITY count value v)
            (wf CAPACITY) True) as Hgen.
  { unfold assign.
    apply completes_bind, completes_of_returns, returns_assert;
      [apply Z.leb_le; lia|].
    apply completes_bind.
    eapply completes_mono;
      [apply (completes_of_returns _ _ True), (clear_returns CAPACITY v Hwf)
      | | done].
    intros w (Hw & _ & Hm & _). simpl.
    eapply completes_mono;
      [apply (for_loop_completes
                (λ k w', wf CAPACITY w' ∧ m_size w' = Z.of_nat k))| |done].
    - done.
    - intros k w' Hk [Hw' Hm'].
      eapply completes_mono;
        [apply (push_back_from_completes CAPACITY value w' Hc Hw'); lia
        | | done].
      intros w'' [Hw'' Hm'']. split; [done | lia].
    - by intros w' [Hw' _]. }
  assert (returns (assign NDEBUG CAPACITY count value v) (wf CAPACITY) ∨
          ∃ i, value = inside i ∧ 0 < count ∧
               (i < count ∨
                (is_trivially_destructible = false ∧ i < m_size v) ∨
                ∀ e, slot_at (m_storage v) i ≠ Some (Obj e))) as [Hret|HU].
  { destruct value as [e|i].
    { left. eapply returns_mono; [by apply assign_returns|].
      by intros v' [Hv' _]. }
    destruct (decide (0 < count)) as [Hpos|Hzero].
    2: { left. unfold assign.
         apply returns_bind, returns_assert; [apply Z.leb_le; lia|].
         apply returns_bind.
         eapply returns_mono; [by apply (clear_returns CAPACITY)|].
         intros w (Hw & _). replace (Z.to_nat count) with O by lia.
         by apply returns_ret. }
    destruct (decide (i < count)) as [|Hge];
      [right; exists i; by auto|].
    destruct (slot_at (m_storage v) i) as [[|e]|] eqn:Hsi;
      [right; exists i; split_and!; try done; right; right; intros e;
       by rewrite Hsi
      | | right; exists i; split_and!; try done; right; right; intros e;
          by rewrite Hsi].
    destruct is_trivially_destructible eqn:Htd.
    - left.
      eapply returns_mono;
        [apply (assign_from_inside_returns CAPACITY count i e v);
           (done || lia || by left)|].
      by intros v' [Hv' _].
    - destruct (decide (i < m_size v)) as [Hlt|Hge'];
        [right; exists i; split_and!; try done; right; left; by split|].
      left.
      eapply returns_mono;
        [apply (assign_from_inside_returns CAPACITY count i e v);
           (done || lia || (right; lia))|].
      by intros v' [Hv' _]. }
  - by apply completes_of_returns.
  - eapply completes_mono; [exact Hgen | done | done].
Qed.

(** C9: the constructors establish, and every mutating operation called
    within its precondition preserves, that the storage has exactly
    [CAPACITY] slots and that the length is between 0 and [CAPACITY] (and
    that the slots below the length hold objects).  No operation fails an
    assertion; the calls listed by [undefined_case] have no defined
    behaviour, every other call completes.  The same holds when the value
    of [insert] or [assign] is a reference to an object of the container
    itself: such a call fails no assertion and completes with the
    invariant; the exceptions are, besides the slot without an object at
    the length for [insert], a value that names no object and a value that
    [assign] reads after it has been destroyed or overwritten. *)
Theorem length_never_exceeds_capacity CAPACITY :
  valid_capacity CAPACITY →
  wf CAPACITY (StaticVector_default CAPACITY) ∧
  (∀ count e, 0 ≤ count ≤ CAPACITY →
     returns (StaticVector_fill NDEBUG CAPACITY count e) (wf CAPACITY)) ∧
  (∀ vs : list Element, Z.of_nat (length vs) ≤ CAPACITY →
     returns (StaticVector_init_list NDEBUG CAPACITY vs) (wf CAPACITY)) ∧
  (∀ OTHER_CAPACITY other,
     wf OTHER_CAPACITY other → m_size other ≤ CAPACITY →
     returns (StaticVector_copy NDEBUG CAPACITY other) (wf CAPACITY) ∧
     returns (StaticVector_copy_cross NDEBUG CAPACITY OTHER_CAPACITY other)
       (wf CAPACITY) ∧
     returns (StaticVector_move NDEBUG CAPACITY other)
       (λ r, wf OTHER_CAPACITY r.1 ∧ wf CAPACITY r.2) ∧
     returns (StaticVector_move_cross NDEBUG CAPACITY OTHER_CAPACITY other)
       (λ r, wf OTHER_CAPACITY r.1 ∧ wf CAPACITY r.2)) ∧
  (∀ op v, wf CAPACITY v → precondition CAPACITY op v →
     completes_or_undefined (run NDEBUG CAPACITY op v) (wf CAPACITY)
       (undefined_case op v)) ∧
  (∀ (σ : gmap nat (StaticVector Element)) (this other : nat) t o,
     σ !! this = Some t → σ !! other = Some o →
     wf CAPACITY t → wf CAPACITY o →
     returns (copy_assign NDEBUG CAPACITY this other σ)
       (λ σ', ∃ t', σ' !! this = Some t' ∧ wf CAPACITY t') ∧
     returns (move_assign NDEBUG CAPACITY this other σ)
       (λ σ', ∃ t' o', σ' !! this = Some t' ∧ σ' !! other = Some o' ∧
                       wf CAPACITY t' ∧ wf CAPACITY o')) ∧
  (∀ pos (value : reference Element) v,
     wf CAPACITY v → m_size v < CAPACITY → begin_ v ≤ pos ≤ end_ v →
     completes_or_undefined (insert NDEBUG CAPACITY pos value v)
       (λ r, wf CAPACITY r.2)
       (slot_at (m_storage v) (m_size v) = Some Raw ∨
        ∃ i, value = inside i ∧
             ∀ e, slot_at (m_storage v) i ≠ Some (Obj e)) ∧
     completes_or_undefined (insert_rvalue NDEBUG CAPACITY pos value v)
       (λ r, wf CAPACITY r.2)
       (slot_at (m_storage v) (m_size v) = Some Raw ∨
        ∃ i, value = inside i ∧
             ∀ e, slot_at (m_storage v) i ≠ Some (Obj e))) ∧
  (∀ count (value : reference Element) v,
     wf CAPACITY v → 0 ≤ count ≤ CAPACITY →
     completes_or_undefined (assign NDEBUG CAPACITY count value v)
       (wf CAPACITY)
       (∃ i, value = inside i ∧ 0 < count ∧
             (i < count ∨
              (is_trivially_destructible = false ∧ i < m_size v) ∨
              ∀ e, slot_at (m_storage v) i ≠ Some (Obj e)))).
Proof.
  intros Hc. split_and!.
  - by destruct (wf_default CAPACITY Hc).
  - intros count e Hcount.
    eapply returns_mono; [by apply fill_returns|]. by intros v' [Hv' _].
  - intros vs Hlen.
    eapply returns_mono; [by apply init_list_returns|]. by intros v' [Hv' _].
  - intros OC other Ho Hfit. pose proof Ho as [_ _ [os Hos]]. split_and!.
    + eapply returns_mono; [by apply (copy_returns CAPACITY other os)|].
      by intros v' [Hv' _].
    + eapply returns_mono;
        [by apply (copy_cross_returns CAPACITY OC other os)|].
      by intros v' [Hv' _].
    + eapply returns_mono; [by apply (move_returns CAPACITY other os)|].
      intros r (Hm & Hl & Hsrc & Hr & _). split; [|done].
      by apply (wf_moved_from OC other os).
    + eapply returns_mono;
        [by apply (move_cross_returns CAPACITY OC other os)|].
      intros r (Hm & Hl & Hsrc & Hr & _). split; [|done].
      by apply (wf_moved_from OC other os).
  - intros op v Hwf Hpre. by apply run_preserves_wf.
  - intros σ this other t o Ht Ho Hwt Hwo.
    pose proof Hwo as [_ Hosz [os Hos]]. split.
    + unfold copy_assign. case_decide as Hne; [|apply returns_ret; eauto].
      unfold with_objects. rewrite Ht, Ho. apply returns_bind.
      eapply returns_mono; [by apply (clear_returns CAPACITY)|].
      intros t1 (Ht1 & Hrep1 & Hn1 & _). simpl. apply returns_bind.
      eapply returns_mono;
        [apply (copy_elements_returns CAPACITY o t1 os [] Hc Hos Ht1 Hrep1);
         lia|].
      intros t2 [Ht2 _]. apply returns_ret. exists t2.
      by rewrite lookup_insert_eq.
    + unfold move_assign. case_decide as Hne.
      2: { apply returns_ret. assert (this = other) as ->.
           { destruct (decide (this = other)); [done|]. by destruct Hne. }
           exists o, o. simplify_eq. eauto. }
      unfold with_objects. rewrite Ht, Ho. apply returns_bind.
      eapply returns_mono; [by apply (clear_returns CAPACITY)|].
      intros t1 (Ht1 & Hrep1 & Hn1 & _). simpl. apply returns_bind.
      eapply returns_mono;
        [apply (move_elements_returns CAPACITY o t1 os [] Hc Hos Ht1 Hrep1);
         lia|].
      intros [o' t2] (Hm & Hl & Hsrc & Ht2 & _). apply returns_ret.
      exists t2, o'. simpl in *. rewrite lookup_insert_eq.
      rewrite lookup_insert_ne by done. rewrite lookup_insert_eq.
      split_and!; try done. by apply (wf_moved_from CAPACITY o os).
  - intros pos value v Hwf Hlt Hpos. by apply insert_reference_cases.
  - intros count value v Hwf Hcount. by apply assign_reference_cases.
Qed.

End Proofs.

(** These containers are what the constructors build. *)
Lemma concrete_containers_constructed (NDEBUG : bool) :
  out (StaticVector_init_list NDEBUG 3 [1; 2; 3]) = Done ints_123 ∧
  out (StaticVector_init_list NDEBUG 3 [1; 3]) = Done ints_13 ∧
  out (StaticVector_init_list NDEBUG 3 [1; 2]) = Done ints_12 ∧
  out (StaticVector_init_list NDEBUG 2 [7]) = Done ints_7 ∧
  out (StaticVector_init_list NDEBUG 3 ["a"; "b"; "c"]%string)
    = Done strings_abc ∧
  out (StaticVector_init_list NDEBUG 3 ["a"]%string) = Done strings_a.
Proof. by destruct NDEBUG. Qed.

Ltac solve_represents :=
  split; [reflexivity|];
  let i := fresh "i" in
  let Hi := fresh "Hi" in
  intros i ? Hi;
  repeat (destruct i as [|i]; [injection Hi as <-; reflexivity | simpl in Hi]);
  discriminate Hi.

Ltac solve_wf es :=
  split; [reflexivity | simpl; lia | exists es; solve_represents].


(** The container [1, 2, 3] of a [StaticVector<int, 3>]. *)
Lemma reverse_iteration_back_to_front_witness :
  rbegin ints_123 = {| m_ptr := at_offset (size ints_123 - 1) |} ∧
  rend ints_123 = {| m_ptr := at_offset (-1) |} ∧
  (∀ e, last [1; 2; 3] = Some e →
        out (rev_deref false ints_123 (rbegin ints_123)) = Done e) ∧
  ∀ fuel, (length [1; 2; 3] ≤ fuel)%nat →
    out (reverse_iteration false fuel ints_123) = Done (Some (reverse [1; 2; 3])).
Proof.
  apply (reverse_iteration_back_to_front false 3 ints_123 [1; 2; 3]).
  - unfold PTRDIFF_MAX. lia.
  - solve_wf [1; 2; 3].
  - solve_represents.
Defined.

(** Reverse iteration over [1, 2, 3] yields 3, 2, 1. *)
Example reverse_iteration_123 :
  out (reverse_iteration false 3 ints_123) = Done (Some [3; 2; 1]).
Proof. reflexivity. Qed.

(** C4: on the container [1, 2, 3], let [b] be the reverse cursor reached
    from [a = rbegin()] by one increment.  The distance [b - a] is 1, yet
    [a < b] and [a <= b] are false and [a > b] and [a >= b] are true: the
    relational operators order reverse cursors against the traversal. *)
Theorem reverse_cursor_comparison_inverted :
  out (b ← rev_incr (rbegin ints_123); rev_distance b (rbegin ints_123))
    = Done 1 ∧
  out (b ← rev_incr (rbegin ints_123); rev_lt (rbegin ints_123) b)
    = Done false ∧
  out (b ← rev_incr (rbegin ints_123); rev_le (rbegin ints_123) b)
    = Done false ∧
  out (b ← rev_incr (rbegin ints_123); rev_gt (rbegin ints_123) b)
    = Done true ∧
  out (b ← rev_incr (rbegin ints_123); rev_ge (rbegin ints_123) b)
    = Done true ∧
  out (rev_lt (rend ints_123) (rbegin ints_123)) = Done true.
Proof. by repeat split. Qed.

(** A [StaticVector<std::string, 3>] holding three strings, moved into a
    new container and move-assigned to a second object of the store. *)
Lemma move_keeps_source_length_witness :
  (∃ s' d, out (StaticVector_move false 3 strings_abc) = Done (s', d) ∧
           size s' = size strings_abc ∧
           represents s' (moved_from <$> ["a"; "b"; "c"]) ∧
           represents d ["a"; "b"; "c"]) ∧
  (∀ (σ : gmap nat (StaticVector string)) (this other : nat) t,
     σ !! other = Some strings_abc → σ !! this = Some t → wf 3 t →
     ∃ σ' s', out (move_assign false 3 this other σ) = Done σ' ∧
              σ' !! other = Some s' ∧ size s' = size strings_abc ∧
              represents s'
                (if decide (this = other) then ["a"; "b"; "c"]
                 else moved_from <$> ["a"; "b"; "c"])).
Proof.
  apply (move_keeps_source_length false 3 strings_abc ["a"; "b"; "c"]).
  - unfold valid_capacity, SIZE_MAX. lia.
  - solve_wf ["a"; "b"; "c"]%string.
  - solve_represents.
Defined.

(** Move assignment of the object at address 1 to the object at address 0,
    and of the object at address 1 to itself. *)
Example move_assign_in_store :
  out (σ ← move_assign false 3 0 1 two_strings_store;
       mret (σ !! 0%nat, σ !! 1%nat))
    = Done (Some strings_abc,
            Some {| m_storage := [Obj EmptyString; Obj EmptyString;
                                  Obj EmptyString];
                    m_size := 3 |}) ∧
  out (σ ← move_assign false 3 1 1 two_strings_store;
       mret (σ !! 0%nat, σ !! 1%nat))
    = Done (Some strings_a, Some strings_abc).
Proof. split; by vm_compute. Qed.

(** C1 fails as stated: copy construction of a [StaticVector<int, 3>] from
    the [StaticVector<int, 2>] holding [7] evaluates one assertion, that of
    [push_back]; the source's length is never compared with the capacity
    of the destination. *)
Lemma cross_capacity_check_not_performed :
  log (StaticVector_copy_cross false 3 2 ints_7)
    = [Check msg_size_lt_capacity true] ∧
  size_check 3 ints_7 ∉ log (StaticVector_copy_cross false 3 2 ints_7).
Proof.
  split; [reflexivity|]. intros Hin.
  apply list_elem_of_singleton in Hin. discriminate Hin.
Qed.

(** From a [StaticVector<int, 3>] into a [StaticVector<int, 2>]. *)
Lemma cross_capacity_check_iff_larger_source_witness :
  ((size_check 2 ints_123
      ∈ log (StaticVector_copy_cross false 2 3 ints_123) ↔ 2 < 3) ∧
   (3 ≤ 2 →
    Forall (λ c, check_msg c = msg_size_lt_capacity)
      (log (StaticVector_copy_cross false 2 3 ints_123)))) ∧
  ((size_check 2 ints_123
      ∈ log (StaticVector_move_cross false 2 3 ints_123) ↔ 2 < 3) ∧
   (3 ≤ 2 →
    Forall (λ c, check_msg c = msg_size_lt_capacity)
      (log (StaticVector_move_cross false 2 3 ints_123)))) ∧
  ((size_check 2 ints_123
      ∈ log (copy_assign_cross false 2 3 ints_123 ints_7) ↔ 2 < 3) ∧
   (3 ≤ 2 →
    Forall (λ c, check_msg c = msg_size_lt_capacity)
      (log (copy_assign_cross false 2 3 ints_123 ints_7)))) ∧
  ((size_check 2 ints_123
      ∈ log (move_assign_cross false 2 3 ints_123 ints_7) ↔ 2 < 3) ∧
   (3 ≤ 2 →
    Forall (λ c, check_msg c = msg_size_lt_capacity)
      (log (move_assign_cross false 2 3 ints_123 ints_7)))).
Proof.
  apply (cross_capacity_check_iff_larger_source false 2 3 ints_123 ints_7).
  reflexivity.
Defined.

(** C3 fails as stated: on the container [1, 2] of a [StaticVector<int, 3>]
    the index 2 is not below the length, and indexed access evaluates no
    assertion and returns what the slot holds. *)
Lemma index_out_of_range_not_asserted :
  ¬ 2 < size ints_12 ∧
  log (index ints_12 2) = [] ∧
  out (index ints_12 2) = Done 0.
Proof. split; [unfold size; simpl; lia | by split]. Qed.

(** The violations, with assertions enabled: the capacity on the full
    [StaticVector<int, 3>] holding [1, 2, 3]; the empty
    [StaticVector<int, 3>]; that container as a source that is too long for
    a [StaticVector<int, 2>]; a position before [begin()] and an iterator
    pair with [first] before [begin()]; a default-constructed reverse
    iterator; and, on the container [1, 3], an insertion at a valid
    position, which fails no assertion. *)
Lemma checked_preconditions_witness :
  (out (push_back false 3 4 ints_123) = AssertionFailed msg_size_lt_capacity ∧
   out (emplace_back false 3 4 ints_123)
     = AssertionFailed msg_size_lt_capacity ∧
   out (insert false 3 1 (outside 4) ints_123)
     = AssertionFailed msg_size_lt_capacity ∧
   out (insert_rvalue false 3 1 (inside 0) ints_123)
     = AssertionFailed msg_size_lt_capacity ∧
   out (resize false 3 5 ints_123) = AssertionFailed msg_count ∧
   out (reserve false 3 5 ints_123) = AssertionFailed msg_reserve ∧
   out (assign false 3 5 (outside 4) ints_123)
     = AssertionFailed msg_size_le_capacity ∧
   out (StaticVector_fill false 3 4 0)
     = AssertionFailed msg_size_lt_capacity ∧
   out (StaticVector_init_list false 3 [1; 2; 3; 4])
     = AssertionFailed msg_size_lt_capacity) ∧
  (out (pop_back false (StaticVector_default (Element := Z) 3))
     = AssertionFailed msg_not_empty ∧
   out (front false (StaticVector_default (Element := Z) 3))
     = AssertionFailed msg_at_least_one ∧
   out (back false (StaticVector_default (Element := Z) 3))
     = AssertionFailed msg_at_least_one) ∧
  (out (StaticVector_copy_cross false 2 3 ints_123)
     = AssertionFailed msg_size_le_capacity ∧
   out (StaticVector_move_cross false 2 3 ints_123)
     = AssertionFailed msg_size_le_capacity ∧
   out (copy_assign_cross false 2 3 ints_123 ints_7)
     = AssertionFailed msg_size_le_capacity ∧
   out (move_assign_cross false 2 3 ints_123 ints_7)
     = AssertionFailed msg_size_le_capacity) ∧
  (out (insert false 3 (-1) (outside 2) ints_13)
     = AssertionFailed msg_invalid_iterator ∧
   out (insert_rvalue false 3 (-1) (outside 2) ints_13)
     = AssertionFailed msg_invalid_iterator ∧
   (∀ msg, out (insert false 3 1 (outside 2) ints_13) ≠ AssertionFailed msg ∧
           out (insert_rvalue false 3 1 (outside 2) ints_13)
             ≠ AssertionFailed msg)) ∧
  (out (erase false (-1) 3 ints_123)
     = AssertionFailed msg_invalid_iterator_pair ∧
   out (erase_const false (-1) 3 ints_123)
     = AssertionFailed msg_invalid_iterator_pair) ∧
  out (rev_deref false ints_123 ReverseIterator_default)
    = AssertionFailed msg_nullptr ∧
  (log (index ints_12 2) = [] ∧
   ∀ msg, out (index ints_12 2) ≠ AssertionFailed msg).
Proof.
  destruct (checked_preconditions (Element := Z) false 3 eq_refl)
    as (Hpush & Hresize & Hassign & Hctor & Hempty & _ & _ & Hinsert & Herase
        & Hderef & Hindex).
  destruct (checked_preconditions (Element := Z) false 2 eq_refl)
    as (_ & _ & _ & _ & _ & Hcross & _).
  destruct Hctor as [Hfill Hinit]; [unfold valid_capacity, SIZE_MAX; lia|].
  split_and!.
  - apply (Hpush 4 ints_123). simpl. lia.
  - apply (Hpush 4 ints_123). simpl. lia.
  - apply (Hinsert 1 (outside 4) ints_123). simpl. lia.
  - apply (Hinsert 1 (inside 0) ints_123). simpl. lia.
  - apply (Hresize 5 ints_123). lia.
  - apply (Hresize 5 ints_123). lia.
  - apply (Hassign 5 (outside 4) ints_123). lia.
  - apply (Hfill 4 0). lia.
  - apply (Hinit [1; 2; 3; 4]). simpl. lia.
  - apply (Hempty (StaticVector_default 3)). simpl. lia.
  - apply (Hempty (StaticVector_default 3)). simpl. lia.
  - apply (Hempty (StaticVector_default 3)). simpl. lia.
  - apply (Hcross 3 ints_123 ints_7); [lia|]. unfold size. simpl. lia.
  - apply (Hcross 3 ints_123 ints_7); [lia|]. unfold size. simpl. lia.
  - apply (Hcross 3 ints_123 ints_7); [lia|]. unfold size. simpl. lia.
  - apply (Hcross 3 ints_123 ints_7); [lia|]. unfold size. simpl. lia.
  - apply (Hinsert (-1) (outside 2) ints_13); [simpl|unfold cbegin]; lia.
  - apply (Hinsert (-1) (outside 2) ints_13); [simpl|unfold cbegin]; lia.
  - apply (Hinsert 1 (outside 2) ints_13); [simpl|unfold cbegin]; lia.
  - apply (Herase (-1) 3 ints_123). split; [by eexists|].
    intros [_ Hle]. vm_compute in Hle. by destruct Hle.
  - apply (Herase (-1) 3 ints_123). split; [by eexists|].
    intros [_ Hle]. vm_compute in Hle. by destruct Hle.
  - by apply (Hderef ints_123 ReverseIterator_default).
  - apply (Hindex ints_12 2).
  - apply (Hindex ints_12 2).
Defined.

(** A [StaticVector<int, 3>] with assertions enabled. *)
Lemma length_never_exceeds_capacity_witness :
  wf 3 (StaticVector_default (Element := Z) 3) ∧
  (∀ count (e : Z), 0 ≤ count ≤ 3 →
     returns (StaticVector_fill false 3 count e) (wf 3)) ∧
  (∀ vs : list Z, Z.of_nat (length vs) ≤ 3 →
     returns (StaticVector_init_list false 3 vs) (wf 3)) ∧
  (∀ OTHER_CAPACITY (other : StaticVector Z),
     wf OTHER_CAPACITY other → m_size other ≤ 3 →
     returns (StaticVector_copy false 3 other) (wf 3) ∧
     returns (StaticVector_copy_cross false 3 OTHER_CAPACITY other) (wf 3) ∧
     returns (StaticVector_move false 3 other)
       (λ r, wf OTHER_CAPACITY r.1 ∧ wf 3 r.2) ∧
     returns (StaticVector_move_cross false 3 OTHER_CAPACITY other)
       (λ r, wf OTHER_CAPACITY r.1 ∧ wf 3 r.2)) ∧
  (∀ op (v : StaticVector Z), wf 3 v → precondition 3 op v →
     completes_or_undefined (run false 3 op v) (wf 3) (undefined_case op v)) ∧
  (∀ (σ : gmap nat (StaticVector Z)) (this other : nat) t o,
     σ !! this = Some t → σ !! other = Some o → wf 3 t → wf 3 o →
     returns (copy_assign false 3 this other σ)
       (λ σ', ∃ t', σ' !! this = Some t' ∧ wf 3 t') ∧
     returns (move_assign false 3 this other σ)
       (λ σ', ∃ t' o', σ' !! this = Some t' ∧ σ' !! other = Some o' ∧
                       wf 3 t' ∧ wf 3 o')) ∧
  (∀ pos (value : reference Z) (v : StaticVector Z),
     wf 3 v → m_size v < 3 → begin_ v ≤ pos ≤ end_ v →
     completes_or_undefined (insert false 3 pos value v) (λ r, wf 3 r.2)
       (slot_at (m_storage v) (m_size v) = Some Raw ∨
        ∃ i, value = inside i ∧
             ∀ e, slot_at (m_storage v) i ≠ Some (Obj e)) ∧
     completes_or_undefined (insert_rvalue false 3 pos value v)
       (λ r, wf 3 r.2)
       (slot_at (m_storage v) (m_size v) = Some Raw ∨
        ∃ i, value = inside i ∧
             ∀ e, slot_at (m_storage v) i ≠ Some (Obj e))) ∧
  (∀ count (value : reference Z) (v : StaticVector Z),
     wf 3 v → 0 ≤ count ≤ 3 →
     completes_or_undefined (assign false 3 count value v) (wf 3)
       (∃ i, value = inside i ∧ 0 < count ∧
             (i < count ∨
              (is_trivially_destructible (Element := Z) = false ∧
               i < m_size v) ∨
              ∀ e, slot_at (m_storage v) i ≠ Some (Obj e)))).
Proof.
  apply (length_never_exceeds_capacity (Element := Z) false 3).
  unfold valid_capacity, SIZE_MAX. lia.
Defined.

(** Every step of: push 1, 2, 3, erase the element at index 1, insert 2 at
    index 1. *)
Example push_erase_insert :
  out (v ← push_back_all false 3 [1; 2; 3] (StaticVector_default 3);
       '(_, v) ← erase_at false 1 v;
       insert false 3 1 (outside 2) v)
  = Done (1, ints_123).
Proof. reflexivity. Qed.

(** C2: erasing the last element of the [StaticVector<std::string, 3>]
    holding "a", "b", "c" only decrements the length: slot 2 still holds
    the string "c", and the destructor of the container does not destroy
    it either.  Erasing the element at index 1 leaves the moved-from object
    in slot 2.  [pop_back] on the same container does destroy the object
    of slot 2. *)
Theorem erase_leaves_trailing_objects :
  out (erase false 2 3 strings_abc)
    = Done (2, {| m_storage := [Obj "a"; Obj "b"; Obj "c"]; m_size := 2 |}) ∧
  out (erase_const false 2 3 strings_abc)
    = Done (2, {| m_storage := [Obj "a"; Obj "b"; Obj "c"]; m_size := 2 |}) ∧
  out (erase_at false 1 strings_abc)
    = Done (1, {| m_storage := [Obj "a"; Obj "c"; Obj EmptyString];
                  m_size := 2 |}) ∧
  out (pop_back false strings_abc)
    = Done ("c"%string,
            {| m_storage := [Obj "a"; Obj "b"; Raw]; m_size := 2 |}) ∧
  out ('(_, v) ← erase false 2 3 strings_abc; StaticVector_destructor v)
    = Done [Raw; Raw; Obj "c"] ∧
  out ('(_, v) ← pop_back false strings_abc; StaticVector_destructor v)
    = Done [Raw; Raw; Raw].
Proof. by repeat split. Qed.

(** C5: [resize(1)] on the [StaticVector<std::string, 3>] holding "a", "b",
    "c" only sets the length: the strings "b" and "c" stay constructed in
    slots 1 and 2, indexed access still reads them (no assertion is in the
    way), and the destructor of the container leaves them.  [resize(2)] on
    the container holding "a" assigns to slot 1, in which no string was
    constructed. *)
Theorem resize_neither_destroys_nor_constructs :
  out (resize false 3 1 strings_abc)
    = Done {| m_storage := [Obj "a"; Obj "b"; Obj "c"]; m_size := 1 |} ∧
  out (v ← resize false 3 1 strings_abc; index v 2) = Done "c"%string ∧
  log (v ← resize false 3 1 strings_abc; index v 2)
    = [Check msg_count true] ∧
  out (v ← resize false 3 1 strings_abc; StaticVector_destructor v)
    = Done [Raw; Obj "b"; Obj "c"] ∧
  slot_at (m_storage strings_a) 1 = Some Raw ∧
  out (resize false 3 2 strings_a) = Undefined.
Proof. by repeat split. Qed.

(** C7: inserting at the end of the [StaticVector<std::string, 3>] holding
    "a" assigns to slot 1, in which no string was constructed, and so does
    the shift of an insertion at the front; [push_back] constructs the
    string there.  On [int] elements the insertion of 2 at index 1 of
    [1, 3] yields [1, 2, 3]. *)
Theorem insert_assigns_to_unconstructed_slot :
  slot_at (m_storage strings_a) (end_ strings_a) = Some Raw ∧
  out (insert false 3 (end_ strings_a) (outside "b"%string) strings_a)
    = Undefined ∧
  out (insert_rvalue false 3 (end_ strings_a) (outside "b"%string) strings_a)
    = Undefined ∧
  out (insert false 3 (begin_ strings_a) (outside "b"%string) strings_a)
    = Undefined ∧
  out (push_back false 3 "b"%string strings_a)
    = Done {| m_storage := [Obj "a"; Obj "b"; Raw]; m_size := 2 |} ∧
  out (insert false 3 1 (outside 2) ints_13) = Done (1, ints_123).
Proof. by repeat split. Qed.

(** * Further properties: instances *)


Lemma element_access_witness :
  (∀ (i : nat) e, [1; 2; 3] !! i = Some e →
                  out (index ints_123 (Z.of_nat i)) = Done e) ∧
  (∀ e, head [1; 2; 3] = Some e → out (front false ints_123) = Done e) ∧
  (∀ e, last [1; 2; 3] = Some e → out (back false ints_123) = Done e).
Proof.
  apply (element_access false 3 ints_123 [1; 2; 3]).
  - unfold valid_capacity, SIZE_MAX. lia.
  - solve_wf [1; 2; 3].
  - solve_represents.
Defined.

(** [assign(2, value)] on the [StaticVector<int, 3>] holding [1, 2, 3],
    with the value 9 and with [value] naming the element at index 2, and on
    the [StaticVector<std::string, 3>] holding "a", "b", "c" with [value]
    naming its first element. *)
Lemma assign_and_fill_witness :
  returns (assign false 3 2 (outside 9) ints_123)
    (λ v', wf 3 v' ∧ size v' = 2 ∧ represents v' (replicate (Z.to_nat 2) 9)) ∧
  returns (StaticVector_fill false 3 2 9)
    (λ v', wf 3 v' ∧ size v' = 2 ∧ represents v' (replicate (Z.to_nat 2) 9)) ∧
  returns (assign false 3 2 (inside 2) ints_123)
    (λ v', wf 3 v' ∧ size v' = 2 ∧ represents v' (replicate (Z.to_nat 2) 3)) ∧
  out (assign false 3 2 (inside 0) strings_abc) = Undefined.
Proof.
  assert (valid_capacity 3) as Hc by (unfold valid_capacity, SIZE_MAX; lia).
  destruct (assign_and_fill (Element := Z) false 3 2 ints_123)
    as (Hout & Hin & _); [done | solve_wf [1; 2; 3] | lia |].
  destruct (assign_and_fill (Element := string) false 3 2 strings_abc)
    as (_ & _ & Hdestroyed);
    [done | solve_wf ["a"; "b"; "c"]%string | lia |].
  split_and!.
  - apply (Hout 9).
  - apply (Hout 9).
  - apply (Hin 2 3); [reflexivity | lia | by left].
  - apply (Hdestroyed 0); [reflexivity | simpl; lia | lia].
Defined.

(** What these calls leave. *)
Example assign_from_own_element :
  out (assign false 3 2 (inside 2) ints_123)
    = Done {| m_storage := [Obj 3; Obj 3; Obj 3]; m_size := 2 |} ∧
  out (assign false 3 2 (outside "z"%string) strings_abc)
    = Done {| m_storage := [Obj "z"%string; Obj "z"%string; Raw];
              m_size := 2 |} ∧
  out (assign true 3 2 (inside 0) strings_abc) = Undefined.
Proof. by repeat split. Qed.

(** [std::string] elements on a [StaticVector<std::string, 3>]. *)
Lemma removed_elements_are_destroyed_witness :
  no_object_beyond_length (StaticVector_default (Element := string) 3) ∧
  (∀ op (v : StaticVector string), destroys_what_it_removes op = true →
     wf 3 v → no_object_beyond_length v → precondition 3 op v →
     returns (run false 3 op v)
       (λ v', wf 3 v' ∧ no_object_beyond_length v')) ∧
  (∀ v : StaticVector string, wf 3 v → no_object_beyond_length v →
     returns (StaticVector_destructor v) (Forall (λ s, s = Raw))).
Proof.
  apply (removed_elements_are_destroyed (Element := string) false 3).
  - reflexivity.
  - unfold valid_capacity, SIZE_MAX. lia.
Defined.

(** [int] elements on a [StaticVector<int, 3>]. *)
Lemma trivial_elements_always_constructed_witness :
  all_constructed (StaticVector_default (Element := Z) 3) ∧
  ∀ op (v : StaticVector Z), wf 3 v → all_constructed v →
    precondition 3 op v →
    completes_or_undefined (run false 3 op v)
      (λ v', wf 3 v' ∧ all_constructed v')
      (match op with
       | Erase first last | EraseConst first last =>
           first = last ∧ last < end_ v
       | _ => False
       end).
Proof.
  apply (trivial_elements_always_constructed (Element := Z) false 3).
  - reflexivity.
  - unfold valid_capacity, SIZE_MAX. lia.
Defined.

Lemma clear_destroys_the_elements_witness :
  log (clear strings_abc) = [] ∧
  returns (clear strings_abc)
    (λ v', size v' = 0 ∧ wf 3 v' ∧
           (∀ i, m_size strings_abc ≤ i →
                 slot_at (m_storage v') i = slot_at (m_storage strings_abc) i) ∧
           if is_trivially_destructible (Element := string)
           then m_storage v' = m_storage strings_abc
           else ∀ i, 0 ≤ i < m_size strings_abc →
                     slot_at (m_storage v') i = Some Raw).
Proof.
  apply (clear_destroys_the_elements 3 strings_abc).
  solve_wf ["a"; "b"; "c"]%string.
Defined.

(** ** compiler_type.h *)

(** X20: the header defines at most one of the three vendor macros.  The
    Intel macro is defined exactly when one of the two Intel macros is
    predefined; the NVIDIA macro only when no Intel macro is; the GNU macro
    only when neither an Intel nor the NVIDIA macro is predefined, so a
    compiler that also predefines [__GNUC__] is not taken for GCC. *)
Theorem compiler_type_h_exclusive (defined : predefined_macro → bool) :
  (length (compiler_type_h defined) ≤ 1)%nat ∧
  (USING_INTEL_COMPILER ∈ compiler_type_h defined ↔
   defined INTEL_COMPILER = true ∨ defined INTEL_LLVM_COMPILER = true) ∧
  (USING_NVIDIA_COMPILER ∈ compiler_type_h defined ↔
   defined NVCOMPILER = true ∧
   defined INTEL_COMPILER = false ∧ defined INTEL_LLVM_COMPILER = false) ∧
  (USING_GNU_COMPILER ∈ compiler_type_h defined ↔
   defined GNUC = true ∧ defined NVCOMPILER = false ∧
   defined INTEL_COMPILER = false ∧ defined INTEL_LLVM_COMPILER = false).
Proof.
  unfold compiler_type_h.
  destruct (defined INTEL_COMPILER), (defined INTEL_LLVM_COMPILER),
    (defined NVCOMPILER), (defined GNUC); simpl;
    (split; [lia|]);
    rewrite ?list_elem_of_singleton, ?elem_of_nil;
    intuition congruence.
Qed.

(** The Intel compilers predefine [__GNUC__] as well. *)
Example compiler_type_h_icx :
  compiler_type_h (λ m, match m with
                        | INTEL_LLVM_COMPILER | GNUC => true
                        | _ => false
                        end) = [USING_INTEL_COMPILER].
Proof. reflexivity. Qed.

(** ** Instances of the properties of insert, erase, resize and copying *)

(** On the [StaticVector<int, 3>] holding [1, 3]: the value 2 inserted at
    index 1, and [v.insert(v.begin(), v[1])]. *)
Lemma insert_puts_value_at_pos_witness :
  returns (insert false 3 1 (outside 2) ints_13)
    (λ r, r.1 = 1 ∧ wf 3 r.2 ∧ size r.2 = size ints_13 + 1 ∧
          represents r.2 [1; 2; 3]) ∧
  returns (insert_rvalue false 3 1 (outside 2) ints_13)
    (λ r, r.1 = 1 ∧ wf 3 r.2 ∧ size r.2 = size ints_13 + 1 ∧
          represents r.2 [1; 2; 3]) ∧
  returns (insert false 3 0 (inside 1) ints_13)
    (λ r, r.1 = 0 ∧ wf 3 r.2 ∧ size r.2 = size ints_13 + 1 ∧
          represents r.2 [1; 1; 3]) ∧
  returns (insert_rvalue false 3 0 (inside 1) ints_13)
    (λ r, r.1 = 0 ∧ wf 3 r.2 ∧ size r.2 = size ints_13 + 1 ∧
          represents r.2 [1; 1; 3]).
Proof.
  assert (valid_capacity 3) as Hc by (unfold valid_capacity, SIZE_MAX; lia).
  assert (wf 3 ints_13) as Hwf by solve_wf [1; 3].
  assert (represents ints_13 [1; 3]) as Hrep by solve_represents.
  destruct (insert_puts_value_at_pos false 3 1 ints_13 [1; 3] 0)
    as [Hout _];
    [done | done | done | simpl; lia | unfold begin_, end_; simpl; lia
    | reflexivity |].
  destruct (insert_puts_value_at_pos false 3 0 ints_13 [1; 3] 0)
    as [_ Hin];
    [done | done | done | simpl; lia | unfold begin_, end_; simpl; lia
    | reflexivity |].
  destruct (Hin 1 3) as (y & _ & _ & Hy & Hins & Hinsr);
    [lia | reflexivity |].
  assert (y = 1) as -> by (specialize (Hy ltac:(lia)); by injection Hy).
  split_and!.
  - apply (Hout 2).
  - apply (Hout 2).
  - exact Hins.
  - exact Hinsr.
Defined.

(** The two insertions from an element of the container, step by step:
    the shift has moved the element that [value] names before it is read.
    On strings the rvalue overload leaves the moved-from string in the slot
    it has read. *)
Example insert_from_own_element :
  out (insert false 3 0 (inside 1) ints_13)
    = Done (0, {| m_storage := [Obj 1; Obj 1; Obj 3]; m_size := 3 |}) ∧
  out ('(_, v) ← erase false 2 3 strings_abc; insert false 3 0 (inside 1) v)
    = Done (0, {| m_storage := [Obj "a"; Obj "a"; Obj "b"]%string;
                  m_size := 3 |}) ∧
  out ('(_, v) ← erase false 2 3 strings_abc;
       insert_rvalue false 3 0 (inside 1) v)
    = Done (0, {| m_storage := [Obj "a"; Obj ""; Obj "b"]%string;
                  m_size := 3 |}).
Proof. by repeat split. Qed.

Lemma erase_removes_the_range_witness :
  returns (erase false 1 2 strings_abc)
    (λ r, r.1 = 1 ∧ wf 3 r.2 ∧ size r.2 = size strings_abc - (2 - 1) ∧
          represents r.2
            (take (Z.to_nat 1) ["a"; "b"; "c"]%string ++
             drop (Z.to_nat 2) ["a"; "b"; "c"]%string) ∧
          ∀ j e, size r.2 ≤ j → 2 ≤ j →
                 ["a"; "b"; "c"]%string !! Z.to_nat j = Some e →
                 slot_at (m_storage r.2) j = Some (Obj (moved_from e))) ∧
  returns (erase_const false 1 2 strings_abc)
    (λ r, r.1 = 1 ∧ wf 3 r.2 ∧ size r.2 = size strings_abc - (2 - 1) ∧
          represents r.2
            (take (Z.to_nat 1) ["a"; "b"; "c"]%string ++
             drop (Z.to_nat 2) ["a"; "b"; "c"]%string) ∧
          ∀ j, size r.2 ≤ j →
               slot_at (m_storage r.2) j = slot_at (m_storage strings_abc) j).
Proof.
  apply (erase_removes_the_range false 3 1 2 strings_abc
           ["a"; "b"; "c"]%string).
  - unfold valid_capacity, SIZE_MAX. lia.
  - solve_wf ["a"; "b"; "c"]%string.
  - solve_represents.
  - unfold begin_. lia.
  - lia.
  - unfold end_. simpl. lia.
  - left. lia.
Defined.

(** The two overloads on one call: the first leaves the moved-from string
    in slot 2, the second the string "c". *)
Example erase_moves_erase_const_copies :
  out (erase false 1 2 strings_abc)
    = Done (1, {| m_storage := [Obj "a"; Obj "c"; Obj ""]%string;
                  m_size := 2 |}) ∧
  out (erase_const false 1 2 strings_abc)
    = Done (1, {| m_storage := [Obj "a"; Obj "c"; Obj "c"]%string;
                  m_size := 2 |}).
Proof. by repeat split. Qed.

Lemma resize_sequence_witness :
  returns (resize false 3 3 ints_12)
    (λ v', wf 3 v' ∧ size v' = 3 ∧
           (3 ≤ m_size ints_12 →
              m_storage v' = m_storage ints_12 ∧
              represents v' (take (Z.to_nat 3) [1; 2])) ∧
           (m_size ints_12 ≤ 3 →
              represents v'
                ([1; 2] ++ replicate (Z.to_nat (3 - m_size ints_12))
                             Element_default))).
Proof.
  apply (resize_sequence false 3 3 ints_12 [1; 2]).
  - unfold valid_capacity, SIZE_MAX. lia.
  - solve_wf [1; 2].
  - solve_represents.
  - lia.
  - simpl. intros i Hi. assert (i = 2) as -> by lia. by exists 0.
Defined.

(** [v.insert(v.begin(), v[1])] on the [StaticVector<int, 3>] holding
    [1, 3], followed by [erase]. *)
Lemma insert_then_erase_witness :
  returns (r ← insert false 3 0 (inside 1) ints_13; erase_at false r.1 r.2)
    (λ r, r.1 = 0 ∧ wf 3 r.2 ∧ represents r.2 [1; 3]).
Proof.
  apply (insert_then_erase false 3 0 (inside 1) ints_13 [1; 3] 0).
  - unfold valid_capacity, SIZE_MAX. lia.
  - solve_wf [1; 3].
  - solve_represents.
  - simpl. lia.
  - unfold begin_, end_. simpl. lia.
  - reflexivity.
  - intros i [= <-]. unfold size. simpl. lia.
Defined.

Lemma erase_then_insert_witness :
  returns (r ← erase_at false 1 strings_abc;
           insert false 3 r.1 (outside "b"%string) r.2)
    (λ r, r.1 = 1 ∧ wf 3 r.2 ∧ represents r.2 ["a"; "b"; "c"]%string).
Proof.
  apply (erase_then_insert false 3 1 strings_abc ["a"; "b"; "c"]%string
           "b"%string).
  - unfold valid_capacity, SIZE_MAX. lia.
  - solve_wf ["a"; "b"; "c"]%string.
  - solve_represents.
  - reflexivity.
  - unfold begin_. lia.
Defined.

Lemma copy_makes_a_copy_witness :
  returns (StaticVector_copy false 3 strings_abc)
    (λ v', wf 3 v' ∧ represents v' ["a"; "b"; "c"]%string) ∧
  returns (copy_assign false 3 0 1 two_strings_store)
    (λ σ', (∃ t', σ' !! 0%nat = Some t' ∧ wf 3 t' ∧
                  represents t' ["a"; "b"; "c"]%string) ∧
           σ' !! 1%nat = Some strings_abc ∧
           (∀ a, a ≠ 0%nat → σ' !! a = two_strings_store !! a) ∧
           (0%nat = 1%nat → σ' = two_strings_store)).
Proof.
  apply (copy_makes_a_copy false 3 two_strings_store 0 1 strings_a
           strings_abc ["a"; "b"; "c"]%string).
  - unfold valid_capacity, SIZE_MAX. lia.
  - reflexivity.
  - reflexivity.
  - solve_wf ["a"]%string.
  - solve_wf ["a"; "b"; "c"]%string.
  - solve_represents.
Defined.

Lemma copy_from_other_capacity_witness :
  (m_size ints_123 ≤ 2 →
     returns (StaticVector_copy_cross false 2 3 ints_123)
       (λ v', wf 2 v' ∧ represents v' [1; 2; 3])) ∧
  (3 ≤ 2 → m_size ints_123 ≤ 2) ∧
  (2 < m_size ints_123 →
     out (StaticVector_copy_cross false 2 3 ints_123)
     = if false then Undefined else AssertionFailed msg_size_le_capacity).
Proof.
  apply (copy_from_other_capacity false 2 3 ints_123 [1; 2; 3]).
  - unfold valid_capacity, SIZE_MAX. lia.
  - solve_wf [1; 2; 3].
  - solve_represents.
Defined.

Lemma precondition_violations_with_NDEBUG_witness :
  (m_size ints_123 = 3 →
     out (push_back true 3 4 ints_123) = Undefined ∧
     out (emplace_back true 3 4 ints_123) = Undefined) ∧
  (m_size ints_123 = 0 →
     out (pop_back true ints_123) = Undefined ∧
     out (back true ints_123) = Undefined).
Proof.
  apply (precondition_violations_with_NDEBUG true 3 4 ints_123).
  - reflexivity.
  - unfold valid_capacity, SIZE_MAX. lia.
  - solve_wf [1; 2; 3].
Defined.

Lemma forward_and_reverse_iteration_witness :
  out (forward_iteration 3 ints_123) = Done (Some [1; 2; 3]) ∧
  out (reverse_iteration false 3 ints_123) = Done (Some (reverse [1; 2; 3])).
Proof.
  apply (forward_and_reverse_iteration false 3 ints_123 [1; 2; 3] 3).
  - unfold PTRDIFF_MAX. lia.
  - solve_wf [1; 2; 3].
  - solve_represents.
  - simpl. lia.
Defined.

Lemma reverse_indexing_witness :
  out (rev_index ints_123 (rbegin ints_123) (Z.of_nat 1)) = Done 2 ∧
  out (it ← rev_plus (rbegin ints_123) (Z.of_nat 1);
       rev_deref false ints_123 it) = Done 2.
Proof.
  apply (reverse_indexing false 3 ints_123 [1; 2; 3] 1 2).
  - unfold PTRDIFF_MAX. lia.
  - solve_wf [1; 2; 3].
  - solve_represents.
  - reflexivity.
Defined.

(** From the [StaticVector<std::string, 3>] holding "a" into a
    [StaticVector<std::string, 2>]. *)
Lemma move_from_other_capacity_witness :
  returns (StaticVector_move_cross false 2 3 strings_a)
    (λ r, wf 3 r.1 ∧ size r.1 = size strings_a ∧
          represents r.1 (moved_from <$> ["a"]%string) ∧
          wf 2 r.2 ∧ represents r.2 ["a"]%string) ∧
  returns (move_assign_cross false 2 3 strings_a (StaticVector_default 2))
    (λ r, wf 3 r.1 ∧ size r.1 = size strings_a ∧
          represents r.1 (moved_from <$> ["a"]%string) ∧
          wf 2 r.2 ∧ represents r.2 ["a"]%string).
Proof.
  apply (move_from_other_capacity false 2 3 strings_a (StaticVector_default 2)
           ["a"]%string).
  - unfold valid_capacity, SIZE_MAX. lia.
  - solve_wf (@nil string).
  - solve_wf ["a"]%string.
  - solve_represents.
  - simpl. lia.
Defined.
